(** * First-person playground: player controller and scenery placement

    A shallow embedding of [src/game/controls/PlayerController.tsx] and of
    the placement part of [src/game/scene/SceneryCluster.tsx].

    JavaScript numbers that carry geometry (angles, velocities, positions)
    are modelled as real numbers, so every statement about them is a
    statement in exact arithmetic.  Counters, identifiers, milliseconds and
    the 32-bit state of the pseudo-random generator are integers and stay
    executable. *)

From Stdlib Require Import Reals Lra Lia ZArith NArith List String Bool Ascii.
From Stdlib Require DecimalString DecimalNat.
Import ListNotations.

Open Scope R_scope.

(** ** Comparisons of reals as booleans *)

Definition Rlt_b (a b : R) : bool := if Rlt_dec a b then true else false.

(** ** The part of three.js the controller uses *)

Record Euler := mkEuler { ex : R; ey : R; ez : R }.

Module Vector3.

Record t := mk { x : R; y : R; z : R }.

Definition zero : t := mk 0 0 0.

Definition add (a b : t) : t := mk (x a + x b) (y a + y b) (z a + z b).
Definition sub (a b : t) : t := mk (x a - x b) (y a - y b) (z a - z b).
Definition multiplyScalar (a : t) (s : R) : t := mk (x a * s) (y a * s) (z a * s).
Definition divideScalar (a : t) (s : R) : t := multiplyScalar a (1 / s).
Definition lengthSq (a : t) : R := x a * x a + y a * y a + z a * z a.
Definition length (a : t) : R := sqrt (lengthSq a).

(** [normalize] divides by [length() || 1]. *)
Definition normalize (a : t) : t :=
  divideScalar a (if Req_EM_T (length a) 0 then 1 else length a).

(** [lerp(v, alpha)]: each component moves by [(v - this) * alpha]. *)
Definition lerp (a v : t) (alpha : R) : t :=
  mk (x a + (x v - x a) * alpha)
     (y a + (y v - y a) * alpha)
     (z a + (z v - z a) * alpha).

Definition rotateX (th : R) (a : t) : t :=
  mk (x a) (y a * cos th - z a * sin th) (y a * sin th + z a * cos th).
Definition rotateY (th : R) (a : t) : t :=
  mk (x a * cos th + z a * sin th) (y a) (- x a * sin th + z a * cos th).
Definition rotateZ (th : R) (a : t) : t :=
  mk (x a * cos th - y a * sin th) (x a * sin th + y a * cos th) (z a).

(** Rotation by an Euler triple in the order the controller fixes, 'YXZ':
    the matrix is Ry * Rx * Rz. *)
Definition applyEuler (a : t) (e : Euler) : t :=
  rotateY (ey e) (rotateX (ex e) (rotateZ (ez e) a)).

(** Length in the ground plane. *)
Definition horizontalLength (a : t) : R := sqrt (x a * x a + z a * z a).

End Vector3.

Definition vec3 : Type := Vector3.t.

(** ** Constants of PlayerController.tsx *)

Definition MOVE_SPEED : R := 4.5.
Definition LOOK_SENSITIVITY : R := 0.0035.
Definition CAMERA_HEIGHT : R := 1.3.
Definition MAX_PITCH : R := PI / 2 - 0.05.
Definition JUMP_IMPULSE : R := 4.5.
Definition GUN_POSITION_OFFSET : vec3 := Vector3.mk 0.2 (- 0.35) (- 0.5).
Definition GUN_MUZZLE_OFFSET : vec3 := Vector3.mk 0 0.13 (- 0.75).
Definition GUN_SWAY_INTENSITY : R := 0.045.
Definition GUN_SWAY_SMOOTHING : R := 12.
Definition PROJECTILE_SPEED : R := 30.
Definition PROJECTILE_LIFETIME_MS : N := 2400%N.
Definition AUTO_FIRE_ENABLED : bool := true.
Definition AUTO_FIRE_INTERVAL_MS : N := 250%N.

(** ** Data *)

Record KeyState := mkKeyState {
  forward : bool;
  backward : bool;
  left : bool;
  right : bool;
  jump : bool
}.

(** The handle of a Rapier rigid body, as far as the controller reads and
    writes it.  [invMass] is what turns an impulse into a change of
    velocity. *)
Record RigidBody := mkRigidBody {
  translation : vec3;
  linvel : vec3;
  angvel : vec3;
  invMass : R
}.

(** The calls the frame callback makes on the body handle, in order. *)
Inductive BodyCall :=
| SetLinvel (v : vec3)
| SetAngvel (v : vec3)
| ApplyImpulse (v : vec3).

Definition applyCall (b : RigidBody) (c : BodyCall) : RigidBody :=
  match c with
  | SetLinvel v => mkRigidBody (translation b) v (angvel b) (invMass b)
  | SetAngvel v => mkRigidBody (translation b) (linvel b) v (invMass b)
  | ApplyImpulse v =>
      mkRigidBody (translation b)
        (Vector3.add (linvel b) (Vector3.multiplyScalar v (invMass b)))
        (angvel b) (invMass b)
  end.

(** A scene node with a pose: the camera and the weapon mount.  The
    orientation is kept as the 'YXZ' Euler triple its quaternion is set
    from. *)
Record Pose := mkPose {
  position : vec3;
  quaternion : Euler
}.

Record ProjectileInstance := mkProjectile {
  id : N;
  origin : vec3;
  direction : vec3
}.

(** The refs and state of one mounted controller, the module-level
    [keyState], and the pieces of the host the handlers consult:
    [pointerLocked] stands for [document.pointerLockElement === canvas],
    [clock] for the time in milliseconds and [timeouts] for the pending
    [window.setTimeout] callbacks of the mounted projectiles (due time and
    projectile id). *)
Record State := mkState {
  keyState : KeyState;
  pointerLocked : bool;
  bodyRef : option RigidBody;
  yaw : R;
  pitch : R;
  camera : Pose;
  contactCount : Z;
  jumpRequested : bool;
  gunRef : option Pose;
  gunSway : vec3;
  fireIntervalRef : bool;
  projectileIdRef : N;
  projectiles : list ProjectileInstance;
  clock : N;
  timeouts : list (N * N)
}.

Definition initial (cam : Pose) : State :=
  {| keyState := mkKeyState false false false false false;
     pointerLocked := false;
     bodyRef := None;
     yaw := 0; pitch := 0;
     camera := cam;
     contactCount := 0%Z;
     jumpRequested := false;
     gunRef := None;
     gunSway := Vector3.zero;
     fireIntervalRef := false;
     projectileIdRef := 0%N;
     projectiles := [];
     clock := 0%N;
     timeouts := [] |}.

(** *** Field updates *)

Definition with_keys (k : KeyState) (jr : bool) (s : State) : State :=
  mkState k (pointerLocked s) (bodyRef s) (yaw s) (pitch s) (camera s)
    (contactCount s) jr (gunRef s) (gunSway s) (fireIntervalRef s)
    (projectileIdRef s) (projectiles s) (clock s) (timeouts s).

Definition with_look (yw pt : R) (s : State) : State :=
  mkState (keyState s) (pointerLocked s) (bodyRef s) yw pt (camera s)
    (contactCount s) (jumpRequested s) (gunRef s) (gunSway s)
    (fireIntervalRef s) (projectileIdRef s) (projectiles s) (clock s)
    (timeouts s).

Definition with_pointerLocked (b : bool) (s : State) : State :=
  mkState (keyState s) b (bodyRef s) (yaw s) (pitch s) (camera s)
    (contactCount s) (jumpRequested s) (gunRef s) (gunSway s)
    (fireIntervalRef s) (projectileIdRef s) (projectiles s) (clock s)
    (timeouts s).

Definition with_bodyRef (b : option RigidBody) (s : State) : State :=
  mkState (keyState s) (pointerLocked s) b (yaw s) (pitch s) (camera s)
    (contactCount s) (jumpRequested s) (gunRef s) (gunSway s)
    (fireIntervalRef s) (projectileIdRef s) (projectiles s) (clock s)
    (timeouts s).

Definition with_gunRef (g : option Pose) (s : State) : State :=
  mkState (keyState s) (pointerLocked s) (bodyRef s) (yaw s) (pitch s)
    (camera s) (contactCount s) (jumpRequested s) g (gunSway s)
    (fireIntervalRef s) (projectileIdRef s) (projectiles s) (clock s)
    (timeouts s).

Definition with_contactCount (c : Z) (s : State) : State :=
  mkState (keyState s) (pointerLocked s) (bodyRef s) (yaw s) (pitch s)
    (camera s) c (jumpRequested s) (gunRef s) (gunSway s)
    (fireIntervalRef s) (projectileIdRef s) (projectiles s) (clock s)
    (timeouts s).

Definition with_fireInterval (f : bool) (s : State) : State :=
  mkState (keyState s) (pointerLocked s) (bodyRef s) (yaw s) (pitch s)
    (camera s) (contactCount s) (jumpRequested s) (gunRef s) (gunSway s)
    f (projectileIdRef s) (projectiles s) (clock s) (timeouts s).

Definition with_projectiles (next : N) (ps : list ProjectileInstance)
    (now : N) (ts : list (N * N)) (s : State) : State :=
  mkState (keyState s) (pointerLocked s) (bodyRef s) (yaw s) (pitch s)
    (camera s) (contactCount s) (jumpRequested s) (gunRef s) (gunSway s)
    (fireIntervalRef s) next ps now ts.

(** ** Keyboard *)

Definition onKeyDown (code : string) (repeat : bool) (s : State) : State :=
  if repeat then s else
  let k := keyState s in
  if String.eqb code "KeyW" then
    with_keys (mkKeyState true (backward k) (left k) (right k) (jump k))
      (jumpRequested s) s
  else if String.eqb code "KeyS" then
    with_keys (mkKeyState (forward k) true (left k) (right k) (jump k))
      (jumpRequested s) s
  else if String.eqb code "KeyA" then
    with_keys (mkKeyState (forward k) (backward k) true (right k) (jump k))
      (jumpRequested s) s
  else if String.eqb code "KeyD" then
    with_keys (mkKeyState (forward k) (backward k) (left k) true (jump k))
      (jumpRequested s) s
  else if String.eqb code "Space" then
    with_keys (mkKeyState (forward k) (backward k) (left k) (right k) true)
      true s
  else s.

Definition onKeyUp (code : string) (s : State) : State :=
  let k := keyState s in
  if String.eqb code "KeyW" then
    with_keys (mkKeyState false (backward k) (left k) (right k) (jump k))
      (jumpRequested s) s
  else if String.eqb code "KeyS" then
    with_keys (mkKeyState (forward k) false (left k) (right k) (jump k))
      (jumpRequested s) s
  else if String.eqb code "KeyA" then
    with_keys (mkKeyState (forward k) (backward k) false (right k) (jump k))
      (jumpRequested s) s
  else if String.eqb code "KeyD" then
    with_keys (mkKeyState (forward k) (backward k) (left k) false (jump k))
      (jumpRequested s) s
  else if String.eqb code "Space" then
    with_keys (mkKeyState (forward k) (backward k) (left k) (right k) false)
      (jumpRequested s) s
  else s.

(** ** Mouse look *)

(** [Math.max(-MAX_PITCH, Math.min(MAX_PITCH, p))] *)
Definition clampPitch (p : R) : R := Rmax (- MAX_PITCH) (Rmin MAX_PITCH p).

Definition invertFactor (invertY : bool) : R :=
  if invertY then LOOK_SENSITIVITY else - LOOK_SENSITIVITY.

(** What one pointer-move adds to the pitch before the clamp. *)
Definition pitchDelta (invertY : bool) (movementY : R) : R :=
  movementY * invertFactor invertY.

Definition handlePointerMove (invertY : bool) (movementX movementY : R)
    (s : State) : State :=
  if negb (pointerLocked s) then s else
  let yaw' := yaw s - movementX * LOOK_SENSITIVITY in
  let pitch' := pitch s + pitchDelta invertY movementY in
  with_look yaw' (clampPitch pitch') s.

(** ** Projectiles *)

(** [spawnProjectile]: the direction is the camera's forward axis, the
    origin is the muzzle in world space, the id is the running counter. *)
Definition spawnProjectile (s : State) : State :=
  let q := quaternion (camera s) in
  let cameraDirection :=
    Vector3.normalize (Vector3.applyEuler (Vector3.mk 0 0 (-1)) q) in
  let muzzleOffsetWorld :=
    Vector3.applyEuler
      (Vector3.add (Vector3.add GUN_POSITION_OFFSET (gunSway s))
         GUN_MUZZLE_OFFSET) q in
  let muzzleWorldPosition :=
    Vector3.add (position (camera s)) muzzleOffsetWorld in
  let id0 := projectileIdRef s in
  with_projectiles (id0 + 1)%N
    (projectiles s ++ [mkProjectile id0 muzzleWorldPosition cameraDirection])
    (clock s) (timeouts s) s.

(** The velocity the mount effect of [Projectile] writes to its body. *)
Definition projectileVelocity (p : ProjectileInstance) : vec3 :=
  Vector3.multiplyScalar (direction p) PROJECTILE_SPEED.

(** The mount effect of [Projectile]: schedule [onExpire id] after the
    lifetime. *)
Definition projectileEffect (id0 : N) (s : State) : State :=
  with_projectiles (projectileIdRef s) (projectiles s) (clock s)
    (timeouts s ++ [((clock s + PROJECTILE_LIFETIME_MS)%N, id0)]) s.

(** A spawn followed by the mount of the new [Projectile]. *)
Definition fire (s : State) : State :=
  projectileEffect (projectileIdRef s) (spawnProjectile s).

Definition handleProjectileExpire (id0 : N) (s : State) : State :=
  with_projectiles (projectileIdRef s)
    (filter (fun p => negb (id p =? id0)%N) (projectiles s))
    (clock s) (timeouts s) s.

Definition isDue (now : N) (t : N * N) : bool := (fst t <=? now)%N.

(** The host reaches time [now]: every timeout that is due runs its
    callback, in the order of registration, and leaves the queue. *)
Definition runTimeouts (now : N) (s : State) : State :=
  let due := filter (isDue now) (timeouts s) in
  let pending := filter (fun t => negb (isDue now t)) (timeouts s) in
  fold_left (fun st t => handleProjectileExpire (snd t) st) due
    (with_projectiles (projectileIdRef s) (projectiles s) now pending s).

Definition elapse (dt : N) (s : State) : State :=
  runTimeouts (clock s + dt)%N s.

Definition stopAutoFire (s : State) : State := with_fireInterval false s.

Definition handlePointerDown (button : Z) (onCanvas : bool) (s : State)
    : State :=
  if negb (button =? 0)%Z || (negb (pointerLocked s) && negb onCanvas)
  then s
  else
    let s1 := fire s in
    if AUTO_FIRE_ENABLED && negb (fireIntervalRef s1)
    then with_fireInterval true s1
    else s1.

Definition handlePointerUp (button : Z) (s : State) : State :=
  if negb (button =? 0)%Z then s else stopAutoFire s.

(** What [document.pointerLockElement] is when a pointerlockchange fires:
    nothing, the canvas, or some other element of the page. *)
Inductive LockElement := NoElement | Canvas | OtherElement.

Definition isCanvas (element : LockElement) : bool :=
  match element with Canvas => true | _ => false end.

Definition isNoElement (element : LockElement) : bool :=
  match element with NoElement => true | _ => false end.

(** The event comes with the new [document.pointerLockElement]: the
    comparison with the canvas that the other handlers make is kept in
    [pointerLocked]; the handler itself stops auto-fire, and only when no
    element holds the lock. *)
Definition handlePointerLockChange (element : LockElement) (s : State)
    : State :=
  let s1 := with_pointerLocked (isCanvas element) s in
  if isNoElement element then stopAutoFire s1 else s1.

(** One run of the auto-fire interval callback, if the interval is set. *)
Definition autoFireTick (s : State) : State :=
  if fireIntervalRef s then fire s else s.

(** ** The frame callback *)

Definition frontVector (yw : R) : vec3 :=
  Vector3.applyEuler (Vector3.mk 0 0 (-1)) (mkEuler 0 yw 0).

Definition sideVector (yw : R) : vec3 :=
  Vector3.applyEuler (Vector3.mk (-1) 0 0) (mkEuler 0 yw 0).

(** The sum of the contributions of the held keys (lines 237-241). *)
Definition desiredDirection (k : KeyState) (yw : R) : vec3 :=
  let direction := Vector3.zero in
  let direction :=
    if forward k then Vector3.add direction (frontVector yw) else direction in
  let direction :=
    if backward k then Vector3.sub direction (frontVector yw) else direction in
  let direction :=
    if left k then Vector3.add direction (sideVector yw) else direction in
  let direction :=
    if right k then Vector3.sub direction (sideVector yw) else direction in
  direction.

(** Normalised and scaled to the move speed when not zero (lines 243-247). *)
Definition moveVelocity (k : KeyState) (yw : R) : vec3 :=
  let direction := desiredDirection k yw in
  let lengthSq := Vector3.lengthSq direction in
  let desiredSpeed := if Rlt_b 0 lengthSq then MOVE_SPEED else 0 in
  if Rlt_b 0 lengthSq
  then Vector3.multiplyScalar (Vector3.normalize direction) desiredSpeed
  else direction.

(** The velocity handed to [setLinvel] (lines 249-257). *)
Definition writtenVelocity (k : KeyState) (yw : R) (currentVelocity : vec3)
    : vec3 :=
  let direction := moveVelocity k yw in
  Vector3.mk (Vector3.x direction) (Vector3.y currentVelocity)
    (Vector3.z direction).

Definition gunSwayTarget (currentVelocity : vec3) : vec3 :=
  Vector3.multiplyScalar
    (Vector3.mk (- Vector3.x currentVelocity) 0 (- Vector3.z currentVelocity))
    GUN_SWAY_INTENSITY.

Definition lerpFactor (delta : R) : R := 1 - exp (- GUN_SWAY_SMOOTHING * delta).

(** Lines 261-263. *)
Definition swayUpdate (currentVelocity : vec3) (delta : R) (sway : vec3)
    : vec3 :=
  Vector3.lerp sway (gunSwayTarget currentVelocity) (lerpFactor delta).

(** The condition of line 272. *)
Definition jumpFires (s : State) (currentVelocity : vec3) : bool :=
  jumpRequested s && (0 <? contactCount s)%Z
  && Rlt_b (Rabs (Vector3.y currentVelocity)) 0.2.

Definition frameCalls (s : State) (body : RigidBody) : list BodyCall :=
  let currentVelocity := linvel body in
  [SetLinvel (writtenVelocity (keyState s) (yaw s) currentVelocity);
   SetAngvel (Vector3.mk 0 0 0)]
  ++ (if jumpFires s currentVelocity
      then [ApplyImpulse (Vector3.mk 0 JUMP_IMPULSE 0)]
      else []).

Definition useFrame (delta : R) (s : State) : State * list BodyCall :=
  match bodyRef s with
  | None => (s, [])
  | Some body =>
      let tr := translation body in
      let cam :=
        mkPose
          (Vector3.mk (Vector3.x tr) (Vector3.y tr + CAMERA_HEIGHT)
             (Vector3.z tr))
          (mkEuler (pitch s) (yaw s) 0) in
      let currentVelocity := linvel body in
      let calls := frameCalls s body in
      let sway :=
        match gunRef s with
        | Some _ => swayUpdate currentVelocity delta (gunSway s)
        | None => gunSway s
        end in
      let gun :=
        match gunRef s with
        | Some _ =>
            let gunOffsetWorld :=
              Vector3.applyEuler (Vector3.add GUN_POSITION_OFFSET sway)
                (quaternion cam) in
            Some (mkPose (Vector3.add (position cam) gunOffsetWorld)
                    (quaternion cam))
        | None => None
        end in
      (mkState (keyState s) (pointerLocked s)
         (Some (fold_left applyCall calls body))
         (yaw s) (pitch s) cam (contactCount s) false gun sway
         (fireIntervalRef s) (projectileIdRef s) (projectiles s) (clock s)
         (timeouts s),
       calls)
  end.

(** ** Events *)

(** What can happen to a mounted controller.  [SetBody] is the physics
    runtime attaching, moving or detaching the body between frames;
    [SetGun] is the mount node appearing or going away. *)
Inductive Event :=
| KeyDown (code : string) (repeat : bool)
| KeyUp (code : string)
| PointerLockChange (element : LockElement)
| PointerMove (movementX movementY : R)
| PointerDown (button : Z) (onCanvas : bool)
| PointerUp (button : Z)
| PointerCancel
| PointerLeave
| AutoFireTick
| CollisionEnter
| CollisionExit
| SetBody (b : option RigidBody)
| SetGun (g : option Pose)
| Frame (delta : R)
| Elapse (dt : N).

Definition step (invertY : bool) (s : State) (e : Event)
    : State * list BodyCall :=
  match e with
  | KeyDown code repeat => (onKeyDown code repeat s, [])
  | KeyUp code => (onKeyUp code s, [])
  | PointerLockChange element => (handlePointerLockChange element s, [])
  | PointerMove mx my => (handlePointerMove invertY mx my s, [])
  | PointerDown button onCanvas => (handlePointerDown button onCanvas s, [])
  | PointerUp button => (handlePointerUp button s, [])
  | PointerCancel => (stopAutoFire s, [])
  | PointerLeave => (stopAutoFire s, [])
  | AutoFireTick => (autoFireTick s, [])
  | CollisionEnter => (with_contactCount (contactCount s + 1)%Z s, [])
  | CollisionExit =>
      (with_contactCount (Z.max 0 (contactCount s - 1))%Z s, [])
  | SetBody b => (with_bodyRef b s, [])
  | SetGun g => (with_gunRef g s, [])
  | Frame delta => useFrame delta s
  | Elapse dt => (elapse dt s, [])
  end.

(** A trace of events; the calls on the body are collected in order. *)
Fixpoint run (invertY : bool) (s : State) (es : list Event)
    : State * list BodyCall :=
  match es with
  | [] => (s, [])
  | e :: es' =>
      let (s1, c1) := step invertY s e in
      let (s2, c2) := run invertY s1 es' in
      (s2, c1 ++ c2)
  end.

Definition isImpulse (c : BodyCall) : bool :=
  match c with ApplyImpulse _ => true | _ => false end.

Definition impulseCount (cs : list BodyCall) : nat :=
  List.length (filter isImpulse cs).

(** ** SceneryCluster.tsx: the seeded generator and the placements *)

(** The 32-bit integer operators of JavaScript on integer-valued numbers. *)
Module Int32.

Definition two32 : Z := 4294967296%Z.

Definition ToUint32 (v : Z) : Z := (v mod two32)%Z.

Definition ToInt32 (v : Z) : Z :=
  let u := (v mod two32)%Z in
  if (u <? 2147483648)%Z then u else (u - two32)%Z.

(** [a ^ b] *)
Definition xor (a b : Z) : Z := Z.lxor (ToInt32 a) (ToInt32 b).
(** [a | b] *)
Definition or (a b : Z) : Z := Z.lor (ToInt32 a) (ToInt32 b).
(** [a >>> n] for a constant [n] below 32 *)
Definition ushr (a n : Z) : Z := Z.shiftr (ToUint32 a) n.
(** [Math.imul(a, b)] *)
Definition imul (a b : Z) : Z := ToInt32 (ToInt32 a * ToInt32 b)%Z.

End Int32.

Module Mulberry32.

Definition increment : Z := 0x6d2b79f5%Z.

(** [mulberry32(seed)]: the state the returned closure starts from.  A
    seed with a fraction is truncated by [>>> 0]; the model takes the
    integer. *)
Definition mulberry32 (seed : Z) : Z := Int32.ToUint32 seed.

(** The double nearest to an integer that is not negative, ties to even.
    Every integer below 2^53 is a double; from 2^53 on the doubles are the
    multiples of [ulp], the power of two 52 places below the leading bit. *)
Definition roundMagnitude (m : Z) : Z :=
  if (m <? 2 ^ 53)%Z then m
  else
    let ulp := (2 ^ (Z.log2 m - 52))%Z in
    let q := (m / ulp)%Z in
    let r := (m mod ulp)%Z in
    if (2 * r <? ulp)%Z then (q * ulp)%Z
    else if (ulp <? 2 * r)%Z then ((q + 1) * ulp)%Z
    else if Z.even q then (q * ulp)%Z else ((q + 1) * ulp)%Z.

Definition roundDouble (m : Z) : Z := (Z.sgn m * roundMagnitude (Z.abs m))%Z.

(** [a + b] on two numbers that hold integers: the exact sum, rounded to a
    double. *)
Definition addNumbers (a b : Z) : Z := roundDouble (a + b).

(** One call of the closure: the new state and the 32-bit numerator of
    the result.  [state += 0x6d2b79f5] is an addition of numbers: it does
    not wrap, and past 2^53 it rounds. *)
Definition next (state : Z) : Z * Z :=
  let state := addNumbers state increment in
  let t := state in
  let t := Int32.imul (Int32.xor t (Int32.ushr t 15)) (Int32.or t 1) in
  let t :=
    Int32.xor t
      (addNumbers t
         (Int32.imul (Int32.xor t (Int32.ushr t 7)) (Int32.or t 61))) in
  (state, Int32.ToUint32 (Int32.xor t (Int32.ushr t 14))).

(** The number the closure returns: the numerator over 2^32. *)
Definition random (state : Z) : Z * R :=
  let (state', k) := next state in (state', IZR k / 4294967296).

(** The state of a generator made from [seed] after [k] calls. *)
Definition stateAfter (seed : Z) (k : nat) : Z :=
  Nat.iter k (fun state => fst (next state)) (mulberry32 seed).

(** The [k]-th result (from 0) of a generator made from [seed], as a
    function of the seed alone. *)
Definition draw (seed : Z) (k : nat) : R :=
  snd (random (stateAfter seed k)).

End Mulberry32.

Module SceneryCluster.

Definition TAU : R := PI * 2.

(** [center] is a pair (x, z) or a triple (x, y, z). *)
Inductive Center :=
| Center2 (cx cz : R)
| Center3 (cx cy cz : R).

Definition centerX (c : Center) : R :=
  match c with Center2 cx _ => cx | Center3 cx _ _ => cx end.

Definition centerZ (c : Center) : R :=
  match c with Center2 _ cz => cz | Center3 _ _ cz => cz end.

Record Placement := mkPlacement {
  key : string;
  position : vec3;
  rotation : vec3
}.

(** How a template literal writes an array index: its decimal digits (an
    index is an integer below 2^32, far from the exponent notation). *)
Definition indexToString (index : nat) : string :=
  DecimalString.NilEmpty.string_of_uint (Nat.to_uint index).

(** The template [`${componentName}-${index}`]. *)
Definition keyOf (componentName : string) (index : nat) : string :=
  (componentName ++ "-" ++ indexToString index)%string.

Definition normalizedCount (count : R) : Z := Z.max 0 (Zfloor count).

Definition clampedRadius (radius : R) : R := Rmax 0 radius.

Definition maxRayHeight : R := 200.

Section Scene.

(** The scene graph in traversal order, the ground marker of a node and
    the raycaster: the hits of a ray (origin, direction, far) on a list
    of nodes, nearest first. *)
Variable Object3D : Type.
Variable isGround : Object3D -> bool.
Variable intersectObjects :
  list Object3D -> vec3 -> vec3 -> R -> list vec3.

Definition groundHeight (groundMeshes : list Object3D)
    (positionX positionZ : R) : R :=
  match groundMeshes with
  | [] => 0
  | _ :: _ =>
      match
        intersectObjects groundMeshes
          (Vector3.mk positionX maxRayHeight positionZ)
          (Vector3.mk 0 (-1) 0) (maxRayHeight * 2)
      with
      | hit :: _ => Vector3.y hit
      | [] => 0
      end
  end.

(** The callback of [Array.from] for one index: three calls of the
    generator, then the position and the rotation. *)
Definition placeOne (componentName : string) (center : Center)
    (radius : R) (groundMeshes : list Object3D) (index : nat)
    (state : Z) : Placement * Z :=
  let (state1, r1) := Mulberry32.random state in
  let angle := r1 * TAU in
  let (state2, r2) := Mulberry32.random state1 in
  let distance := sqrt r2 * radius in
  let (state3, r3) := Mulberry32.random state2 in
  let yaw := r3 * TAU in
  let positionX := centerX center + cos angle * distance in
  let positionZ := centerZ center + sin angle * distance in
  let positionY := groundHeight groundMeshes positionX positionZ in
  (mkPlacement (keyOf componentName index)
     (Vector3.mk positionX positionY positionZ)
     (Vector3.mk 0 yaw 0),
   state3).

(** [Array.from({ length: n }, callback)] from [index] on, with the
    state of the generator threaded through the calls. *)
Fixpoint placeFrom (componentName : string) (center : Center)
    (radius : R) (groundMeshes : list Object3D) (n index : nat)
    (state : Z) : list Placement * Z :=
  match n with
  | O => ([], state)
  | S n' =>
      let (p, state1) :=
        placeOne componentName center radius groundMeshes index state in
      let (ps, state2) :=
        placeFrom componentName center radius groundMeshes n' (S index)
          state1 in
      (p :: ps, state2)
  end.

(** The [useMemo] body of [SceneryCluster]. *)
Definition placements (componentName : string) (center : Center)
    (count radius : R) (seed : Z) (scene : list Object3D)
    : list Placement :=
  if (normalizedCount count =? 0)%Z then []
  else
    let random := Mulberry32.mulberry32 seed in
    let groundMeshes := filter isGround scene in
    fst (placeFrom componentName center (clampedRadius radius)
           groundMeshes (Z.to_nat (normalizedCount count)) 0 random).

(** The placement of index [i] written with the draws it consumes. *)
Definition placementAt (componentName : string) (center : Center)
    (radius : R) (seed : Z) (scene : list Object3D) (i : nat)
    : Placement :=
  let angle := Mulberry32.draw seed (3 * i) * TAU in
  let distance :=
    sqrt (Mulberry32.draw seed (3 * i + 1)) * clampedRadius radius in
  let yaw := Mulberry32.draw seed (3 * i + 2) * TAU in
  let positionX := centerX center + cos angle * distance in
  let positionZ := centerZ center + sin angle * distance in
  mkPlacement (keyOf componentName i)
    (Vector3.mk positionX
       (groundHeight (filter isGround scene) positionX positionZ)
       positionZ)
    (Vector3.mk 0 yaw 0).

End Scene.

End SceneryCluster.

(** ** Vocabulary of the properties *)

(** Two states agree on everything but the projectile list, the id
    counter, the clock and the timeout queue. *)
Definition sameControls (s s' : State) : Prop :=
  keyState s' = keyState s /\ pointerLocked s' = pointerLocked s /\
  bodyRef s' = bodyRef s /\ yaw s' = yaw s /\ pitch s' = pitch s /\
  camera s' = camera s /\ contactCount s' = contactCount s /\
  jumpRequested s' = jumpRequested s /\ gunRef s' = gunRef s /\
  gunSway s' = gunSway s /\ fireIntervalRef s' = fireIntervalRef s.

Definition pointerMoves (ms : list (R * R)) : list Event :=
  map (fun m => PointerMove (fst m) (snd m)) ms.

(** The change of the stored pitch at each event of a run of pointer
    moves. *)
Fixpoint pitchChanges (invertY : bool) (s : State) (ms : list (R * R))
    : list R :=
  match ms with
  | [] => []
  | m :: ms' =>
      let s1 := handlePointerMove invertY (fst m) (snd m) s in
      (pitch s1 - pitch s) :: pitchChanges invertY s1 ms'
  end.

(** Two states that agree on the lock and the yaw and carry opposite
    pitches. *)
Definition mirrored (s1 s2 : State) : Prop :=
  pointerLocked s1 = pointerLocked s2 /\ yaw s1 = yaw s2 /\
  pitch s1 = - pitch s2.

(** A key-down of Space that is not a repeat. *)
Definition isSpaceDown (e : Event) : bool :=
  match e with
  | KeyDown code repeat => negb repeat && String.eqb code "Space"
  | _ => false
  end.

Definition spaceDowns (es : list Event) : nat :=
  List.length (filter isSpaceDown es).

Definition b2r (b : bool) : R := if b then 1 else 0.

(** Forward minus backward, and left minus right, as numbers. *)
Definition axisFront (k : KeyState) : R := b2r (forward k) - b2r (backward k).
Definition axisSide (k : KeyState) : R := b2r (left k) - b2r (right k).

(** Some movement key is held without its opposite. *)
Definition moving (k : KeyState) : bool :=
  xorb (forward k) (backward k) || xorb (left k) (right k).

(** The world axes: forward is -Z, right is +X, left is -X. *)
Definition worldForward : vec3 := Vector3.mk 0 0 (-1).
Definition worldRight : vec3 := Vector3.mk 1 0 0.
Definition worldLeft : vec3 := Vector3.mk (-1) 0 0.

Definition linvelWrites (cs : list BodyCall) : list vec3 :=
  flat_map (fun c => match c with SetLinvel v => [v] | _ => [] end) cs.

(** Input that steers in the plane only: no Space key, and the physics
    runtime does not touch the body in between. *)
Definition horizontalOnly (e : Event) : bool :=
  match e with
  | KeyDown code _ => negb (String.eqb code "Space")
  | KeyUp code => negb (String.eqb code "Space")
  | SetBody _ => false
  | _ => true
  end.

(** [n] frames of the same step [dt] under the same velocity. *)
Fixpoint swaySteps (v : vec3) (dt : R) (n : nat) (sway : vec3) : vec3 :=
  match n with
  | O => sway
  | S n' => swaySteps v dt n' (swayUpdate v dt sway)
  end.

(** The largest componentwise distance of two vectors stays below [eps]. *)
Definition within (eps : R) (a b : vec3) : Prop :=
  Rabs (Vector3.x a - Vector3.x b) < eps /\
  Rabs (Vector3.y a - Vector3.y b) < eps /\
  Rabs (Vector3.z a - Vector3.z b) < eps.

(** What the projectile subsystem owns: the id counter, the collection, the
    clock and the pending timeouts. *)
Definition projView (s : State)
    : N * list ProjectileInstance * N * list (N * N) :=
  (projectileIdRef s, projectiles s, clock s, timeouts s).

(** The collection and the timeout queue list the same ids in the same
    order, no id twice, every id below the counter, every timeout in the
    future. *)
Definition wellFormed (s : State) : Prop :=
  map id (projectiles s) = map snd (timeouts s) /\
  NoDup (map snd (timeouts s)) /\
  Forall (fun t => (snd t < projectileIdRef s)%N /\ (clock s < fst t)%N)
    (timeouts s).

(** The projectile [id0] has exactly the timeout due at [due0], and that
    timeout is pending as long as the clock is before [due0]. *)
Definition tracks (id0 due0 : N) (s : State) : Prop :=
  (id0 < projectileIdRef s)%N /\
  (forall t, In t (timeouts s) -> snd t = id0 -> fst t = due0) /\
  ((clock s < due0)%N -> In (due0, id0) (timeouts s)).

(** The ids a list of timeouts expires. *)
Definition expires (l : list (N * N)) (p : ProjectileInstance) : bool :=
  existsb (N.eqb (id p)) (map snd l).

Definition poseOf (p : SceneryCluster.Placement) : vec3 * vec3 :=
  (SceneryCluster.position p, SceneryCluster.rotation p).

(** ** Vocabulary of the further properties *)

(** The key codes the keyboard handlers know. *)
Definition recognized (code : string) : bool :=
  String.eqb code "KeyW" || String.eqb code "KeyS" || String.eqb code "KeyA"
  || String.eqb code "KeyD" || String.eqb code "Space".

(** The sum of the horizontal deltas of a run of pointer moves. *)
Definition sumMovementX (ms : list (R * R)) : R :=
  fold_right (fun m acc => fst m + acc) 0 ms.

(** The events that end auto-fire. *)
Definition stopsAutoFire (e : Event) : bool :=
  match e with
  | PointerUp button => (button =? 0)%Z
  | PointerCancel | PointerLeave => true
  | PointerLockChange element => isNoElement element
  | _ => false
  end.

(** A pointer-down the handler acts on: primary button, and either the
    pointer is locked or the press landed on the canvas. *)
Definition acceptedPress (s : State) (button : Z) (onCanvas : bool) : bool :=
  (button =? 0)%Z && (pointerLocked s || onCanvas).

(** Anything but the physics runtime replacing the body handle. *)
Definition keepsBody (e : Event) : bool :=
  match e with SetBody _ => false | _ => true end.

(** A projectile flies along a unit direction at the projectile speed. *)
Definition fliesAtSpeed (p : ProjectileInstance) : Prop :=
  Vector3.length (direction p) = 1 /\
  Vector3.length (projectileVelocity p) = 30.

(** A placement lies in the disk of radius [r] around the center, and its
    rotation is a turn about the vertical axis by an angle in [0, 2 PI). *)
Definition insideDisk (center : SceneryCluster.Center) (r : R)
    (p : SceneryCluster.Placement) : Prop :=
  let dx := Vector3.x (SceneryCluster.position p)
            - SceneryCluster.centerX center in
  let dz := Vector3.z (SceneryCluster.position p)
            - SceneryCluster.centerZ center in
  dx * dx + dz * dz <= r * r.

Definition yawOnly (p : SceneryCluster.Placement) : Prop :=
  Vector3.x (SceneryCluster.rotation p) = 0 /\
  Vector3.z (SceneryCluster.rotation p) = 0 /\
  0 <= Vector3.y (SceneryCluster.rotation p) < 2 * PI.

(** The state of a generator that wraps its state to 32 bits after every
    addition, after [k] calls. *)
Fixpoint wrappedState (seed : Z) (k : nat) : Z :=
  match k with
  | O => Int32.ToUint32 seed
  | S k' => Int32.ToUint32 (wrappedState seed k' + Mulberry32.increment)
  end.

(** ** SceneryCluster.tsx: the collider of a scenery instance *)

(** The axis-aligned box of three.js, as far as [SceneryInstance] uses it.
    [None] is the empty box that [new Box3()] makes (min +Infinity, max
    -Infinity): a union with it changes nothing. *)
Module Box3.

Definition t : Type := option (vec3 * vec3).

Definition vmin (a b : vec3) : vec3 :=
  Vector3.mk (Rmin (Vector3.x a) (Vector3.x b))
             (Rmin (Vector3.y a) (Vector3.y b))
             (Rmin (Vector3.z a) (Vector3.z b)).

Definition vmax (a b : vec3) : vec3 :=
  Vector3.mk (Rmax (Vector3.x a) (Vector3.x b))
             (Rmax (Vector3.y a) (Vector3.y b))
             (Rmax (Vector3.z a) (Vector3.z b)).

Definition union (a b : t) : t :=
  match a, b with
  | None, _ => b
  | _, None => a
  | Some (lo1, hi1), Some (lo2, hi2) => Some (vmin lo1 lo2, vmax hi1 hi2)
  end.

(** [isEmpty]: the max is below the min on some axis. *)
Definition isEmpty (a : t) : bool :=
  match a with
  | None => true
  | Some (lo, hi) =>
      Rlt_b (Vector3.x hi) (Vector3.x lo)
      || Rlt_b (Vector3.y hi) (Vector3.y lo)
      || Rlt_b (Vector3.z hi) (Vector3.z lo)
  end.

Definition getSize (a : t) : vec3 :=
  match a with
  | Some (lo, hi) => if isEmpty a then Vector3.zero else Vector3.sub hi lo
  | None => Vector3.zero
  end.

Definition getCenter (a : t) : vec3 :=
  match a with
  | Some (lo, hi) =>
      if isEmpty a then Vector3.zero
      else Vector3.multiplyScalar (Vector3.add lo hi) 0.5
  | None => Vector3.zero
  end.

End Box3.

Module SceneryInstance.

(** A node met by [root.traverse]: whether it is a mesh, its shadow flags,
    and, for a mesh, the bounding box of its geometry carried into the
    frame of the root by the two [applyMatrix4] calls; [None] when the
    geometry has no bounding box even after [computeBoundingBox]. *)
Record Child := mkChild {
  isMesh : bool;
  castShadow : bool;
  receiveShadow : bool;
  rootBounds : option Box3.t
}.

Record Collider := mkCollider {
  halfExtents : vec3;
  center : vec3
}.

(** The callback of [root.traverse] on one node: the nodes seen so far with
    their flags, and the bounds so far. *)
Definition visit (cast receive : bool) (acc : list Child * Box3.t)
    (child : Child) : list Child * Box3.t :=
  let (seen, bounds) := acc in
  if isMesh child then
    let mesh := mkChild true cast receive (rootBounds child) in
    match rootBounds child with
    | None => (seen ++ [mesh], bounds)
    | Some worldBounds => (seen ++ [mesh], Box3.union bounds worldBounds)
    end
  else (seen ++ [child], bounds).

(** [handleGroupRef]: with no root nothing happens; otherwise every mesh
    gets the shadow flags and the collider state is set from the union of
    the mesh bounds when that union is not empty. *)
Definition handleGroupRef (cast receive : bool) (root : option (list Child))
    (collider : option Collider) : option (list Child) * option Collider :=
  match root with
  | None => (None, collider)
  | Some children =>
      let (seen, bounds) := fold_left (visit cast receive) children ([], None) in
      if negb (Box3.isEmpty bounds) then
        let size := Box3.getSize bounds in
        let c := Box3.getCenter bounds in
        (Some seen,
         Some (mkCollider
                 (Vector3.mk (Vector3.x size / 2) (Vector3.y size / 2)
                    (Vector3.z size / 2))
                 c))
      else (Some seen, collider)
  end.

End SceneryInstance.

(** What the traversal does to the flags of one node. *)
Definition withShadows (cast receive : bool) (child : SceneryInstance.Child)
    : SceneryInstance.Child :=
  if SceneryInstance.isMesh child
  then SceneryInstance.mkChild true cast receive
         (SceneryInstance.rootBounds child)
  else child.

(** Componentwise order of vectors. *)
Definition vle (a b : vec3) : Prop :=
  Vector3.x a <= Vector3.x b /\ Vector3.y a <= Vector3.y b /\
  Vector3.z a <= Vector3.z b.

(** The box [lo .. hi] lies in the cuboid of a collider. *)
Definition encloses (c : SceneryInstance.Collider) (lo hi : vec3) : Prop :=
  vle (Vector3.sub (SceneryInstance.center c) (SceneryInstance.halfExtents c))
      lo /\
  vle hi
      (Vector3.add (SceneryInstance.center c) (SceneryInstance.halfExtents c)).

(** A mesh with a bounding box that is not the empty one. *)
Definition hasBounds (child : SceneryInstance.Child) : bool :=
  SceneryInstance.isMesh child
  && match SceneryInstance.rootBounds child with
     | Some (Some _) => true
     | _ => false
     end.

(** ** scripts/transform-nature.ts: the naming of the generated assets *)

(** Strings are lists of characters.  The two functions treat every
    character outside [a-zA-Z0-9] alike and change the case of characters
    inside that class only, so the case mappings are the ASCII ones. *)
Module TransformNature.

Definition code (c : ascii) : N := N_of_ascii c.

Definition isDigit (c : ascii) : bool := (48 <=? code c)%N && (code c <=? 57)%N.
Definition isUpper (c : ascii) : bool := (65 <=? code c)%N && (code c <=? 90)%N.
Definition isLower (c : ascii) : bool := (97 <=? code c)%N && (code c <=? 122)%N.

(** The class [a-zA-Z0-9]. *)
Definition isAlnum (c : ascii) : bool := isLower c || isUpper c || isDigit c.

(** The class [\s], on the characters below 128. *)
Definition isWhite (c : ascii) : bool :=
  (9 <=? code c)%N && (code c <=? 13)%N || (code c =? 32)%N.

Definition toLower (c : ascii) : ascii :=
  if isUpper c then ascii_of_N (code c + 32) else c.

Definition toUpper (c : ascii) : ascii :=
  if isLower c then ascii_of_N (code c - 32) else c.

Definition dash : ascii := "-"%char.
Definition space : ascii := " "%char.

Definition isDash (c : ascii) : bool := Ascii.eqb c dash.

(** [value.replace(/[^a-zA-Z0-9]+/g, sep)]: every maximal run of characters
    outside the class becomes one [sep]; [inRun] tells that the previous
    character was in such a run. *)
Fixpoint replaceNonAlnum (sep : ascii) (inRun : bool) (value : list ascii)
    : list ascii :=
  match value with
  | [] => []
  | c :: rest =>
      if isAlnum c then c :: replaceNonAlnum sep false rest
      else if inRun then replaceNonAlnum sep true rest
      else sep :: replaceNonAlnum sep true rest
  end.

(** [value.replace(/-{2,}/g, '-')] *)
Fixpoint collapseDashes (inRun : bool) (value : list ascii) : list ascii :=
  match value with
  | [] => []
  | c :: rest =>
      if isDash c then
        if inRun then collapseDashes true rest
        else c :: collapseDashes true rest
      else c :: collapseDashes false rest
  end.

Definition stripLeadingDash (value : list ascii) : list ascii :=
  match value with
  | c :: rest => if isDash c then rest else value
  | [] => []
  end.

Fixpoint stripTrailingDash (value : list ascii) : list ascii :=
  match value with
  | [] => []
  | [c] => if isDash c then [] else [c]
  | c :: rest => c :: stripTrailingDash rest
  end.

(** [value.replace(/^-|-$/g, '')]: a dash at the start goes, and a dash at
    the end of what is left goes. *)
Definition stripEnds (value : list ascii) : list ascii :=
  stripTrailingDash (stripLeadingDash value).

Definition toLowerCase (value : list ascii) : list ascii := map toLower value.

Definition toKebabCase (value : list ascii) : list ascii :=
  toLowerCase
    (stripEnds (collapseDashes false (replaceNonAlnum dash false value))).

Fixpoint trimStart (value : list ascii) : list ascii :=
  match value with
  | c :: rest => if isWhite c then trimStart rest else value
  | [] => []
  end.

Definition trimEnd (value : list ascii) : list ascii :=
  rev (trimStart (rev value)).

Definition trim (value : list ascii) : list ascii := trimEnd (trimStart value).

(** [value.split(/\s+/)]: [current] is the piece being read, last character
    first; [inSeparator] tells that the previous character was white. *)
Fixpoint splitWhite (current : list ascii) (inSeparator : bool)
    (value : list ascii) : list (list ascii) :=
  match value with
  | [] => [rev current]
  | c :: rest =>
      if isWhite c then
        if inSeparator then splitWhite [] true rest
        else rev current :: splitWhite [] true rest
      else splitWhite (c :: current) false rest
  end.

Definition split (value : list ascii) : list (list ascii) :=
  splitWhite [] false value.

(** [Boolean(segment)]: the segment is not the empty string. *)
Definition nonEmpty (segment : list ascii) : bool :=
  match segment with [] => false | _ => true end.

(** [segment.charAt(0).toUpperCase() + segment.slice(1)] *)
Definition capitalize (segment : list ascii) : list ascii :=
  match segment with
  | [] => []
  | c :: rest => toUpper c :: rest
  end.

Definition toPascalCase (value : list ascii) : list ascii :=
  List.concat
    (map capitalize
       (filter nonEmpty (split (trim (replaceNonAlnum space false value))))).

End TransformNature.

(** [value] has no dash at its start when [afterDash] holds, and no two
    dashes in a row. *)
Fixpoint noDashRun (afterDash : bool) (value : list ascii) : bool :=
  match value with
  | [] => true
  | c :: rest =>
      if TransformNature.isDash c then negb afterDash && noDashRun true rest
      else noDashRun false rest
  end.

Fixpoint endsWithDash (value : list ascii) : bool :=
  match value with
  | [] => false
  | [c] => TransformNature.isDash c
  | _ :: rest => endsWithDash rest
  end.

(** Lower-case letters, digits and dashes; no dash first or last; no two
    dashes in a row. *)
Definition isKebab (value : list ascii) : bool :=
  forallb (fun c => TransformNature.isLower c || TransformNature.isDigit c
                    || TransformNature.isDash c) value
  && noDashRun true value && negb (endsWithDash value).

(** Letters and digits only, and not a lower-case letter first. *)
Definition isPascal (value : list ascii) : bool :=
  forallb TransformNature.isAlnum value
  && match value with
     | c :: _ => negb (TransformNature.isLower c)
     | [] => true
     end.

Definition notWhite (c : ascii) : bool := negb (TransformNature.isWhite c).

(** ** scripts/transform-nature.ts: the run over the model files *)

Module TransformScript.

Definition str : Type := list ascii.

Record CliOptions := mkCliOptions {
  inputDir : str;
  outputDir : str;
  force : bool;
  dryRun : bool
}.

Record TransformTarget := mkTarget {
  inputPath : str;
  sourceName : str;
  slug : str;
  componentName : str;
  outputBase : str;
  outputTsxPath : str
}.

(** A directory entry of [readdir(..., { withFileTypes: true })]. *)
Record Dirent := mkDirent {
  name : str;
  isFile : bool
}.

Definition GLTFJSX_VERSION : str := list_ascii_of_string "6.5.3".

(** How the child process of [spawn] ends: the 'error' event, or the 'exit'
    event with its code and signal. *)
Inductive ChildOutcome (HostError : Type) :=
| ChildError (e : HostError)
| ChildExit (exitCode : option Z) (signal : option str).

Arguments ChildError {HostError} e.
Arguments ChildExit {HostError} exitCode signal.

(** What a promise of the script rejects with. *)
Inductive Rejection (HostError : Type) :=
| Host (e : HostError)
| ExitedDueToSignal (signal : str) (path : str)
| ExitedWithCode (exitCode : option Z) (path : str).

Arguments Host {HostError} e.
Arguments ExitedDueToSignal {HostError} signal path.
Arguments ExitedWithCode {HostError} exitCode path.

(** The lines the script writes to the console. *)
Inductive Line :=
| WarnNoGlb (dir : str)
| LogSkipping (sourceName : str)
| InfoCommand (dry : bool) (target : TransformTarget).

Section Host.

(** The file system and the process table the script runs against, with
    the node functions it calls.  The path functions are pure; [access]
    only looks. *)
Variable World : Type.
Variable HostError : Type.
Variable mkdir : str -> World -> World + HostError.
Variable readdir : str -> World -> list Dirent + HostError.
Variable access : str -> World -> bool.
Variable rename : str -> str -> World -> World + HostError.
Variable spawn : str -> list str -> World -> World * ChildOutcome HostError.
Variable extname : str -> str.
Variable basename : str -> str -> str.
Variable dirname : str -> str.
Variable join : str -> str -> str.
Variable resolve : str -> str -> str.
(** [Array.prototype.sort] with the [localeCompare] of the source names. *)
Variable sortBySourceName : list TransformTarget -> list TransformTarget.

Definition str_eqb (a b : str) : bool :=
  if list_eq_dec ascii_dec a b then true else false.

Definition pathExists (path : str) (w : World) : bool := access path w.

(** The filter of [collectTargets]. *)
Definition isGlb (entry : Dirent) : bool :=
  isFile entry
  && str_eqb (TransformNature.toLowerCase (extname (name entry)))
       (list_ascii_of_string ".glb").

(** The map callback of [collectTargets]. *)
Definition makeTarget (inDir outDir : str) (entry : Dirent)
    : TransformTarget :=
  let sourceName := basename (name entry) (extname (name entry)) in
  let slug := TransformNature.toKebabCase sourceName in
  let componentName := TransformNature.toPascalCase sourceName in
  let outputBase := join outDir slug in
  mkTarget (resolve inDir (name entry)) sourceName slug componentName
    outputBase (outputBase ++ list_ascii_of_string ".tsx").

Definition collectTargets (inDir outDir : str) (w : World)
    : list TransformTarget + HostError :=
  match readdir inDir w with
  | inr e => inr e
  | inl entries =>
      inl (sortBySourceName (map (makeTarget inDir outDir)
                               (filter isGlb entries)))
  end.

Definition gltfjsxArgs (target : TransformTarget) : list str :=
  [list_ascii_of_string "--yes";
   list_ascii_of_string "gltfjsx@" ++ GLTFJSX_VERSION;
   inputPath target;
   list_ascii_of_string "--transform";
   list_ascii_of_string "--name";
   componentName target;
   list_ascii_of_string "-o";
   outputBase target].

Definition runGltfjsx (target : TransformTarget) (w : World)
    : World * option (Rejection HostError) :=
  let (w1, outcome) :=
    spawn (list_ascii_of_string "npx") (gltfjsxArgs target) w in
  match outcome with
  | ChildError e => (w1, Some (Host e))
  | ChildExit (Some 0%Z) _ => (w1, None)
  | ChildExit _ (Some signal) =>
      (w1, Some (ExitedDueToSignal signal (inputPath target)))
  | ChildExit exitCode None =>
      (w1, Some (ExitedWithCode exitCode (inputPath target)))
  end.

Definition transformedName (base : str) : str :=
  base ++ list_ascii_of_string "-transformed.glb".

Definition renameTransformedGlb (target : TransformTarget) (w : World)
    : World * option (Rejection HostError) :=
  let outputDirectory := dirname (outputBase target) in
  let originalGlb :=
    join outputDirectory (transformedName (sourceName target)) in
  let sluggedGlb := join outputDirectory (transformedName (slug target)) in
  if str_eqb originalGlb sluggedGlb || negb (pathExists originalGlb w)
  then (w, None)
  else
    match rename originalGlb sluggedGlb w with
    | inl w1 => (w1, None)
    | inr e => (w, Some (Host e))
    end.

(** What a run leaves behind: the world, the console lines in order, and
    the rejection of the promise of [main], if any. *)
Record Run := mkRun {
  world : World;
  console : list Line;
  rejected : option (Rejection HostError)
}.

(** The [for] loop of [main]. *)
Fixpoint transformAll (o : CliOptions) (targets : list TransformTarget)
    (w : World) (out : list Line) : Run :=
  match targets with
  | [] => mkRun w out None
  | target :: rest =>
      if negb (force o) && pathExists (outputTsxPath target) w then
        transformAll o rest w (out ++ [LogSkipping (sourceName target)])
      else
        let out1 := out ++ [InfoCommand (dryRun o) target] in
        if dryRun o then transformAll o rest w out1
        else
          match runGltfjsx target w with
          | (w1, Some r) => mkRun w1 out1 (Some r)
          | (w1, None) =>
              match renameTransformedGlb target w1 with
              | (w2, Some r) => mkRun w2 out1 (Some r)
              | (w2, None) => transformAll o rest w2 out1
              end
          end
  end.

Definition main (o : CliOptions) (w : World) : Run :=
  match mkdir (outputDir o) w with
  | inr e => mkRun w [] (Some (Host e))
  | inl w1 =>
      match collectTargets (inputDir o) (outputDir o) w1 with
      | inr e => mkRun w1 [] (Some (Host e))
      | inl [] => mkRun w1 [WarnNoGlb (inputDir o)] None
      | inl targets => transformAll o targets w1 []
      end
  end.

End Host.

End TransformScript.

(** The path a rejection of [runGltfjsx] names. *)
Definition rejectionPath {HostError : Type}
    (r : TransformScript.Rejection HostError) : option TransformScript.str :=
  match r with
  | TransformScript.Host _ => None
  | TransformScript.ExitedDueToSignal _ path => Some path
  | TransformScript.ExitedWithCode _ path => Some path
  end.

(** The target of the last command line on the console. *)
Definition lastCommand (out : list TransformScript.Line)
    : option TransformScript.TransformTarget :=
  match rev out with
  | TransformScript.InfoCommand _ target :: _ => Some target
  | _ => None
  end.

(** A console line of a run that touches nothing: a skip, or a command
    marked as dry. *)
Definition idleLine (l : TransformScript.Line) : bool :=
  match l with
  | TransformScript.LogSkipping _ => true
  | TransformScript.InfoCommand dry _ => dry
  | TransformScript.WarnNoGlb _ => false
  end.

Definition idleOrWarning (l : TransformScript.Line) : bool :=
  match l with
  | TransformScript.WarnNoGlb _ => true
  | _ => idleLine l
  end.

(** What [collectTargets] promises about one target. *)
Definition targetNamed (join : TransformScript.str -> TransformScript.str ->
                               TransformScript.str)
    (outDir : TransformScript.str) (t : TransformScript.TransformTarget)
    : Prop :=
  TransformScript.slug t
    = TransformNature.toKebabCase (TransformScript.sourceName t) /\
  TransformScript.componentName t
    = TransformNature.toPascalCase (TransformScript.sourceName t) /\
  isKebab (TransformScript.slug t) = true /\
  isPascal (TransformScript.componentName t) = true /\
  TransformScript.outputBase t = join outDir (TransformScript.slug t) /\
  TransformScript.outputTsxPath t
    = TransformScript.outputBase t ++ list_ascii_of_string ".tsx".

(** A small host to try the script on: one directory entry, nothing exists
    yet, every step succeeds and changes nothing. *)
Module DemoHost.

Definition entry : TransformScript.Dirent :=
  TransformScript.mkDirent (list_ascii_of_string "oak-tree.glb") true.

Definition mkdir (_ : TransformScript.str) (w : unit) : unit + unit := inl w.
Definition readdir (_ : TransformScript.str) (_ : unit)
    : list TransformScript.Dirent + unit := inl [entry].
Definition access (_ : TransformScript.str) (_ : unit) : bool := false.
Definition rename (_ _ : TransformScript.str) (w : unit) : unit + unit :=
  inl w.
Definition spawn (_ : TransformScript.str) (_ : list TransformScript.str)
    (w : unit) : unit * TransformScript.ChildOutcome unit :=
  (w, TransformScript.ChildExit (Some 1%Z) None).
Definition extname (_ : TransformScript.str) : TransformScript.str :=
  list_ascii_of_string ".glb".
Definition basename (_ _ : TransformScript.str) : TransformScript.str :=
  list_ascii_of_string "oak-tree".
Definition dirname (p : TransformScript.str) : TransformScript.str :=
  list_ascii_of_string "out".
Definition join (a b : TransformScript.str) : TransformScript.str :=
  a ++ list_ascii_of_string "/" ++ b.
Definition resolve (a b : TransformScript.str) : TransformScript.str :=
  a ++ list_ascii_of_string "/" ++ b.
Definition sortBySourceName (l : list TransformScript.TransformTarget)
    : list TransformScript.TransformTarget := l.

Definition options (dry : bool) : TransformScript.CliOptions :=
  TransformScript.mkCliOptions (list_ascii_of_string "in")
    (list_ascii_of_string "out") true dry.

Definition main (dry : bool) : TransformScript.Run unit unit :=
  TransformScript.main unit unit mkdir readdir access rename spawn extname
    basename dirname join resolve sortBySourceName (options dry) tt.

End DemoHost.

(** * Properties *)

(** ** Auxiliary facts *)

Lemma Rlt_b_true (a b : R) : Rlt_b a b = true <-> a < b.
Proof. unfold Rlt_b. destruct (Rlt_dec a b); split; intros; try easy. Qed.

Lemma Rlt_b_false (a b : R) : Rlt_b a b = false <-> b <= a.
Proof.
  unfold Rlt_b. destruct (Rlt_dec a b); split; intros; try easy; lra.
Qed.

Lemma MAX_PITCH_pos : 0 < MAX_PITCH.
Proof. unfold MAX_PITCH. pose proof PI2_3_2. lra. Qed.

Lemma clampPitch_bounds (p : R) : - MAX_PITCH <= clampPitch p <= MAX_PITCH.
Proof.
  unfold clampPitch. pose proof MAX_PITCH_pos as HM. split.
  - apply Rmax_l.
  - apply Rmax_lub; [lra | apply Rmin_l].
Qed.

Lemma clampPitch_opp (p : R) : clampPitch (- p) = - clampPitch p.
Proof.
  unfold clampPitch. pose proof MAX_PITCH_pos as HM.
  destruct (Rle_dec MAX_PITCH p) as [H1|H1];
    destruct (Rle_dec p (- MAX_PITCH)) as [H2|H2]; try lra.
  - rewrite (Rmin_left MAX_PITCH p), (Rmin_right MAX_PITCH (- p)) by lra.
    rewrite (Rmax_left (- MAX_PITCH) (- p)) by lra.
    rewrite (Rmax_right (- MAX_PITCH) MAX_PITCH) by lra. lra.
  - rewrite (Rmin_right MAX_PITCH p), (Rmin_left MAX_PITCH (- p)) by lra.
    rewrite (Rmax_left (- MAX_PITCH) p) by lra.
    rewrite (Rmax_right (- MAX_PITCH) MAX_PITCH) by lra. lra.
  - rewrite (Rmin_right MAX_PITCH p), (Rmin_right MAX_PITCH (- p)) by lra.
    rewrite (Rmax_right (- MAX_PITCH) p) by lra.
    rewrite (Rmax_right (- MAX_PITCH) (- p)) by lra. lra.
Qed.

Lemma clampPitch_id (p : R) :
  - MAX_PITCH <= p <= MAX_PITCH -> clampPitch p = p.
Proof.
  intros [H1 H2]. unfold clampPitch.
  rewrite (Rmin_right _ _ H2). now rewrite (Rmax_right _ _ H1).
Qed.

Lemma sameControls_refl (s : State) : sameControls s s.
Proof. repeat split. Qed.

Lemma sameControls_trans (s1 s2 s3 : State) :
  sameControls s1 s2 -> sameControls s2 s3 -> sameControls s1 s3.
Proof.
  unfold sameControls. intros H1 H2.
  decompose [and] H1. decompose [and] H2. repeat split; congruence.
Qed.

Lemma expire_fold_sameControls (l : list (N * N)) (s : State) :
  sameControls s
    (fold_left (fun st t => handleProjectileExpire (snd t) st) l s).
Proof.
  revert s. induction l as [|t l IH]; intros s; simpl.
  - apply sameControls_refl.
  - eapply sameControls_trans; [|apply IH]. repeat split.
Qed.

Lemma elapse_sameControls (dt : N) (s : State) : sameControls s (elapse dt s).
Proof.
  unfold elapse, runTimeouts.
  eapply sameControls_trans; [|apply expire_fold_sameControls]. repeat split.
Qed.

Lemma fire_sameControls (s : State) : sameControls s (fire s).
Proof. repeat split. Qed.

Ltac break_if :=
  match goal with
  | |- context [if ?c then _ else _] => destruct c eqn:?
  end.

Lemma run_app (invertY : bool) (s : State) (es1 es2 : list Event) :
  run invertY s (es1 ++ es2) =
  let (s1, c1) := run invertY s es1 in
  let (s2, c2) := run invertY s1 es2 in
  (s2, c1 ++ c2).
Proof.
  revert s. induction es1 as [|e es1 IH]; intros s; simpl.
  - destruct (run invertY s es2); reflexivity.
  - destruct (step invertY s e) as [s1 c1]. rewrite IH.
    destruct (run invertY s1 es1) as [s2 c2].
    destruct (run invertY s2 es2) as [s3 c3].
    now rewrite app_assoc.
Qed.

(** ** Mouse look *)

Lemma step_pitch (invertY : bool) (s : State) (e : Event) :
  pitch (fst (step invertY s e)) = pitch s \/
  exists p, pitch (fst (step invertY s e)) = clampPitch p.
Proof.
  destruct e; simpl;
    try (left; reflexivity);
    try (left; unfold onKeyDown, onKeyUp, handlePointerLockChange,
           handlePointerDown, handlePointerUp, autoFireTick;
         repeat break_if; reflexivity).
  - unfold handlePointerMove. break_if; [now left|]. right. eexists. reflexivity.
  - left. unfold useFrame. destruct (bodyRef s); reflexivity.
  - left. apply (elapse_sameControls dt s).
Qed.

Lemma run_pitch_bounded (invertY : bool) (es : list Event) (s : State) :
  - MAX_PITCH <= pitch s <= MAX_PITCH ->
  - MAX_PITCH <= pitch (fst (run invertY s es)) <= MAX_PITCH.
Proof.
  revert s. induction es as [|e es IH]; intros s Hs; simpl; [exact Hs|].
  destruct (step invertY s e) as [s1 c1] eqn:E1.
  specialize (IH s1).
  destruct (run invertY s1 es) as [s2 c2]. simpl in *. apply IH.
  destruct (step_pitch invertY s e) as [H|[p H]]; rewrite E1 in H; simpl in H;
    rewrite H; [exact Hs | apply clampPitch_bounds].
Qed.

(** C3.  From any state whose pitch is 0, whatever events follow (pointer
    moves with any deltas among them, locked or not), the stored pitch stays
    within [-(PI/2 - 0.05), PI/2 - 0.05] after every event; the yaw has no
    bound: for every [B] some pointer moves under pointer lock take it
    above [B] and some take it below [-B]. *)
Theorem pitch_clamp_invariant :
  (forall (invertY : bool) (s : State) (es : list Event),
      - MAX_PITCH <= pitch (fst (run invertY (with_look (yaw s) 0 s) es))
        <= MAX_PITCH) /\
  (forall (invertY : bool) (s : State) (B : R),
      exists ms1 ms2,
        B < yaw (fst (run invertY (with_pointerLocked true s)
                        (pointerMoves ms1))) /\
        yaw (fst (run invertY (with_pointerLocked true s)
                    (pointerMoves ms2))) < - B).
Proof.
  split.
  - intros invertY s es. apply run_pitch_bounded. simpl.
    pose proof MAX_PITCH_pos. lra.
  - intros invertY s B.
    exists [((yaw s - B - 1) / LOOK_SENSITIVITY, 0)],
           [((yaw s + B + 1) / LOOK_SENSITIVITY, 0)].
    simpl. unfold handlePointerMove. simpl.
    assert (HS : LOOK_SENSITIVITY <> 0) by (unfold LOOK_SENSITIVITY; lra).
    split.
    + replace ((yaw s - B - 1) / LOOK_SENSITIVITY * LOOK_SENSITIVITY)
        with (yaw s - B - 1) by (field; exact HS).
      lra.
    + replace ((yaw s + B + 1) / LOOK_SENSITIVITY * LOOK_SENSITIVITY)
        with (yaw s + B + 1) by (field; exact HS).
      lra.
Qed.

Lemma run_pointerMoves_cons (invertY : bool) (s : State) (m : R * R)
    (ms : list (R * R)) :
  fst (run invertY s (pointerMoves (m :: ms))) =
  fst (run invertY (handlePointerMove invertY (fst m) (snd m) s)
         (pointerMoves ms)).
Proof.
  simpl.
  destruct (run invertY (handlePointerMove invertY (fst m) (snd m) s)
              (pointerMoves ms)); reflexivity.
Qed.

Lemma handlePointerMove_mirrored (mx my : R) (s1 s2 : State) :
  mirrored s1 s2 ->
  mirrored (handlePointerMove true mx my s1)
           (handlePointerMove false mx my s2).
Proof.
  intros (HL & HY & HP). unfold handlePointerMove. rewrite HL.
  destruct (pointerLocked s2) eqn:E; simpl;
    [|repeat split; congruence].
  repeat split; simpl; [congruence | congruence |].
  rewrite <- clampPitch_opp. f_equal.
  unfold pitchDelta, invertFactor. rewrite HP. ring.
Qed.

Lemma look_mirrored (ms : list (R * R)) (s1 s2 : State) :
  mirrored s1 s2 ->
  mirrored (fst (run true s1 (pointerMoves ms)))
           (fst (run false s2 (pointerMoves ms))) /\
  pitchChanges true s1 ms = map Ropp (pitchChanges false s2 ms).
Proof.
  revert s1 s2. induction ms as [|m ms IH]; intros s1 s2 H.
  - simpl. split; [exact H | reflexivity].
  - rewrite !run_pointerMoves_cons.
    pose proof (handlePointerMove_mirrored (fst m) (snd m) s1 s2 H) as H1.
    destruct (IH _ _ H1) as [IH1 IH2]. split; [exact IH1|].
    simpl. rewrite IH2. f_equal.
    destruct H as (_ & _ & HP). destruct H1 as (_ & _ & HP1).
    rewrite HP, HP1. ring.
Qed.

Lemma look_yaw_same (ms : list (R * R)) (s1 s2 : State) :
  pointerLocked s1 = pointerLocked s2 -> yaw s1 = yaw s2 ->
  yaw (fst (run true s1 (pointerMoves ms))) =
  yaw (fst (run false s2 (pointerMoves ms))).
Proof.
  revert s1 s2. induction ms as [|m ms IH]; intros s1 s2 HL HY.
  - exact HY.
  - rewrite !run_pointerMoves_cons. apply IH.
    + unfold handlePointerMove. rewrite HL.
      destruct (pointerLocked s2) eqn:E; simpl; congruence.
    + unfold handlePointerMove. rewrite HL.
      destruct (pointerLocked s2) eqn:E; simpl; congruence.
Qed.

(** C8.  For one and the same sequence of pointer moves: the pitch deltas
    (what each event adds to the pitch before the clamp, movementY times the
    sensitivity times +1 with invertY and -1 without) are exact negations of
    each other; under pointer lock the handler stores the clamp of the old
    pitch plus that delta, with the same bounds and the same yaw update in
    both modes; the yaw after the sequence is the same in both modes from
    any common state; and from a state whose pitch is 0 the changes of the
    stored pitch are exact negations of each other as well. *)
Theorem invertY_symmetry :
  (forall ms : list (R * R),
      map (fun m => pitchDelta true (snd m)) ms =
      map Ropp (map (fun m => pitchDelta false (snd m)) ms)) /\
  (forall (invertY : bool) (movementY : R),
      pitchDelta invertY movementY =
      movementY * LOOK_SENSITIVITY * (if invertY then 1 else -1)) /\
  (forall (invertY : bool) (mx my : R) (s : State),
      let s0 := with_pointerLocked true s in
      handlePointerMove invertY mx my s0 =
      with_look (yaw s - mx * LOOK_SENSITIVITY)
        (Rmax (- MAX_PITCH)
           (Rmin MAX_PITCH (pitch s + pitchDelta invertY my))) s0) /\
  (forall (s : State) (ms : list (R * R)),
      yaw (fst (run true s (pointerMoves ms))) =
      yaw (fst (run false s (pointerMoves ms)))) /\
  (forall (s : State) (ms : list (R * R)),
      let s0 := with_look (yaw s) 0 s in
      pitchChanges true s0 ms = map Ropp (pitchChanges false s0 ms) /\
      pitch (fst (run true s0 (pointerMoves ms))) =
      - pitch (fst (run false s0 (pointerMoves ms)))).
Proof.
  split; [|split; [|split; [|split]]].
  - intros ms. rewrite map_map. apply map_ext. intros m.
    unfold pitchDelta, invertFactor. ring.
  - intros [] my; unfold pitchDelta, invertFactor; ring.
  - intros invertY mx my s. reflexivity.
  - intros s ms. apply look_yaw_same; reflexivity.
  - intros s ms.
    assert (H : mirrored (with_look (yaw s) 0 s) (with_look (yaw s) 0 s))
      by (repeat split; simpl; ring).
    destruct (look_mirrored ms _ _ H) as [(_ & _ & HP) HC].
    split; [exact HC | exact HP].
Qed.

(** The symmetry of the stored pitch needs the two runs to start from
    opposite pitches (0 at mount): from a common pitch of 1 one large move
    is cut by the upper bound in one mode and by the lower bound in the
    other, and the two changes of the stored pitch are not negations. *)
Example clamp_cuts_stored_change :
  let s :=
    with_pointerLocked true
      (with_look 0 1 (initial (mkPose Vector3.zero (mkEuler 0 0 0)))) in
  pitchChanges true s [(0, 1000)] = [MAX_PITCH - 1] /\
  pitchChanges false s [(0, 1000)] = [- MAX_PITCH - 1] /\
  pitchChanges true s [(0, 1000)]
    <> map Ropp (pitchChanges false s [(0, 1000)]).
Proof.
  intros s. pose proof PI_4 as HP. pose proof MAX_PITCH_pos as HM.
  assert (HU : MAX_PITCH <= 2) by (unfold MAX_PITCH; lra).
  assert (H1 : pitchChanges true s [(0, 1000)] = [MAX_PITCH - 1]).
  { simpl. unfold clampPitch, pitchDelta, invertFactor, LOOK_SENSITIVITY.
    rewrite Rmin_left by lra. rewrite Rmax_right by lra. reflexivity. }
  assert (H2 : pitchChanges false s [(0, 1000)] = [- MAX_PITCH - 1]).
  { simpl. unfold clampPitch, pitchDelta, invertFactor, LOOK_SENSITIVITY.
    rewrite Rmin_right by lra. rewrite Rmax_left by lra. reflexivity. }
  rewrite H1, H2. repeat split. simpl. intros H. injection H as H. lra.
Qed.

(** ** Jump *)

Lemma impulseCount_app (c1 c2 : list BodyCall) :
  impulseCount (c1 ++ c2) = (impulseCount c1 + impulseCount c2)%nat.
Proof. unfold impulseCount. now rewrite filter_app, length_app. Qed.

Lemma frameCalls_impulses (s : State) (body : RigidBody) :
  impulseCount (frameCalls s body) =
  Nat.b2n (jumpFires s (linvel body)).
Proof.
  unfold frameCalls. rewrite impulseCount_app.
  destruct (jumpFires s (linvel body)); reflexivity.
Qed.

Lemma jumpFires_spec (s : State) (v : vec3) :
  jumpFires s v = true <->
  jumpRequested s = true /\ (contactCount s > 0)%Z /\
  Rabs (Vector3.y v) < 0.2.
Proof.
  unfold jumpFires. rewrite !andb_true_iff, Z.ltb_lt, Rlt_b_true.
  intuition lia.
Qed.

Lemma step_jump_budget (invertY : bool) (s : State) (e : Event) :
  (impulseCount (snd (step invertY s e))
   + Nat.b2n (jumpRequested (fst (step invertY s e)))
   <= Nat.b2n (jumpRequested s) + Nat.b2n (isSpaceDown e))%nat.
Proof.
  destruct e; simpl;
    try (unfold impulseCount; simpl; lia);
    try (unfold onKeyUp, handlePointerLockChange, handlePointerMove,
           handlePointerDown, handlePointerUp, autoFireTick;
         repeat break_if; unfold impulseCount; simpl; lia).
  - unfold onKeyDown. destruct repeat; simpl; [unfold impulseCount; simpl; lia|].
    repeat break_if; unfold impulseCount; simpl;
      destruct (jumpRequested s); simpl; lia.
  - unfold useFrame. destruct (bodyRef s) as [body|]; simpl.
    + rewrite frameCalls_impulses. unfold jumpFires.
      destruct (jumpRequested s); simpl; [|lia].
      destruct (_ && _); simpl; lia.
    + unfold impulseCount; simpl; lia.
  - destruct (elapse_sameControls dt s) as (_ & _ & _ & _ & _ & _ & _ & H & _).
    rewrite H. unfold impulseCount; simpl; lia.
Qed.

Lemma run_jump_budget (invertY : bool) (es : list Event) (s : State) :
  (impulseCount (snd (run invertY s es))
   <= Nat.b2n (jumpRequested s) + spaceDowns es)%nat.
Proof.
  revert s. induction es as [|e es IH]; intros s; simpl.
  - unfold impulseCount; simpl; lia.
  - pose proof (step_jump_budget invertY s e) as H.
    destruct (step invertY s e) as [s1 c1]. specialize (IH s1).
    destruct (run invertY s1 es) as [s2 c2]. simpl in *.
    rewrite impulseCount_app. unfold spaceDowns in *. simpl.
    destruct (isSpaceDown e); simpl in *; lia.
Qed.

(** C1.  On a frame with the body mounted the calls on the body are the
    velocity write, the angular reset and, exactly when a jump request is
    pending, the contact count is positive and the absolute vertical
    velocity read in that frame is below 0.2, one impulse (0, 4.5, 0); the
    request flag is false after the frame either way.  The flag is set by a
    key-down of Space that is not a repeat and left alone by a repeat.  Over
    any trace the number of impulses is at most the number of such key-downs
    (plus one if a request was pending at the start), so one key-down never
    yields two impulses. *)
Theorem jump_gating :
  (forall (delta : R) (s : State) (body : RigidBody),
      let s0 := with_bodyRef (Some body) s in
      snd (useFrame delta s0) =
        [SetLinvel (writtenVelocity (keyState s) (yaw s) (linvel body));
         SetAngvel (Vector3.mk 0 0 0)]
        ++ (if jumpFires s0 (linvel body)
            then [ApplyImpulse (Vector3.mk 0 4.5 0)] else []) /\
      (jumpFires s0 (linvel body) = true <->
       (contactCount s > 0)%Z /\ Rabs (Vector3.y (linvel body)) < 0.2 /\
       jumpRequested s = true) /\
      jumpRequested (fst (useFrame delta s0)) = false) /\
  (forall (code : string) (s : State),
      jumpRequested (onKeyDown "Space" false s) = true /\
      jumpRequested (onKeyDown code true s) = jumpRequested s /\
      jumpRequested (onKeyUp code s) = jumpRequested s) /\
  (forall (invertY : bool) (s : State) (es : list Event),
      (impulseCount (snd (run invertY s es))
       <= Nat.b2n (jumpRequested s) + spaceDowns es)%nat).
Proof.
  split; [|split].
  - intros delta s body s0. split; [reflexivity|]. split; [|reflexivity].
    rewrite jumpFires_spec. subst s0. simpl. tauto.
  - intros code s. split; [reflexivity|]. split; [reflexivity|].
    unfold onKeyUp. repeat break_if; reflexivity.
  - intros. apply run_jump_budget.
Qed.

Lemma jump_gating_witness :
  let body := mkRigidBody Vector3.zero Vector3.zero Vector3.zero 1 in
  let s :=
    with_contactCount 1
      (onKeyDown "Space" false
         (initial (mkPose Vector3.zero (mkEuler 0 0 0)))) in
  jumpFires (with_bodyRef (Some body) s) (linvel body) = true.
Proof.
  intros body s. destruct jump_gating as (H & _).
  apply (H 0 s body). simpl. split; [lia|].
  split; [rewrite Rabs_R0; lra | reflexivity].
Defined.

(** A key-down of Space on the ground at rest, then two frames: the first
    frame jumps, the second does not. *)
Example one_press_one_impulse :
  let body := mkRigidBody Vector3.zero Vector3.zero Vector3.zero 1 in
  let s :=
    with_contactCount 1
      (with_bodyRef (Some body)
         (initial (mkPose Vector3.zero (mkEuler 0 0 0)))) in
  impulseCount
    (snd (run false s [KeyDown "Space" false; Frame 0.016; Frame 0.016])) = 1%nat.
Proof.
  intros body s. cbn [run step]. subst s. unfold onKeyDown. simpl.
  unfold frameCalls, jumpFires. simpl.
  assert (H : Rlt_b (Rabs 0) 0.2 = true)
    by (apply Rlt_b_true; rewrite Rabs_R0; lra).
  rewrite H. reflexivity.
Qed.

(** ** Movement *)

Lemma vec3_eq (a b : vec3) :
  Vector3.x a = Vector3.x b -> Vector3.y a = Vector3.y b ->
  Vector3.z a = Vector3.z b -> a = b.
Proof. destruct a, b; simpl; intros; subst; reflexivity. Qed.

Lemma applyEuler_yaw_only (a : vec3) (yw : R) :
  Vector3.applyEuler a (mkEuler 0 yw 0) = Vector3.rotateY yw a.
Proof.
  unfold Vector3.applyEuler, Vector3.rotateX, Vector3.rotateZ,
    Vector3.rotateY; simpl.
  rewrite sin_0, cos_0. apply vec3_eq; simpl; ring.
Qed.

Lemma frontVector_eq (yw : R) :
  frontVector yw = Vector3.mk (- sin yw) 0 (- cos yw).
Proof.
  unfold frontVector. rewrite applyEuler_yaw_only.
  apply vec3_eq; simpl; ring.
Qed.

Lemma sideVector_eq (yw : R) :
  sideVector yw = Vector3.mk (- cos yw) 0 (sin yw).
Proof.
  unfold sideVector. rewrite applyEuler_yaw_only.
  apply vec3_eq; simpl; ring.
Qed.

Lemma desiredDirection_eq (k : KeyState) (yw : R) :
  desiredDirection k yw =
  Vector3.mk (- axisFront k * sin yw - axisSide k * cos yw) 0
             (- axisFront k * cos yw + axisSide k * sin yw).
Proof.
  unfold desiredDirection, axisFront, axisSide.
  rewrite frontVector_eq, sideVector_eq.
  destruct k as [[] [] [] [] j]; apply vec3_eq; simpl; ring.
Qed.

Lemma desiredDirection_lengthSq (k : KeyState) (yw : R) :
  Vector3.lengthSq (desiredDirection k yw) =
  axisFront k * axisFront k + axisSide k * axisSide k.
Proof.
  rewrite desiredDirection_eq. unfold Vector3.lengthSq; simpl.
  pose proof (sin2_cos2 yw) as H. unfold Rsqr in H.
  replace (axisFront k * axisFront k + axisSide k * axisSide k)
    with ((axisFront k * axisFront k + axisSide k * axisSide k)
          * (sin yw * sin yw + cos yw * cos yw)) by (rewrite H; ring).
  ring.
Qed.

Lemma moving_lengthSq (k : KeyState) (yw : R) :
  Rlt_b 0 (Vector3.lengthSq (desiredDirection k yw)) = moving k.
Proof.
  rewrite desiredDirection_lengthSq. unfold moving, axisFront, axisSide.
  destruct k as [[] [] [] [] j]; simpl;
    first [apply Rlt_b_true; lra | apply Rlt_b_false; lra].
Qed.

Lemma normalize_positive (d : vec3) :
  0 < Vector3.lengthSq d ->
  Vector3.normalize d = Vector3.multiplyScalar d (1 / sqrt (Vector3.lengthSq d)).
Proof.
  intros H. unfold Vector3.normalize, Vector3.divideScalar, Vector3.length.
  pose proof (sqrt_lt_R0 _ H).
  destruct (Req_EM_T (sqrt (Vector3.lengthSq d)) 0); [lra | reflexivity].
Qed.

Lemma normalize_scale_horizontal (d : vec3) (c : R) :
  Vector3.y d = 0 -> 0 < Vector3.lengthSq d -> 0 <= c ->
  Vector3.horizontalLength
    (Vector3.multiplyScalar (Vector3.normalize d) c) = c.
Proof.
  intros Hy HL Hc. rewrite (normalize_positive d HL).
  unfold Vector3.horizontalLength, Vector3.multiplyScalar; simpl.
  set (L := sqrt (Vector3.lengthSq d)).
  assert (HLpos : 0 < L) by (apply sqrt_lt_R0; exact HL).
  assert (HLL : L * L = Vector3.x d * Vector3.x d + Vector3.z d * Vector3.z d).
  { unfold L. rewrite sqrt_sqrt by lra. unfold Vector3.lengthSq.
    rewrite Hy. ring. }
  replace (Vector3.x d * (1 / L) * c * (Vector3.x d * (1 / L) * c)
           + Vector3.z d * (1 / L) * c * (Vector3.z d * (1 / L) * c))
    with (c * c).
  - apply sqrt_square. exact Hc.
  - transitivity (c * c * ((Vector3.x d * Vector3.x d
                            + Vector3.z d * Vector3.z d) / (L * L))).
    + rewrite <- HLL. field. lra.
    + field. lra.
Qed.

Lemma moveVelocity_y (k : KeyState) (yw : R) :
  Vector3.y (moveVelocity k yw) = 0.
Proof.
  unfold moveVelocity. rewrite moving_lengthSq.
  destruct (moving k).
  - unfold Vector3.normalize, Vector3.divideScalar. simpl.
    rewrite desiredDirection_eq. simpl. ring.
  - rewrite desiredDirection_eq. reflexivity.
Qed.

Lemma moveVelocity_speed (k : KeyState) (yw : R) :
  Vector3.horizontalLength (moveVelocity k yw) =
  if moving k then MOVE_SPEED else 0.
Proof.
  unfold moveVelocity. rewrite moving_lengthSq.
  destruct (moving k) eqn:E.
  - apply normalize_scale_horizontal.
    + rewrite desiredDirection_eq. reflexivity.
    + apply Rlt_b_true. rewrite moving_lengthSq. exact E.
    + unfold MOVE_SPEED. lra.
  - pose proof (moving_lengthSq k yw) as H. rewrite E in H.
    apply Rlt_b_false in H.
    unfold Vector3.horizontalLength.
    assert (H0 : Vector3.y (desiredDirection k yw) = 0)
      by (rewrite desiredDirection_eq; reflexivity).
    unfold Vector3.lengthSq in H. rewrite H0 in H.
    replace (Vector3.x (desiredDirection k yw) * Vector3.x (desiredDirection k yw)
             + Vector3.z (desiredDirection k yw) * Vector3.z (desiredDirection k yw))
      with 0 by nra.
    apply sqrt_0.
Qed.

Lemma moveVelocity_unit (k : KeyState) (yw : R) :
  axisFront k * axisFront k + axisSide k * axisSide k = 1 ->
  moveVelocity k yw =
  Vector3.multiplyScalar (desiredDirection k yw) MOVE_SPEED.
Proof.
  intros H1.
  assert (HL : 0 < Vector3.lengthSq (desiredDirection k yw))
    by (rewrite desiredDirection_lengthSq; lra).
  unfold moveVelocity.
  rewrite (proj2 (Rlt_b_true _ _) HL), (normalize_positive _ HL).
  rewrite desiredDirection_lengthSq, H1, sqrt_1.
  apply vec3_eq; simpl; field.
Qed.

Lemma moveVelocity_still (k : KeyState) (yw : R) :
  moving k = false -> moveVelocity k yw = Vector3.mk 0 0 0.
Proof.
  intros H. unfold moveVelocity. rewrite moving_lengthSq, H.
  rewrite desiredDirection_eq. unfold axisFront, axisSide.
  destruct k as [[] [] [] [] j]; try discriminate H;
    apply vec3_eq; simpl; ring.
Qed.

Lemma moveVelocity_forward_0 (j : bool) :
  moveVelocity (mkKeyState true false false false j) 0 =
  Vector3.mk 0 0 (- 4.5).
Proof.
  rewrite moveVelocity_unit by (unfold axisFront, axisSide; simpl; ring).
  rewrite desiredDirection_eq. unfold axisFront, axisSide, MOVE_SPEED.
  simpl. rewrite sin_0, cos_0. apply vec3_eq; simpl; lra.
Qed.

Lemma moveVelocity_left_0 (j : bool) :
  moveVelocity (mkKeyState false false true false j) 0 =
  Vector3.mk (- 4.5) 0 0.
Proof.
  rewrite moveVelocity_unit by (unfold axisFront, axisSide; simpl; ring).
  rewrite desiredDirection_eq. unfold axisFront, axisSide, MOVE_SPEED.
  simpl. rewrite sin_0, cos_0. apply vec3_eq; simpl; lra.
Qed.

(** C2, as stated, fails: with only the left key held at yaw 0 the written
    velocity is 4.5 along -X, not along the world-right axis +X, and the
    side vector at yaw 0 is the world-left axis, not the world-right one. *)
Lemma left_key_moves_along_minus_x :
  writtenVelocity (mkKeyState false false true false false) 0 Vector3.zero
    = Vector3.mk (- 4.5) 0 0 /\
  writtenVelocity (mkKeyState false false true false false) 0 Vector3.zero
    <> Vector3.multiplyScalar worldRight 4.5 /\
  sideVector 0 <> Vector3.applyEuler worldRight (mkEuler 0 0 0).
Proof.
  unfold writtenVelocity. rewrite moveVelocity_left_0. simpl.
  split; [reflexivity|]. split.
  - unfold Vector3.multiplyScalar, worldRight; simpl. intros H.
    injection H as H _. lra.
  - rewrite sideVector_eq, applyEuler_yaw_only.
    unfold Vector3.rotateY, worldRight; simpl. rewrite sin_0, cos_0.
    intros H. injection H as H _. lra.
Qed.

(** C2, amended.  The front vector is world-forward (0, 0, -1) rotated about
    the vertical axis by the yaw alone, and the side vector is the
    world-left axis (-1, 0, 0) rotated the same way; the desired direction
    is the front vector times (forward - backward) plus the side vector
    times (left - right); with only the left key held at yaw 0 the written
    velocity is (-4.5, vy, 0): magnitude 4.5 along -X. *)
Theorem movement_basis :
  (forall yw : R,
      frontVector yw = Vector3.rotateY yw worldForward /\
      sideVector yw = Vector3.rotateY yw worldLeft) /\
  (forall (k : KeyState) (yw : R),
      desiredDirection k yw =
      Vector3.add (Vector3.multiplyScalar (frontVector yw) (axisFront k))
                  (Vector3.multiplyScalar (sideVector yw) (axisSide k))) /\
  (forall (j : bool) (v : vec3),
      let w := writtenVelocity (mkKeyState false false true false j) 0 v in
      w = Vector3.mk (- 4.5) (Vector3.y v) 0 /\
      Vector3.horizontalLength w = 4.5 /\
      Vector3.mk (Vector3.x w) 0 (Vector3.z w)
        = Vector3.multiplyScalar worldLeft 4.5).
Proof.
  split; [|split].
  - intros yw. split; apply applyEuler_yaw_only.
  - intros k yw. rewrite desiredDirection_eq, frontVector_eq, sideVector_eq.
    apply vec3_eq; simpl; ring.
  - intros j v w. subst w. unfold writtenVelocity.
    pose proof (moveVelocity_speed (mkKeyState false false true false j) 0)
      as HS.
    rewrite moveVelocity_left_0 in *. simpl in *.
    split; [reflexivity|]. split.
    + unfold Vector3.horizontalLength in *. simpl in *. exact HS.
    + unfold Vector3.multiplyScalar, worldLeft. simpl.
      apply vec3_eq; simpl; lra.
Qed.

(** C10.  Whatever keys are held and whatever the yaw, the horizontal part
    of the velocity handed to [setLinvel] has length 4.5 when some movement
    key is held without its opposite and length 0 otherwise; a pair of
    opposite keys that are both held contributes the same as a pair that are
    both released; the frame writes exactly this velocity. *)
Theorem horizontal_speed_exact :
  (forall (k : KeyState) (yw : R) (v : vec3),
      Vector3.horizontalLength (writtenVelocity k yw v) =
      if moving k then 4.5 else 0) /\
  (forall (f b l r j : bool) (yw : R),
      desiredDirection (mkKeyState true true l r j) yw =
      desiredDirection (mkKeyState false false l r j) yw /\
      desiredDirection (mkKeyState f b true true j) yw =
      desiredDirection (mkKeyState f b false false j) yw) /\
  (forall (delta : R) (s : State) (body : RigidBody),
      nth_error (snd (useFrame delta (with_bodyRef (Some body) s))) 0 =
      Some (SetLinvel (writtenVelocity (keyState s) (yaw s) (linvel body)))).
Proof.
  split; [|split].
  - intros k yw v. exact (moveVelocity_speed k yw).
  - intros f b l r j yw. rewrite !desiredDirection_eq.
    unfold axisFront, axisSide; simpl.
    split; apply vec3_eq; simpl; ring.
  - reflexivity.
Qed.

(** ** Frames without a jump *)

Lemma linvelWrites_app (c1 c2 : list BodyCall) :
  linvelWrites (c1 ++ c2) = linvelWrites c1 ++ linvelWrites c2.
Proof. apply flat_map_app. Qed.

Lemma writtenVelocity_y (k : KeyState) (yw : R) (v : vec3) :
  Vector3.y (writtenVelocity k yw v) = Vector3.y v.
Proof. reflexivity. Qed.

Lemma useFrame_nojump (delta : R) (s : State) (body : RigidBody) :
  bodyRef s = Some body -> jumpRequested s = false ->
  let w := writtenVelocity (keyState s) (yaw s) (linvel body) in
  snd (useFrame delta s) = [SetLinvel w; SetAngvel (Vector3.mk 0 0 0)] /\
  keyState (fst (useFrame delta s)) = keyState s /\
  yaw (fst (useFrame delta s)) = yaw s /\
  jumpRequested (fst (useFrame delta s)) = false /\
  bodyRef (fst (useFrame delta s)) =
    Some (mkRigidBody (translation body) w (Vector3.mk 0 0 0) (invMass body)).
Proof.
  intros HB HJ w. unfold useFrame. rewrite HB. simpl.
  unfold frameCalls, jumpFires. rewrite HJ. simpl. repeat split.
Qed.

Lemma step_horizontal (invertY : bool) (s : State) (e : Event)
    (body : RigidBody) :
  horizontalOnly e = true -> jumpRequested s = false ->
  bodyRef s = Some body ->
  jumpRequested (fst (step invertY s e)) = false /\
  exists body1,
    bodyRef (fst (step invertY s e)) = Some body1 /\
    Vector3.y (linvel body1) = Vector3.y (linvel body).
Proof.
  intros HE HJ HB.
  destruct e; simpl in *; try discriminate HE;
    try (split; [exact HJ | exists body; split; [exact HB | reflexivity]]);
    try (unfold handlePointerLockChange, handlePointerMove,
           handlePointerDown, handlePointerUp, autoFireTick;
         repeat break_if; simpl;
         (split; [exact HJ | exists body; split; [exact HB | reflexivity]])).
  - unfold onKeyDown. apply negb_true_iff in HE. rewrite HE.
    repeat break_if; simpl;
      (split; [exact HJ | exists body; split; [exact HB | reflexivity]]).
  - unfold onKeyUp. repeat break_if; simpl;
      (split; [exact HJ | exists body; split; [exact HB | reflexivity]]).
  - destruct (useFrame_nojump delta s body HB HJ) as (_ & _ & _ & H1 & H2).
    split; [exact H1|]. eexists. split; [exact H2|]. reflexivity.
  - destruct (elapse_sameControls dt s)
      as (_ & _ & H1 & _ & _ & _ & _ & H2 & _).
    rewrite H1, H2. split; [exact HJ|]. exists body. now split.
Qed.

Lemma run_horizontal (invertY : bool) (es : list Event) (s : State)
    (body : RigidBody) :
  forallb horizontalOnly es = true -> jumpRequested s = false ->
  bodyRef s = Some body ->
  exists body1,
    bodyRef (fst (run invertY s es)) = Some body1 /\
    Vector3.y (linvel body1) = Vector3.y (linvel body).
Proof.
  revert s body. induction es as [|e es IH]; intros s body HE HJ HB; simpl.
  - exists body. now split.
  - simpl in HE. apply andb_true_iff in HE as [HE1 HE2].
    destruct (step_horizontal invertY s e body HE1 HJ HB)
      as (HJ1 & body1 & HB1 & HV1).
    destruct (step invertY s e) as [s1 c1]. simpl in *.
    destruct (IH s1 body1 HE2 HJ1 HB1) as (body2 & HB2 & HV2).
    destruct (run invertY s1 es) as [s2 c2]. simpl in *.
    exists body2. split; [exact HB2 | congruence].
Qed.

Lemma forallb_filter_same {A : Type} (f : A -> bool) (l : list A) :
  forallb f (filter f l) = true.
Proof.
  induction l as [|a l IH]; simpl; [reflexivity|].
  destruct (f a) eqn:E; simpl; [rewrite E|]; exact IH.
Qed.

(** C4.  The velocity handed to [setLinvel] carries the vertical component
    read in the same frame, for every combination of held keys and every
    yaw, and it is the first call of the frame; when no jump request is
    pending the frame leaves the vertical velocity of the body as it was;
    and over any run of events without the Space key (and without the
    physics runtime moving the body in between), started with no request
    pending, the body ends with the vertical velocity it started with. *)
Theorem vertical_velocity_isolation :
  (forall (k : KeyState) (yw : R) (v : vec3),
      Vector3.y (writtenVelocity k yw v) = Vector3.y v) /\
  (forall (delta : R) (s : State) (body : RigidBody),
      nth_error (snd (useFrame delta (with_bodyRef (Some body) s))) 0 =
      Some (SetLinvel (writtenVelocity (keyState s) (yaw s) (linvel body)))) /\
  (forall (invertY : bool) (s : State) (body : RigidBody) (es : list Event),
      let s0 := with_keys (keyState s) false (with_bodyRef (Some body) s) in
      option_map (fun b => Vector3.y (linvel b))
        (bodyRef (fst (run invertY s0 (filter horizontalOnly es)))) =
      Some (Vector3.y (linvel body))).
Proof.
  split; [|split].
  - reflexivity.
  - reflexivity.
  - intros invertY s body es s0.
    destruct (run_horizontal invertY (filter horizontalOnly es) s0 body)
      as (body1 & HB & HV).
    + apply forallb_filter_same.
    + reflexivity.
    + reflexivity.
    + rewrite HB. simpl. now rewrite HV.
Qed.

(** ** Holding and releasing forward *)

Lemma frames_hold (invertY : bool) (k : KeyState) (yw vy : R)
    (deltas : list R) (s : State) (body : RigidBody) :
  keyState s = k -> yaw s = yw -> jumpRequested s = false ->
  bodyRef s = Some body -> Vector3.y (linvel body) = vy ->
  let r := run invertY s (map Frame deltas) in
  let w := Vector3.mk (Vector3.x (moveVelocity k yw)) vy
             (Vector3.z (moveVelocity k yw)) in
  linvelWrites (snd r) = repeat w (List.length deltas) /\
  keyState (fst r) = k /\ yaw (fst r) = yw /\
  jumpRequested (fst r) = false /\
  exists body1, bodyRef (fst r) = Some body1 /\ Vector3.y (linvel body1) = vy.
Proof.
  revert s body.
  induction deltas as [|d deltas IH]; intros s body HK HY HJ HB HV; simpl.
  - repeat split; try assumption. exists body. now split.
  - destruct (useFrame_nojump d s body HB HJ) as (H1 & H2 & H3 & H4 & H5).
    destruct (useFrame d s) as [s1 c1]. simpl in *.
    specialize (IH s1 _ (eq_trans H2 HK) (eq_trans H3 HY) H4 H5 HV).
    destruct (run invertY s1 (map Frame deltas)) as [s2 c2]. simpl in *.
    destruct IH as (I1 & I2 & I3 & I4 & I5).
    repeat split; try assumption.
    rewrite H1. simpl. rewrite I1. f_equal.
    unfold writtenVelocity. rewrite HK, HY, HV. reflexivity.
Qed.

(** C5.  At yaw 0 with only the forward key held the frame writes the
    velocity (0, vy, -4.5), vy being the vertical velocity read in that
    frame, and with no movement key held it writes (0, vy, 0) at any yaw.
    As a trace, from a state with the body mounted, yaw 0, no movement key
    held and no jump request pending: after the key-down of W every frame
    of the hold writes (0, vy, -4.5), and the first frame after the key-up
    of W writes (0, vy, 0). *)
Theorem forward_hold_then_release :
  (forall (j : bool) (yw : R) (v : vec3),
      writtenVelocity (mkKeyState true false false false j) 0 v =
        Vector3.mk 0 (Vector3.y v) (- 4.5) /\
      writtenVelocity (mkKeyState false false false false j) yw v =
        Vector3.mk 0 (Vector3.y v) 0) /\
  (forall (invertY : bool) (s : State) (body : RigidBody) (deltas : list R)
          (d : R),
      let s0 :=
        with_keys (mkKeyState false false false false (jump (keyState s)))
          false (with_look 0 (pitch s) (with_bodyRef (Some body) s)) in
      let vy := Vector3.y (linvel body) in
      linvelWrites
        (snd (run invertY s0
                ([KeyDown "KeyW" false] ++ map Frame deltas
                 ++ [KeyUp "KeyW"; Frame d]))) =
      repeat (Vector3.mk 0 vy (- 4.5)) (List.length deltas)
      ++ [Vector3.mk 0 vy 0]).
Proof.
  split.
  { intros j yw v. unfold writtenVelocity.
    rewrite moveVelocity_forward_0, moveVelocity_still by reflexivity.
    split; reflexivity. }
  intros invertY s body deltas d s0 vy.
  change ([KeyDown "KeyW" false] ++ map Frame deltas ++ [KeyUp "KeyW"; Frame d])
    with (KeyDown "KeyW" false :: (map Frame deltas ++ [KeyUp "KeyW"; Frame d])).
  cbn [run step]. rewrite run_app.
  set (s1 := onKeyDown "KeyW" false s0).
  destruct (frames_hold invertY
              (mkKeyState true false false false (jump (keyState s))) 0 vy
              deltas s1 body eq_refl eq_refl eq_refl eq_refl eq_refl)
    as (H1 & H2 & H3 & H4 & body1 & H5 & H6).
  destruct (run invertY s1 (map Frame deltas)) as [s2 c2].
  simpl in H1, H2, H3, H4, H5.
  cbn [run step].
  set (s3 := onKeyUp "KeyW" s2).
  assert (HB3 : bodyRef s3 = Some body1) by (subst s3; exact H5).
  assert (HJ3 : jumpRequested s3 = false) by (subst s3; exact H4).
  destruct (useFrame_nojump d s3 body1 HB3 HJ3) as (F1 & _).
  destruct (useFrame d s3) as [s4 c4]. simpl in F1. subst c4.
  simpl. rewrite linvelWrites_app, H1. simpl.
  rewrite moveVelocity_forward_0. simpl. f_equal. f_equal.
  unfold writtenVelocity. simpl. rewrite H2, H6. simpl.
  now rewrite moveVelocity_still by reflexivity.
Qed.

(** ** Gun sway *)

Lemma lerpFactor_plus (d1 d2 : R) :
  1 - lerpFactor (d1 + d2) = (1 - lerpFactor d1) * (1 - lerpFactor d2).
Proof.
  unfold lerpFactor.
  replace (- GUN_SWAY_SMOOTHING * (d1 + d2))
    with (- GUN_SWAY_SMOOTHING * d1 + - GUN_SWAY_SMOOTHING * d2) by ring.
  rewrite exp_plus. ring.
Qed.

Lemma swayUpdate_compose (v : vec3) (d1 d2 : R) (sway : vec3) :
  swayUpdate v d2 (swayUpdate v d1 sway) = swayUpdate v (d1 + d2) sway.
Proof.
  pose proof (lerpFactor_plus d1 d2) as H.
  assert (HF : lerpFactor (d1 + d2) =
               lerpFactor d1 + lerpFactor d2 - lerpFactor d1 * lerpFactor d2)
    by lra.
  unfold swayUpdate, Vector3.lerp. simpl. rewrite HF.
  apply vec3_eq; simpl; ring.
Qed.

Lemma swayUpdate_zero (v sway : vec3) : swayUpdate v 0 sway = sway.
Proof.
  unfold swayUpdate, Vector3.lerp, lerpFactor. rewrite Rmult_0_r, exp_0.
  destruct sway. apply vec3_eq; simpl; ring.
Qed.

Lemma swaySteps_once (v : vec3) (dt : R) (n : nat) (sway : vec3) :
  swaySteps v dt n sway = swayUpdate v (INR n * dt) sway.
Proof.
  revert sway. induction n as [|n IH]; intros sway.
  - simpl. rewrite Rmult_0_l. symmetry. apply swayUpdate_zero.
  - cbn [swaySteps]. rewrite IH, swayUpdate_compose. f_equal.
    rewrite S_INR. ring.
Qed.

Lemma exp_decay_small (a dt eps : R) :
  0 < dt -> 0 < eps ->
  exists N : nat, forall n : nat, (N <= n)%nat ->
    Rabs (a * exp (- GUN_SWAY_SMOOTHING * (INR n * dt))) < eps.
Proof.
  intros Hdt Heps. unfold GUN_SWAY_SMOOTHING.
  destruct (archimed (Rabs a / (12 * dt * eps))) as [HA _].
  set (q := Rabs a / (12 * dt * eps)) in *.
  assert (Hq : 0 <= q).
  { unfold q. apply Rmult_le_pos; [apply Rabs_pos|].
    apply Rlt_le, Rinv_0_lt_compat. nra. }
  exists (Z.to_nat (up q)). intros n Hn.
  assert (HnR : q < INR n).
  { apply Rlt_le_trans with (IZR (up q)); [exact HA|].
    rewrite INR_IZR_INZ. apply IZR_le.
    assert (0 < up q)%Z by (apply lt_IZR; lra). lia. }
  set (x := 12 * (INR n * dt)).
  assert (Hx : 0 < x) by (unfold x; nra).
  replace (- (12) * (INR n * dt)) with (- x) by (unfold x; ring).
  rewrite Rabs_mult, (Rabs_pos_eq (exp (- x))) by (left; apply exp_pos).
  rewrite exp_Ropp.
  assert (HE : 1 + x < exp x) by (apply exp_ineq1; lra).
  assert (Hinv : / exp x < / x).
  { apply Rinv_lt_contravar; [|lra]. apply Rmult_lt_0_compat; lra. }
  assert (Hbound : Rabs a * / x < eps).
  { apply Rmult_lt_reg_r with x; [exact Hx|].
    rewrite Rmult_assoc, Rinv_l, Rmult_1_r by lra.
    unfold q in HnR.
    apply (Rmult_lt_compat_r (12 * dt * eps)) in HnR; [|nra].
    unfold Rdiv in HnR.
    rewrite Rmult_assoc, Rinv_l, Rmult_1_r in HnR by nra.
    unfold x. nra. }
  pose proof (Rabs_pos a) as Ha.
  apply Rle_lt_trans with (Rabs a * / x); [|exact Hbound].
  apply Rmult_le_compat_l; [exact Ha | lra].
Qed.

Lemma swayUpdate_error (v : vec3) (T : R) (sway : vec3) :
  let t := gunSwayTarget v in
  let e := exp (- GUN_SWAY_SMOOTHING * T) in
  Vector3.x (swayUpdate v T sway) - Vector3.x t
    = (Vector3.x sway - Vector3.x t) * e /\
  Vector3.y (swayUpdate v T sway) - Vector3.y t
    = (Vector3.y sway - Vector3.y t) * e /\
  Vector3.z (swayUpdate v T sway) - Vector3.z t
    = (Vector3.z sway - Vector3.z t) * e.
Proof.
  unfold swayUpdate, Vector3.lerp, lerpFactor. simpl. repeat split; ring.
Qed.

Lemma sway_converges (v : vec3) (dt eps : R) (sway : vec3) :
  0 < dt -> 0 < eps ->
  exists N : nat, forall n : nat, (N <= n)%nat ->
    within eps (swaySteps v dt n sway) (gunSwayTarget v).
Proof.
  intros Hdt Heps.
  destruct (exp_decay_small
              (Vector3.x sway - Vector3.x (gunSwayTarget v)) dt eps Hdt Heps)
    as [Nx Hx].
  destruct (exp_decay_small
              (Vector3.y sway - Vector3.y (gunSwayTarget v)) dt eps Hdt Heps)
    as [Ny Hy].
  destruct (exp_decay_small
              (Vector3.z sway - Vector3.z (gunSwayTarget v)) dt eps Hdt Heps)
    as [Nz Hz].
  exists (Nx + Ny + Nz)%nat. intros n Hn.
  rewrite swaySteps_once.
  destruct (swayUpdate_error v (INR n * dt) sway) as (Ex & Ey & Ez).
  unfold within. rewrite Ex, Ey, Ez.
  repeat split; [apply Hx | apply Hy | apply Hz]; lia.
Qed.

(** C6.  The sway target is the velocity read in the frame with x and z
    negated and y set to 0, times 0.045; with the body and the gun mounted
    the frame replaces the sway by current + (target - current) *
    (1 - exp (-12 * delta)); for one velocity, an update by [d1] followed by
    an update by [d2] is the update by [d1 + d2], and [n] frames of step
    [dt] are one update by [n * dt], so two frame rates covering the same
    duration end in the same sway; and under a constant velocity, for every
    positive step, the sway comes and stays within any positive distance of
    minus the velocity times 0.045. *)
Theorem gun_sway_exponential :
  (forall v : vec3,
      gunSwayTarget v =
      Vector3.mk (- Vector3.x v * 0.045) 0 (- Vector3.z v * 0.045)) /\
  (forall (delta : R) (s : State) (body : RigidBody) (gun : Pose),
      let s0 := with_gunRef (Some gun) (with_bodyRef (Some body) s) in
      let c := gunSway s in
      let t := gunSwayTarget (linvel body) in
      let a := 1 - exp (- (12) * delta) in
      gunSway (fst (useFrame delta s0)) =
      Vector3.mk (Vector3.x c + (Vector3.x t - Vector3.x c) * a)
                 (Vector3.y c + (Vector3.y t - Vector3.y c) * a)
                 (Vector3.z c + (Vector3.z t - Vector3.z c) * a) /\
      gunSway (fst (useFrame delta s0)) = swayUpdate (linvel body) delta c) /\
  (forall (v : vec3) (d1 d2 : R) (sway : vec3),
      swayUpdate v d2 (swayUpdate v d1 sway) = swayUpdate v (d1 + d2) sway) /\
  (forall (v : vec3) (dt1 dt2 : R) (n1 n2 : nat) (sway : vec3),
      INR n1 * dt1 = INR n2 * dt2 ->
      swaySteps v dt1 n1 sway = swaySteps v dt2 n2 sway) /\
  (forall (v : vec3) (dt eps : R) (sway : vec3),
      0 < dt -> 0 < eps ->
      exists N : nat, forall n : nat, (N <= n)%nat ->
        within eps (swaySteps v dt n sway)
          (Vector3.multiplyScalar
             (Vector3.mk (- Vector3.x v) 0 (- Vector3.z v)) 0.045)).
Proof.
  split; [|split; [|split; [|split]]].
  - intros v. unfold gunSwayTarget, GUN_SWAY_INTENSITY.
    apply vec3_eq; simpl; ring.
  - intros delta s body gun s0 c t a. split; reflexivity.
  - exact swayUpdate_compose.
  - intros v dt1 dt2 n1 n2 sway H. rewrite !swaySteps_once. now rewrite H.
  - exact sway_converges.
Qed.

Lemma gun_sway_exponential_witness :
  swaySteps (Vector3.mk 1 0 2) 1 2 Vector3.zero =
  swaySteps (Vector3.mk 1 0 2) 2 1 Vector3.zero /\
  exists N : nat, forall n : nat, (N <= n)%nat ->
    within 1 (swaySteps (Vector3.mk 1 0 2) 1 n Vector3.zero)
      (Vector3.multiplyScalar (Vector3.mk (- 1) 0 (- 2)) 0.045).
Proof.
  destruct gun_sway_exponential as (_ & _ & _ & H4 & H5). split.
  - apply H4. simpl. lra.
  - apply (H5 (Vector3.mk 1 0 2) 1 1 Vector3.zero); lra.
Defined.

(** ** Projectile lifetime *)

Lemma projView_inv (s s' : State) :
  projView s' = projView s ->
  projectileIdRef s' = projectileIdRef s /\ projectiles s' = projectiles s /\
  clock s' = clock s /\ timeouts s' = timeouts s.
Proof. unfold projView. intros H. inversion H. repeat split. Qed.

Lemma wellFormed_view (s s' : State) :
  projView s' = projView s -> wellFormed s -> wellFormed s'.
Proof.
  intros H. apply projView_inv in H as (H1 & H2 & H3 & H4).
  unfold wellFormed. now rewrite H1, H2, H3, H4.
Qed.

Lemma tracks_view (id0 due0 : N) (s s' : State) :
  projView s' = projView s -> tracks id0 due0 s -> tracks id0 due0 s'.
Proof.
  intros H. apply projView_inv in H as (H1 & H2 & H3 & H4).
  unfold tracks. now rewrite H1, H3, H4.
Qed.

Lemma filter_all {A : Type} (f : A -> bool) (l : list A) :
  (forall a, In a l -> f a = true) -> filter f l = l.
Proof.
  induction l as [|a l IH]; intros H; simpl; [reflexivity|].
  rewrite (H a (or_introl eq_refl)). f_equal. apply IH.
  intros b Hb. apply H. now right.
Qed.

Lemma filter_twice {A : Type} (f g : A -> bool) (l : list A) :
  filter f (filter g l) = filter (fun a => g a && f a) l.
Proof.
  induction l as [|a l IH]; simpl; [reflexivity|].
  destruct (g a); simpl; [destruct (f a)|]; now rewrite IH.
Qed.

Lemma expire_fold_view (l : list (N * N)) (s : State) :
  projView (fold_left (fun st t => handleProjectileExpire (snd t) st) l s) =
  (projectileIdRef s,
   filter (fun p => negb (expires l p)) (projectiles s),
   clock s, timeouts s).
Proof.
  revert s. induction l as [|t l IH]; intros s.
  - simpl. unfold projView. now rewrite filter_all.
  - cbn [fold_left]. rewrite IH. simpl. rewrite filter_twice.
    f_equal. f_equal. f_equal. apply filter_ext. intros p.
    unfold expires. simpl. now rewrite negb_orb.
Qed.

Lemma elapse_view (dt : N) (s : State) :
  projView (elapse dt s) =
  (projectileIdRef s,
   filter (fun p =>
             negb (expires (filter (isDue (clock s + dt)) (timeouts s)) p))
     (projectiles s),
   (clock s + dt)%N,
   filter (fun t => negb (isDue (clock s + dt) t)) (timeouts s)).
Proof. unfold elapse, runTimeouts. now rewrite expire_fold_view. Qed.

Lemma filter_parallel (F : N -> bool) (g : N * N -> bool)
    (ps : list ProjectileInstance) (ts : list (N * N)) :
  map id ps = map snd ts ->
  (forall t, In t ts -> F (snd t) = g t) ->
  map id (filter (fun p => F (id p)) ps) = map snd (filter g ts).
Proof.
  revert ts. induction ps as [|p ps IH]; intros [|t ts] HM HF;
    simpl in *; try discriminate; [reflexivity|].
  injection HM as H1 H2.
  rewrite H1, (HF t (or_introl eq_refl)).
  destruct (g t); simpl; [rewrite H1; f_equal|]; apply IH; auto.
Qed.

Lemma NoDup_snd_inj (ts : list (N * N)) (t t' : N * N) :
  NoDup (map snd ts) -> In t ts -> In t' ts -> snd t = snd t' -> t = t'.
Proof.
  induction ts as [|a ts IH]; simpl; intros HN H1 H2 HE; [easy|].
  inversion HN as [|? ? Hnot HN']; subst.
  destruct H1 as [H1|H1], H2 as [H2|H2]; subst.
  - reflexivity.
  - exfalso. apply Hnot. rewrite HE. now apply in_map.
  - exfalso. apply Hnot. rewrite <- HE. now apply in_map.
  - now apply IH.
Qed.

Lemma NoDup_map_filter {A B : Type} (f : A -> B) (g : A -> bool)
    (l : list A) :
  NoDup (map f l) -> NoDup (map f (filter g l)).
Proof.
  induction l as [|a l IH]; simpl; intros H; [constructor|].
  inversion H as [|? ? Hnot H']; subst.
  destruct (g a); simpl; [|now apply IH].
  constructor; [|now apply IH].
  intros Hin. apply Hnot. apply in_map_iff in Hin as (b & Hb & Hin).
  apply filter_In in Hin as [Hin _]. rewrite <- Hb. now apply in_map.
Qed.

Lemma expires_due (now : N) (ts : list (N * N)) (t : N * N)
    (p : ProjectileInstance) :
  NoDup (map snd ts) -> In t ts -> id p = snd t ->
  expires (filter (isDue now) ts) p = isDue now t.
Proof.
  intros HN Hin Hid. unfold expires.
  destruct (isDue now t) eqn:E.
  - apply existsb_exists. exists (snd t). split; [|now apply N.eqb_eq].
    apply in_map. apply filter_In. now split.
  - apply not_true_is_false. intros H.
    apply existsb_exists in H as (i & Hi & He).
    apply N.eqb_eq in He.
    apply in_map_iff in Hi as (t' & Ht' & Hin').
    apply filter_In in Hin' as [Hin' Hdue].
    assert (t' = t)
      by (apply (NoDup_snd_inj ts); auto; congruence).
    subst t'. congruence.
Qed.

Lemma wellFormed_fire (s : State) : wellFormed s -> wellFormed (fire s).
Proof.
  intros (HM & HN & HF). unfold wellFormed. simpl.
  rewrite !map_app. simpl.
  split; [now rewrite HM|]. split.
  - apply NoDup_app; [exact HN | repeat constructor; easy |].
    intros a Ha [Hb|[]]. subst a.
    apply in_map_iff in Ha as (t & Ht & Hin).
    rewrite Forall_forall in HF. specialize (HF t Hin). lia.
  - apply Forall_app. split.
    + eapply Forall_impl; [|exact HF]. simpl. intros t Ht. lia.
    + repeat constructor; simpl; unfold PROJECTILE_LIFETIME_MS; lia.
Qed.

Lemma wellFormed_elapse (dt : N) (s : State) :
  wellFormed s -> wellFormed (elapse dt s).
Proof.
  intros (HM & HN & HF).
  pose proof (elapse_view dt s) as HV.
  set (now := (clock s + dt)%N) in *.
  unfold projView in HV. injection HV as H1 H2 H3 H4.
  unfold wellFormed. rewrite H1, H2, H3, H4.
  split; [|split].
  - apply (filter_parallel
             (fun i => negb (existsb (N.eqb i)
                               (map snd (filter (isDue now) (timeouts s)))))
             (fun t => negb (isDue now t))); [exact HM|].
    intros t Hin. f_equal.
    apply (expires_due now (timeouts s) t (mkProjectile (snd t)
             Vector3.zero Vector3.zero)); auto.
  - now apply NoDup_map_filter.
  - apply Forall_forall. intros t Hin.
    apply filter_In in Hin as [Hin Hdue].
    rewrite Forall_forall in HF. specialize (HF t Hin).
    unfold isDue in Hdue. apply negb_true_iff, N.leb_gt in Hdue.
    split; [easy | exact Hdue].
Qed.

Lemma tracks_fire (id0 due0 : N) (s : State) :
  tracks id0 due0 s -> tracks id0 due0 (fire s).
Proof.
  intros (H1 & H2 & H3). unfold tracks. simpl.
  split; [lia|]. split.
  - intros t Hin Hid. apply in_app_or in Hin as [Hin|[Hin|[]]].
    + now apply H2.
    + subst t. simpl in Hid. lia.
  - intros Hc. apply in_or_app. left. now apply H3.
Qed.

Lemma tracks_elapse (id0 due0 dt : N) (s : State) :
  tracks id0 due0 s -> tracks id0 due0 (elapse dt s).
Proof.
  intros (H1 & H2 & H3).
  pose proof (elapse_view dt s) as HV.
  set (now := (clock s + dt)%N) in *.
  unfold projView in HV. injection HV as E1 E2 E3 E4.
  unfold tracks. rewrite E1, E3, E4.
  split; [exact H1|]. split.
  - intros t Hin Hid. apply filter_In in Hin as [Hin _]. now apply H2.
  - intros Hc. apply filter_In. split.
    + apply H3. unfold now in Hc. lia.
    + unfold isDue. simpl. apply negb_true_iff, N.leb_gt. exact Hc.
Qed.

Lemma step_view (invertY : bool) (s : State) (e : Event) :
  projView (fst (step invertY s e)) = projView s \/
  projView (fst (step invertY s e)) = projView (fire s) \/
  exists dt, fst (step invertY s e) = elapse dt s.
Proof.
  destruct e; simpl;
    try (left; reflexivity);
    try (unfold onKeyDown, onKeyUp, handlePointerLockChange,
           handlePointerMove, handlePointerDown, handlePointerUp,
           autoFireTick;
         repeat break_if;
         first [left; reflexivity | right; left; reflexivity]).
  - unfold useFrame. destruct (bodyRef s); left; reflexivity.
  - right. right. now exists dt.
Qed.

Lemma step_wellFormed (invertY : bool) (s : State) (e : Event) :
  wellFormed s -> wellFormed (fst (step invertY s e)).
Proof.
  intros H. destruct (step_view invertY s e) as [HV|[HV|[dt HV]]].
  - now apply (wellFormed_view s).
  - apply (wellFormed_view (fire s)); [exact HV|]. now apply wellFormed_fire.
  - rewrite HV. now apply wellFormed_elapse.
Qed.

Lemma step_tracks (invertY : bool) (id0 due0 : N) (s : State) (e : Event) :
  tracks id0 due0 s -> tracks id0 due0 (fst (step invertY s e)).
Proof.
  intros H. destruct (step_view invertY s e) as [HV|[HV|[dt HV]]].
  - now apply (tracks_view id0 due0 s).
  - apply (tracks_view id0 due0 (fire s)); [exact HV|]. now apply tracks_fire.
  - rewrite HV. now apply tracks_elapse.
Qed.

Lemma run_wellFormed (invertY : bool) (es : list Event) (s : State) :
  wellFormed s -> wellFormed (fst (run invertY s es)).
Proof.
  revert s. induction es as [|e es IH]; intros s H; simpl; [exact H|].
  pose proof (step_wellFormed invertY s e H) as H1.
  destruct (step invertY s e) as [s1 c1]. specialize (IH s1 H1).
  destruct (run invertY s1 es) as [s2 c2]. exact IH.
Qed.

Lemma run_tracks (invertY : bool) (id0 due0 : N) (es : list Event)
    (s : State) :
  tracks id0 due0 s -> tracks id0 due0 (fst (run invertY s es)).
Proof.
  revert s. induction es as [|e es IH]; intros s H; simpl; [exact H|].
  pose proof (step_tracks invertY id0 due0 s e H) as H1.
  destruct (step invertY s e) as [s1 c1]. specialize (IH s1 H1).
  destruct (run invertY s1 es) as [s2 c2]. exact IH.
Qed.

Lemma wellFormed_initial (cam : Pose) : wellFormed (initial cam).
Proof. repeat split; constructor. Qed.

Lemma tracks_spawn (s : State) :
  wellFormed s ->
  tracks (projectileIdRef s) (clock s + PROJECTILE_LIFETIME_MS)%N (fire s).
Proof.
  intros (_ & _ & HF). unfold tracks. simpl. split; [lia|]. split.
  - intros t Hin Hid. apply in_app_or in Hin as [Hin|[Hin|[]]].
    + rewrite Forall_forall in HF. specialize (HF t Hin). lia.
    + now subst t.
  - intros _. apply in_or_app. right. now left.
Qed.

Lemma present_iff (id0 due0 : N) (s : State) :
  wellFormed s -> tracks id0 due0 s ->
  (In id0 (map id (projectiles s)) <-> (clock s < due0)%N).
Proof.
  intros (HM & _ & HF) (_ & H2 & H3). rewrite HM. split.
  - intros Hin. apply in_map_iff in Hin as (t & Ht & Hin).
    rewrite Forall_forall in HF. specialize (HF t Hin).
    rewrite <- (H2 t Hin Ht). easy.
  - intros Hc. apply in_map_iff. exists (due0, id0). split; [reflexivity|].
    now apply H3.
Qed.

Lemma elapse_idRef (dt : N) (s : State) :
  projectileIdRef (elapse dt s) = projectileIdRef s.
Proof.
  pose proof (elapse_view dt s) as HV. unfold projView in HV.
  now injection HV.
Qed.

(** C7.  Take any state the controller can reach and any event that spawns
    a projectile there (a fire press or a tick of the auto-fire interval: the
    id counter moves).  The new projectile carries the old value of the
    counter and is in the collection right away; after any further events
    whatsoever (more spawns, collisions, frames, waits) it is in the
    collection exactly as long as the clock is less than 2400 ms past the
    spawn: only the timeout removes it, and the timeout does. *)
Theorem projectile_lifetime :
  forall (invertY : bool) (cam : Pose) (es1 : list Event) (e : Event)
         (es2 : list Event),
    let s1 := fst (run invertY (initial cam) es1) in
    let s2 := fst (step invertY s1 e) in
    let s3 := fst (run invertY s2 es2) in
    let id0 := projectileIdRef s1 in
    projectileIdRef s2 <> id0 ->
    ~ In id0 (map id (projectiles s1)) /\
    In id0 (map id (projectiles s2)) /\
    projectileIdRef s2 = (id0 + 1)%N /\
    (In id0 (map id (projectiles s3)) <->
     (clock s3 < clock s1 + PROJECTILE_LIFETIME_MS)%N).
Proof.
  intros invertY cam es1 e es2 s1 s2 s3 id0 Hspawn.
  assert (HW1 : wellFormed s1)
    by (apply run_wellFormed, wellFormed_initial).
  assert (HV : projView s2 = projView (fire s1)).
  { destruct (step_view invertY s1 e) as [HV|[HV|[dt HV]]].
    - exfalso. apply Hspawn. apply projView_inv in HV. easy.
    - exact HV.
    - exfalso. apply Hspawn. subst s2. rewrite HV. apply elapse_idRef. }
  assert (HW2 : wellFormed s2)
    by (apply (wellFormed_view (fire s1)); [exact HV|];
        now apply wellFormed_fire).
  assert (HT2 : tracks id0 (clock s1 + PROJECTILE_LIFETIME_MS)%N s2)
    by (apply (tracks_view _ _ (fire s1)); [exact HV|];
        now apply tracks_spawn).
  apply projView_inv in HV as (E1 & E2 & E3 & E4).
  split; [|split; [|split]].
  - destruct HW1 as (HM & _ & HF). rewrite HM. intros Hin.
    apply in_map_iff in Hin as (t & Ht & Hin).
    rewrite Forall_forall in HF. specialize (HF t Hin).
    subst id0. lia.
  - rewrite E2. simpl. rewrite map_app. apply in_or_app. right. now left.
  - rewrite E1. reflexivity.
  - apply present_iff.
    + now apply run_wellFormed.
    + now apply run_tracks.
Qed.

Lemma projectile_lifetime_witness :
  let cam := mkPose Vector3.zero (mkEuler 0 0 0) in
  In 0%N (map id (projectiles
     (fst (run false (initial cam) [PointerDown 0 true; Elapse 2399])))) /\
  ~ In 0%N (map id (projectiles
     (fst (run false (initial cam) [PointerDown 0 true; Elapse 2401])))).
Proof.
  intros cam. split.
  - apply (projectile_lifetime false cam [] (PointerDown 0 true)
             [Elapse 2399]); simpl;
      [discriminate | unfold PROJECTILE_LIFETIME_MS; lia].
  - intros H.
    apply (projectile_lifetime false cam [] (PointerDown 0 true)
             [Elapse 2401]) in H; simpl in *;
      [unfold PROJECTILE_LIFETIME_MS in H; lia | discriminate].
Defined.

(** ** Scenery placement *)

Lemma ToUint32_range (v : Z) :
  (0 <= Int32.ToUint32 v < 4294967296)%Z.
Proof. unfold Int32.ToUint32, Int32.two32. apply Z.mod_pos_bound. lia. Qed.

Lemma roundDouble_exact (m : Z) :
  (0 <= m < 2 ^ 53)%Z -> Mulberry32.roundDouble m = m.
Proof.
  intros [H0 H1]. unfold Mulberry32.roundDouble, Mulberry32.roundMagnitude.
  destruct (Z.eq_dec m 0) as [->|Hne]; [reflexivity|].
  rewrite Z.sgn_pos, Z.abs_eq by lia.
  rewrite (proj2 (Z.ltb_lt m (2 ^ 53)) H1). lia.
Qed.

(** The generator on its first calls, and at the first call where the sum
    is no double: the state 9007201092538881 is stored as 9007201092538880. *)
Example mulberry32_seed_1 :
  Mulberry32.next (Mulberry32.mulberry32 1) = (1831565814, 2693262067)%Z /\
  Mulberry32.next 1831565814 = (3663131627, 11749833)%Z /\
  Mulberry32.next (Mulberry32.mulberry32 (-5)) = (6126533104, 2078107854)%Z /\
  Mulberry32.next (1 + 4917758 * Mulberry32.increment)
    = (9007199260973068, 2430946484)%Z /\
  Mulberry32.next (1 + 4917759 * Mulberry32.increment)
    = (9007201092538880, 3928256918)%Z.
Proof. repeat split; vm_compute; reflexivity. Qed.

Lemma random_state (state : Z) :
  fst (Mulberry32.random state) = fst (Mulberry32.next state).
Proof. reflexivity. Qed.

Lemma next_state (state : Z) :
  fst (Mulberry32.next state) =
  Mulberry32.addNumbers state Mulberry32.increment.
Proof. reflexivity. Qed.

(** The state is below 2^53 for the first four million draws, so there the
    sums on numbers are exact and the state is the wrapped seed plus the
    increment times the number of calls. *)
Lemma state_exact (seed : Z) (k : nat) :
  (Z.of_nat k <= 4000000)%Z ->
  Mulberry32.stateAfter seed k =
    (Mulberry32.mulberry32 seed + Z.of_nat k * Mulberry32.increment)%Z /\
  (0 <= Mulberry32.stateAfter seed k < 2 ^ 53)%Z.
Proof.
  pose proof (ToUint32_range seed) as [H1 H2].
  assert (HB : forall j : nat, (Z.of_nat j <= 4000000)%Z ->
             (0 <= Mulberry32.mulberry32 seed
                   + Z.of_nat j * Mulberry32.increment < 2 ^ 53)%Z).
  { intros j Hj. unfold Mulberry32.mulberry32, Mulberry32.increment.
    change (2 ^ 53)%Z with 9007199254740992%Z. lia. }
  induction k as [|k IH]; intros Hk.
  - assert (H0 : Mulberry32.stateAfter seed 0 =
                 (Mulberry32.mulberry32 seed
                  + Z.of_nat 0 * Mulberry32.increment)%Z).
    { unfold Mulberry32.stateAfter. simpl. lia. }
    split; [exact H0|]. rewrite H0. apply (HB 0%nat Hk).
  - destruct IH as [IH _]; [lia|].
    assert (HS : Mulberry32.stateAfter seed (S k) =
                 (Mulberry32.mulberry32 seed
                  + Z.of_nat (S k) * Mulberry32.increment)%Z).
    { change (Mulberry32.stateAfter seed (S k))
        with (fst (Mulberry32.next (Mulberry32.stateAfter seed k))).
      rewrite IH, next_state. unfold Mulberry32.addNumbers.
      replace (Mulberry32.mulberry32 seed + Z.of_nat k * Mulberry32.increment
               + Mulberry32.increment)%Z
        with (Mulberry32.mulberry32 seed
              + Z.of_nat (S k) * Mulberry32.increment)%Z by lia.
      apply roundDouble_exact, (HB (S k) Hk). }
    split; [exact HS|]. rewrite HS. apply (HB (S k) Hk).
Qed.

Lemma random_range (state : Z) : 0 <= snd (Mulberry32.random state) < 1.
Proof.
  unfold Mulberry32.random, Mulberry32.next. cbv zeta. cbn [snd].
  match goal with
  | |- context [Int32.ToUint32 ?v] =>
      pose proof (ToUint32_range v) as [H1 H2];
      set (k := Int32.ToUint32 v) in *
  end.
  apply IZR_le in H1. apply IZR_lt in H2. split.
  - apply Rmult_le_pos; [exact H1|]. apply Rlt_le, Rinv_0_lt_compat. lra.
  - apply Rmult_lt_reg_r with 4294967296; [lra|].
    unfold Rdiv. rewrite Rmult_assoc, Rinv_l, Rmult_1_r by lra. lra.
Qed.

Lemma random_draw (seed : Z) (k : nat) :
  Mulberry32.random (Mulberry32.stateAfter seed k) =
  (Mulberry32.stateAfter seed (S k), Mulberry32.draw seed k).
Proof.
  rewrite (surjective_pairing (Mulberry32.random _)), random_state.
  reflexivity.
Qed.

Section SceneFacts.

Variable Object3D : Type.
Variable isGround : Object3D -> bool.
Variable intersectObjects : list Object3D -> vec3 -> vec3 -> R -> list vec3.

Let placeOne := SceneryCluster.placeOne Object3D intersectObjects.
Let placeFrom := SceneryCluster.placeFrom Object3D intersectObjects.
Let placements :=
  SceneryCluster.placements Object3D isGround intersectObjects.
Let placementAt :=
  SceneryCluster.placementAt Object3D isGround intersectObjects.

Lemma placeOne_draws (name : string) (center : SceneryCluster.Center)
    (radius : R) (seed : Z) (scene : list Object3D) (i : nat) :
  placeOne name center (SceneryCluster.clampedRadius radius)
    (filter isGround scene) i (Mulberry32.stateAfter seed (3 * i)) =
  (placementAt name center radius seed scene i,
   Mulberry32.stateAfter seed (3 * S i)).
Proof.
  unfold placeOne, SceneryCluster.placeOne.
  rewrite !random_draw.
  replace (S (3 * i)) with (3 * i + 1)%nat by lia.
  replace (S (3 * i + 1)) with (3 * i + 2)%nat by lia.
  replace (S (3 * i + 2)) with (3 * S i)%nat by lia.
  reflexivity.
Qed.

Lemma placeFrom_draws (name : string) (center : SceneryCluster.Center)
    (radius : R) (seed : Z) (scene : list Object3D) (n i : nat) :
  placeFrom name center (SceneryCluster.clampedRadius radius)
    (filter isGround scene) n i (Mulberry32.stateAfter seed (3 * i)) =
  (map (placementAt name center radius seed scene) (seq i n),
   Mulberry32.stateAfter seed (3 * (i + n))).
Proof.
  revert i. induction n as [|n IH]; intros i.
  - unfold placeFrom. cbn [SceneryCluster.placeFrom seq map].
    now rewrite Nat.add_0_r.
  - unfold placeFrom in *. cbn [SceneryCluster.placeFrom].
    fold placeOne. rewrite placeOne_draws, IH.
    cbn [seq map]. now replace (S i + n)%nat with (i + S n)%nat by lia.
Qed.

Lemma placements_closed_form (name : string)
    (center : SceneryCluster.Center) (count radius : R) (seed : Z)
    (scene : list Object3D) :
  placements name center count radius seed scene =
  map (placementAt name center radius seed scene)
    (seq 0 (Z.to_nat (SceneryCluster.normalizedCount count))).
Proof.
  unfold placements, SceneryCluster.placements.
  destruct (SceneryCluster.normalizedCount count =? 0)%Z eqn:E.
  - apply Z.eqb_eq in E. now rewrite E.
  - pose proof (placeFrom_draws name center radius seed scene
                  (Z.to_nat (SceneryCluster.normalizedCount count)) 0) as H.
    unfold placeFrom in H.
    change (Mulberry32.stateAfter seed (3 * 0))
      with (Mulberry32.mulberry32 seed) in H.
    now rewrite H.
Qed.

End SceneFacts.

(** C9.  For a count whose floor is below 2^32, the largest length
    [Array.from] makes, the placements are a function of seed, count,
    radius, center and the scene alone: instance [i] is built from the
    draws 3i (angle), 3i+1 (distance) and 3i+2 (yaw) of a generator made
    from the seed, every draw is fixed by the seed and its index and lies
    in [0, 1), and after [n] instances the generator has been called exactly
    [3n] times; over the first four million calls the state is the wrapped
    seed plus the increment times the number of calls (later the sum on
    numbers rounds, which the generator of the model does too); positions
    and rotations do not depend on the component; there are
    max(0, floor(count)) instances, none when the floored count is at most
    0; with a radius at most 0 every instance sits at the center. *)
Theorem placement_deterministic :
  forall (Object3D : Type) (isGround : Object3D -> bool)
         (intersectObjects : list Object3D -> vec3 -> vec3 -> R -> list vec3)
         (name : string) (center : SceneryCluster.Center) (count radius : R)
         (seed : Z) (scene : list Object3D),
    let placed :=
      SceneryCluster.placements Object3D isGround intersectObjects name
        center count radius seed scene in
    let n := Z.to_nat (Z.max 0 (Zfloor count)) in
    (Zfloor count < 4294967296)%Z ->
    placed =
      map (SceneryCluster.placementAt Object3D isGround intersectObjects
             name center radius seed scene) (seq 0 n) /\
    List.length placed = n /\
    snd (SceneryCluster.placeFrom Object3D intersectObjects name center
           (SceneryCluster.clampedRadius radius) (filter isGround scene)
           n 0 (Mulberry32.mulberry32 seed)) =
      Mulberry32.stateAfter seed (3 * n) /\
    (forall k : nat,
        Mulberry32.random (Mulberry32.stateAfter seed k) =
          (Mulberry32.stateAfter seed (S k), Mulberry32.draw seed k) /\
        0 <= Mulberry32.draw seed k < 1) /\
    (forall k : nat,
        (Z.of_nat k <= 4000000)%Z ->
        Mulberry32.stateAfter seed k =
        (Int32.ToUint32 seed + Z.of_nat k * 0x6d2b79f5)%Z) /\
    (forall name' : string,
        map poseOf placed =
        map poseOf
          (SceneryCluster.placements Object3D isGround intersectObjects
             name' center count radius seed scene)) /\
    ((Zfloor count <= 0)%Z -> placed = []) /\
    (radius <= 0 ->
     forall p, In p placed ->
       Vector3.x (SceneryCluster.position p) = SceneryCluster.centerX center /\
       Vector3.z (SceneryCluster.position p) = SceneryCluster.centerZ center).
Proof.
  intros Object3D isGround intersectObjects name center count radius seed
    scene placed n _.
  assert (HP : placed =
    map (SceneryCluster.placementAt Object3D isGround intersectObjects
           name center radius seed scene) (seq 0 n))
    by apply placements_closed_form.
  split; [exact HP|].
  split; [|split; [|split; [|split; [|split; [|split]]]]].
  - rewrite HP, length_map, length_seq. reflexivity.
  - pose proof (placeFrom_draws Object3D isGround intersectObjects name
                  center radius seed scene n 0) as H.
    change (Mulberry32.stateAfter seed (3 * 0))
      with (Mulberry32.mulberry32 seed) in H.
    rewrite H. reflexivity.
  - intros k. split; [apply random_draw|].
    unfold Mulberry32.draw. apply random_range.
  - intros k Hk. apply (state_exact seed k Hk).
  - intros name'. rewrite HP. unfold placed in HP |- *.
    rewrite (placements_closed_form Object3D isGround intersectObjects name').
    fold n. rewrite !map_map. apply map_ext. reflexivity.
  - intros Hc. rewrite HP. subst n.
    now replace (Z.max 0 (Zfloor count)) with 0%Z by lia.
  - intros Hr p Hin. rewrite HP in Hin.
    apply in_map_iff in Hin as (i & Hp & _). subst p.
    unfold SceneryCluster.placementAt, SceneryCluster.clampedRadius. simpl.
    rewrite Rmax_left by exact Hr. split; ring.
Qed.

Lemma placement_deterministic_witness :
  SceneryCluster.placements unit (fun _ => true) (fun _ _ _ _ => [])
    "Tree" (SceneryCluster.Center2 3 4) (1 / 2) 5 1 [tt] = [] /\
  Mulberry32.stateAfter 1 2 = (Int32.ToUint32 1 + 2 * 0x6d2b79f5)%Z /\
  forall p,
    In p (SceneryCluster.placements unit (fun _ => true) (fun _ _ _ _ => [])
            "Tree" (SceneryCluster.Center2 3 4) 2 (- 1) 1 [tt]) ->
    Vector3.x (SceneryCluster.position p) = 3 /\
    Vector3.z (SceneryCluster.position p) = 4.
Proof.
  assert (H0 : Zfloor (1 / 2) = 0%Z) by (apply Zfloor_eq; simpl; lra).
  assert (H2 : Zfloor 2 = 2%Z) by (apply Zfloor_eq; simpl; lra).
  split; [|split].
  - apply (placement_deterministic unit (fun _ => true) (fun _ _ _ _ => [])
             "Tree" (SceneryCluster.Center2 3 4) (1 / 2) 5 1 [tt]);
      rewrite H0; lia.
  - apply (placement_deterministic unit (fun _ => true) (fun _ _ _ _ => [])
             "Tree" (SceneryCluster.Center2 3 4) (1 / 2) 5 1 [tt]) with
      (k := 2%nat); [rewrite H0|]; lia.
  - apply (placement_deterministic unit (fun _ => true) (fun _ _ _ _ => [])
             "Tree" (SceneryCluster.Center2 3 4) 2 (- 1) 1 [tt]);
      [rewrite H2; lia | lra].
Defined.

(** * Further properties of the controller *)

Lemma step_contactCount (invertY : bool) (s : State) (e : Event) :
  (0 <= contactCount s)%Z ->
  (0 <= contactCount (fst (step invertY s e)))%Z.
Proof.
  intros H.
  destruct e; simpl;
    try exact H;
    try lia;
    try (unfold onKeyDown, onKeyUp, handlePointerLockChange,
           handlePointerMove, handlePointerDown, handlePointerUp,
           autoFireTick;
         repeat break_if; simpl; exact H).
  - unfold useFrame. destruct (bodyRef s); simpl; exact H.
  - destruct (elapse_sameControls dt s)
      as (_ & _ & _ & _ & _ & _ & HC & _).
    rewrite HC. exact H.
Qed.

Lemma run_contactCount (invertY : bool) (es : list Event) (s : State) :
  (0 <= contactCount s)%Z ->
  (0 <= contactCount (fst (run invertY s es)))%Z.
Proof.
  revert s. induction es as [|e es IH]; intros s H; simpl; [exact H|].
  pose proof (step_contactCount invertY s e H) as H1.
  destruct (step invertY s e) as [s1 c1]. specialize (IH s1 H1).
  destruct (run invertY s1 es) as [s2 c2]. exact IH.
Qed.

(** X1.  The contact counter never goes below zero: it is at least 0 in
    every state reached from the initial one, an exit at 0 leaves it at 0,
    and from a counter that is not negative an enter followed by an exit
    restores it. *)
Theorem contact_count_floor :
  (forall (invertY : bool) (cam : Pose) (es : list Event),
      (0 <= contactCount (fst (run invertY (initial cam) es)))%Z) /\
  (forall (invertY : bool) (s : State),
      contactCount
        (fst (step invertY (with_contactCount 0 s) CollisionExit)) = 0%Z) /\
  (forall (invertY : bool) (s : State),
      (0 <= contactCount s)%Z ->
      contactCount (fst (run invertY s [CollisionEnter; CollisionExit])) =
      contactCount s).
Proof.
  split; [|split].
  - intros. apply run_contactCount. simpl. lia.
  - reflexivity.
  - intros invertY s H. simpl. lia.
Qed.

Lemma contact_count_floor_witness :
  contactCount
    (fst (run false
            (with_contactCount 2 (initial (mkPose Vector3.zero (mkEuler 0 0 0))))
            [CollisionEnter; CollisionExit])) = 2%Z.
Proof.
  destruct contact_count_floor as (_ & _ & H).
  apply (H false
           (with_contactCount 2
              (initial (mkPose Vector3.zero (mkEuler 0 0 0))))).
  simpl. lia.
Defined.

(** X2.  The keyboard handlers ignore what they do not know: a code outside
    KeyW, KeyS, KeyA, KeyD and Space leaves the whole state as it is on
    key-down and on key-up, and so does every repeated key-down; and a
    key-up after a key-down of the same code leaves the key flags as the
    key-up alone would. *)
Theorem keyboard_ignores_unknown_and_repeat :
  (forall (code : string) (repeat : bool) (s : State),
      recognized code = false ->
      onKeyDown code repeat s = s /\ onKeyUp code s = s) /\
  (forall (code : string) (s : State), onKeyDown code true s = s) /\
  (forall (code : string) (repeat : bool) (s : State),
      keyState (onKeyUp code (onKeyDown code repeat s)) =
      keyState (onKeyUp code s)).
Proof.
  split; [|split].
  - intros code repeat s H. unfold recognized in H.
    repeat (apply orb_false_iff in H; destruct H as [H ?]).
    unfold onKeyDown, onKeyUp.
    repeat match goal with E : String.eqb _ _ = false |- _ =>
      rewrite E; clear E end.
    destruct repeat; split; reflexivity.
  - reflexivity.
  - intros code repeat s. unfold onKeyDown, onKeyUp.
    destruct repeat; [reflexivity|].
    repeat break_if; reflexivity.
Qed.

Lemma keyboard_ignores_unknown_and_repeat_witness :
  let s := initial (mkPose Vector3.zero (mkEuler 0 0 0)) in
  onKeyDown "KeyQ" false s = s /\ onKeyUp "KeyQ" s = s.
Proof.
  intros s. destruct keyboard_ignores_unknown_and_repeat as (H & _).
  apply (H "KeyQ"%string false s). reflexivity.
Defined.

Lemma look_locked_yaw (invertY : bool) (ms : list (R * R)) (s : State) :
  pointerLocked s = true ->
  yaw (fst (run invertY s (pointerMoves ms))) =
  yaw s - LOOK_SENSITIVITY * sumMovementX ms.
Proof.
  revert s. induction ms as [|m ms IH]; intros s HL.
  - simpl. ring.
  - rewrite run_pointerMoves_cons, IH.
    + unfold handlePointerMove. rewrite HL. simpl. ring.
    + unfold handlePointerMove. rewrite HL. exact HL.
Qed.

Lemma look_unlocked (invertY : bool) (ms : list (R * R)) (s : State) :
  pointerLocked s = false ->
  fst (run invertY s (pointerMoves ms)) = s.
Proof.
  intros HL. induction ms as [|m ms IH]; [reflexivity|].
  rewrite run_pointerMoves_cons. unfold handlePointerMove. rewrite HL.
  exact IH.
Qed.

(** X3.  Under pointer lock the yaw after a run of pointer moves is the old
    yaw minus the sensitivity times the sum of the horizontal deltas,
    whatever their order and whatever invertY; without the lock a run of
    pointer moves leaves the whole state as it is. *)
Theorem yaw_accumulates_under_lock :
  (forall (invertY : bool) (s : State) (ms : list (R * R)),
      yaw (fst (run invertY (with_pointerLocked true s) (pointerMoves ms))) =
      yaw s - 0.0035 * sumMovementX ms) /\
  (forall (invertY : bool) (s : State) (ms : list (R * R)),
      fst (run invertY (with_pointerLocked false s) (pointerMoves ms)) =
      with_pointerLocked false s).
Proof.
  split.
  - intros. now rewrite look_locked_yaw.
  - intros. now apply look_unlocked.
Qed.

Lemma step_keeps_translation (invertY : bool) (s : State) (e : Event)
    (body : RigidBody) :
  keepsBody e = true -> bodyRef s = Some body ->
  exists body1,
    bodyRef (fst (step invertY s e)) = Some body1 /\
    translation body1 = translation body /\ invMass body1 = invMass body.
Proof.
  intros HE HB.
  destruct e; simpl in *; try discriminate HE;
    try (exists body; repeat split; exact HB);
    try (unfold onKeyDown, onKeyUp, handlePointerLockChange,
           handlePointerMove, handlePointerDown, handlePointerUp,
           autoFireTick;
         repeat break_if; simpl; exists body; repeat split; exact HB).
  - unfold useFrame. rewrite HB. simpl. eexists. split; [reflexivity|].
    unfold frameCalls. destruct (jumpFires s (linvel body)); split; reflexivity.
  - destruct (elapse_sameControls dt s) as (_ & _ & H1 & _).
    rewrite H1. exists body. repeat split. exact HB.
Qed.

Lemma run_keeps_translation (invertY : bool) (es : list Event) (s : State)
    (body : RigidBody) :
  forallb keepsBody es = true -> bodyRef s = Some body ->
  exists body1,
    bodyRef (fst (run invertY s es)) = Some body1 /\
    translation body1 = translation body /\ invMass body1 = invMass body.
Proof.
  revert s body. induction es as [|e es IH]; intros s body HE HB; simpl.
  - exists body. repeat split. exact HB.
  - simpl in HE. apply andb_true_iff in HE as [HE1 HE2].
    destruct (step_keeps_translation invertY s e body HE1 HB)
      as (body1 & HB1 & HT1 & HM1).
    destruct (step invertY s e) as [s1 c1]. simpl in *.
    destruct (IH s1 body1 HE2 HB1) as (body2 & HB2 & HT2 & HM2).
    destruct (run invertY s1 es) as [s2 c2]. simpl in *.
    exists body2. repeat split; congruence.
Qed.

(** X4.  A frame with the body mounted leaves the body where it is, sets
    its angular velocity to zero, gives it the horizontal move velocity and
    the old vertical velocity plus, when the jump fires, 4.5 times the
    inverse mass; the camera is put 1.3 above the body with the
    orientation (pitch, yaw, 0).  No event of the controller ever moves the
    body: over any events other than the runtime replacing the handle the
    translation stays the same. *)
Theorem frame_steers_without_moving :
  (forall (delta : R) (s : State) (body : RigidBody),
      let s0 := with_bodyRef (Some body) s in
      let mv := moveVelocity (keyState s) (yaw s) in
      let tr := translation body in
      bodyRef (fst (useFrame delta s0)) =
        Some (mkRigidBody tr
                (Vector3.mk (Vector3.x mv)
                   (Vector3.y (linvel body)
                    + (if jumpFires s0 (linvel body)
                       then 4.5 * invMass body else 0))
                   (Vector3.z mv))
                (Vector3.mk 0 0 0) (invMass body)) /\
      camera (fst (useFrame delta s0)) =
        mkPose (Vector3.mk (Vector3.x tr) (Vector3.y tr + 1.3) (Vector3.z tr))
               (mkEuler (pitch s) (yaw s) 0)) /\
  (forall (invertY : bool) (s : State) (body : RigidBody) (es : list Event),
      option_map translation
        (bodyRef (fst (run invertY (with_bodyRef (Some body) s)
                         (filter keepsBody es)))) =
      Some (translation body)).
Proof.
  split.
  - intros delta s body s0 mv tr. split; [|reflexivity].
    subst mv tr. unfold useFrame. simpl. unfold frameCalls. f_equal.
    destruct (jumpFires s0 (linvel body)); simpl;
      (apply (f_equal (fun v => mkRigidBody (translation body) v
                                  (Vector3.mk 0 0 0) (invMass body)));
       apply vec3_eq; simpl; unfold JUMP_IMPULSE; ring).
  - intros invertY s body es.
    destruct (run_keeps_translation invertY (filter keepsBody es)
                (with_bodyRef (Some body) s) body)
      as (body1 & HB & HT & _).
    + apply forallb_filter_same.
    + reflexivity.
    + rewrite HB. simpl. now rewrite HT.
Qed.

Lemma desiredDirection_rotates (k : KeyState) (yw : R) :
  desiredDirection k yw = Vector3.rotateY yw (desiredDirection k 0).
Proof.
  rewrite !desiredDirection_eq. unfold Vector3.rotateY. simpl.
  rewrite sin_0, cos_0. apply vec3_eq; simpl; ring.
Qed.

(** X5.  Turning turns the movement with it: for every combination of held
    keys the move velocity at a yaw is the move velocity at yaw 0 rotated
    about the vertical axis by that yaw. *)
Theorem movement_turns_with_yaw :
  forall (k : KeyState) (yw : R),
    moveVelocity k yw = Vector3.rotateY yw (moveVelocity k 0).
Proof.
  intros k yw. unfold moveVelocity. rewrite !moving_lengthSq.
  destruct (moving k) eqn:E.
  - assert (H0 : 0 < Vector3.lengthSq (desiredDirection k 0))
      by (apply Rlt_b_true; now rewrite moving_lengthSq).
    assert (H1 : 0 < Vector3.lengthSq (desiredDirection k yw))
      by (apply Rlt_b_true; now rewrite moving_lengthSq).
    rewrite (normalize_positive _ H0), (normalize_positive _ H1).
    rewrite !desiredDirection_lengthSq.
    rewrite (desiredDirection_rotates k yw).
    unfold Vector3.rotateY, Vector3.multiplyScalar. simpl.
    apply vec3_eq; simpl; ring.
  - apply desiredDirection_rotates.
Qed.

Lemma lerpFactor_range (delta : R) :
  0 <= delta -> 0 < 1 - lerpFactor delta <= 1.
Proof.
  intros H. unfold lerpFactor, GUN_SWAY_SMOOTHING.
  replace (1 - (1 - exp (- (12) * delta))) with (exp (- (12 * delta)))
    by (replace (- (12) * delta) with (- (12 * delta)) by ring; ring).
  split; [apply exp_pos|].
  rewrite exp_Ropp.
  destruct (Req_dec delta 0) as [->|Hne].
  - rewrite Rmult_0_r, exp_0. lra.
  - assert (Hx : 1 + 12 * delta < exp (12 * delta))
      by (apply exp_ineq1; lra).
    assert (H1 : 1 < exp (12 * delta)) by lra.
    rewrite <- Rinv_1. left. apply Rinv_lt_contravar; lra.
Qed.

Lemma approach_no_overshoot (c t e : R) :
  0 < e <= 1 ->
  let n := c + (t - c) * (1 - e) in
  Rabs (n - t) <= Rabs (c - t) /\ 0 <= (c - t) * (n - t).
Proof.
  intros [H1 H2] n. subst n.
  replace (c + (t - c) * (1 - e) - t) with ((c - t) * e) by ring.
  split.
  - rewrite Rabs_mult, (Rabs_pos_eq e) by lra.
    pose proof (Rabs_pos (c - t)). nra.
  - replace ((c - t) * ((c - t) * e)) with (e * ((c - t) * (c - t))) by ring.
    pose proof (Rle_0_sqr (c - t)) as HS. unfold Rsqr in HS. nra.
Qed.

(** X6.  For a frame time that is not negative the sway never overshoots:
    on each axis the new sway is no farther from the target than the old
    one, and it stays on the same side of the target. *)
Theorem sway_never_overshoots :
  forall (v : vec3) (delta : R) (sway : vec3),
    0 <= delta ->
    let t := gunSwayTarget v in
    let n := swayUpdate v delta sway in
    (Rabs (Vector3.x n - Vector3.x t) <= Rabs (Vector3.x sway - Vector3.x t) /\
     0 <= (Vector3.x sway - Vector3.x t) * (Vector3.x n - Vector3.x t)) /\
    (Rabs (Vector3.y n - Vector3.y t) <= Rabs (Vector3.y sway - Vector3.y t) /\
     0 <= (Vector3.y sway - Vector3.y t) * (Vector3.y n - Vector3.y t)) /\
    (Rabs (Vector3.z n - Vector3.z t) <= Rabs (Vector3.z sway - Vector3.z t) /\
     0 <= (Vector3.z sway - Vector3.z t) * (Vector3.z n - Vector3.z t)).
Proof.
  intros v delta sway Hd t n.
  pose proof (lerpFactor_range delta Hd) as He.
  subst n. unfold swayUpdate, Vector3.lerp. simpl.
  replace (lerpFactor delta) with (1 - (1 - lerpFactor delta)) by ring.
  repeat split; apply (approach_no_overshoot _ _ _ He).
Qed.

Lemma sway_never_overshoots_witness :
  let v := Vector3.mk 2 0 (- 1) in
  let t := gunSwayTarget v in
  let n := swayUpdate v 0.016 Vector3.zero in
  Rabs (Vector3.x n - Vector3.x t) <= Rabs (Vector3.x Vector3.zero - Vector3.x t).
Proof.
  intros v t n.
  apply (sway_never_overshoots v 0.016 Vector3.zero). lra.
Defined.

(** X7.  Auto-fire: releasing the primary button, a pointer cancel, a
    pointer leave and a pointer-lock change that leaves no element holding
    the lock each clear the interval, and once it is cleared a tick of the
    interval changes nothing; a pointer-lock change that leaves the lock
    with the canvas or with another element keeps the interval as it is,
    and the pointer counts as locked only when the canvas holds the lock; a
    press with another button, or a press off the canvas without the lock,
    changes nothing; an accepted press adds exactly one projectile, carrying
    the value of the id counter, and leaves the interval set; the release of
    another button leaves the interval as it is. *)
Theorem auto_fire_start_and_stop :
  (forall (invertY : bool) (s : State) (e : Event),
      stopsAutoFire e = true ->
      let s1 := fst (step invertY s e) in
      fireIntervalRef s1 = false /\
      fst (step invertY s1 AutoFireTick) = s1 /\
      projectiles s1 = projectiles s) /\
  (forall (invertY : bool) (s : State) (element : LockElement),
      let s1 := fst (step invertY s (PointerLockChange element)) in
      pointerLocked s1 = isCanvas element /\
      projectiles s1 = projectiles s /\
      (element <> NoElement -> fireIntervalRef s1 = fireIntervalRef s)) /\
  (forall (s : State) (button : Z) (onCanvas : bool),
      acceptedPress s button onCanvas = false ->
      handlePointerDown button onCanvas s = s) /\
  (forall (s : State) (button : Z) (onCanvas : bool),
      acceptedPress s button onCanvas = true ->
      let s1 := handlePointerDown button onCanvas s in
      fireIntervalRef s1 = true /\
      map id (projectiles s1) = map id (projectiles s) ++ [projectileIdRef s] /\
      projectileIdRef s1 = (projectileIdRef s + 1)%N) /\
  (forall (s : State) (button : Z),
      (button =? 0)%Z = false -> handlePointerUp button s = s).
Proof.
  split; [|split; [|split; [|split]]].
  - intros invertY s e HE s1. subst s1.
    destruct e; simpl in HE; try discriminate HE; simpl.
    + destruct element; try discriminate HE.
      split; [|split]; reflexivity.
    + unfold handlePointerUp. rewrite HE.
      split; [|split]; reflexivity.
    + split; [|split]; reflexivity.
    + split; [|split]; reflexivity.
  - intros invertY s element s1. subst s1.
    destruct element; simpl; (split; [|split]);
      try reflexivity; intros H; try reflexivity; now elim H.
  - intros s button onCanvas H. unfold acceptedPress in H.
    unfold handlePointerDown.
    destruct (button =? 0)%Z; simpl in *; [|reflexivity].
    apply orb_false_iff in H as [H1 H2]. rewrite H1, H2. reflexivity.
  - intros s button onCanvas H s1. subst s1. unfold acceptedPress in H.
    apply andb_true_iff in H as [H1 H2]. unfold handlePointerDown.
    rewrite H1. simpl.
    assert (H3 : negb (pointerLocked s) && negb onCanvas = false)
      by (destruct (pointerLocked s), onCanvas; simpl in *; congruence).
    rewrite H3.
    simpl. destruct (fireIntervalRef s) eqn:E; simpl;
      rewrite ?E, map_app; (split; [|split]; reflexivity).
  - intros s button H. unfold handlePointerUp. now rewrite H.
Qed.

Lemma auto_fire_start_and_stop_witness :
  let s := initial (mkPose Vector3.zero (mkEuler 0 0 0)) in
  let firing := handlePointerDown 0 true s in
  fireIntervalRef (fst (step false firing (PointerLockChange NoElement)))
    = false /\
  fireIntervalRef (fst (step false firing (PointerLockChange OtherElement)))
    = true /\
  handlePointerDown 2 true s = s /\
  fireIntervalRef firing = true /\
  handlePointerUp 1 firing = firing.
Proof.
  intros s firing.
  destruct auto_fire_start_and_stop as (H1 & H2 & H3 & H4 & H5).
  split; [|split; [|split; [|split]]].
  - apply (H1 false firing (PointerLockChange NoElement)). reflexivity.
  - destruct (H2 false firing OtherElement) as (_ & _ & H).
    rewrite H by discriminate. apply (H4 s 0%Z true). reflexivity.
  - apply (H3 s 2%Z true). reflexivity.
  - apply (H4 s 0%Z true). reflexivity.
  - apply (H5 firing 1%Z). reflexivity.
Defined.

(** ** Projectiles: ids, speed, expiry *)

Lemma step_idRef_mono (invertY : bool) (s : State) (e : Event) :
  (projectileIdRef s <= projectileIdRef (fst (step invertY s e)))%N.
Proof.
  destruct (step_view invertY s e) as [HV|[HV|[dt HV]]].
  - apply projView_inv in HV as (H & _). rewrite H. lia.
  - apply projView_inv in HV as (H & _). rewrite H. simpl. lia.
  - rewrite HV, elapse_idRef. lia.
Qed.

Lemma run_idRef_mono (invertY : bool) (es : list Event) (s : State) :
  (projectileIdRef s <= projectileIdRef (fst (run invertY s es)))%N.
Proof.
  revert s. induction es as [|e es IH]; intros s; simpl; [lia|].
  pose proof (step_idRef_mono invertY s e) as H.
  destruct (step invertY s e) as [s1 c1]. specialize (IH s1).
  destruct (run invertY s1 es) as [s2 c2]. simpl in *. lia.
Qed.

(** X8.  In every state reached from the initial one the projectiles in the
    collection carry pairwise different ids, all below the id counter, and
    the pending expiry timeouts are exactly those of the projectiles in the
    collection, in the same order; the id counter never decreases. *)
Theorem projectile_ids_unique :
  (forall (invertY : bool) (cam : Pose) (es : list Event),
      let s := fst (run invertY (initial cam) es) in
      NoDup (map id (projectiles s)) /\
      Forall (fun p => (id p < projectileIdRef s)%N) (projectiles s) /\
      map snd (timeouts s) = map id (projectiles s)) /\
  (forall (invertY : bool) (s : State) (es : list Event),
      (projectileIdRef s <= projectileIdRef (fst (run invertY s es)))%N).
Proof.
  split; [|intros; apply run_idRef_mono].
  intros invertY cam es s.
  destruct (run_wellFormed invertY es (initial cam) (wellFormed_initial cam))
    as (HM & HN & HF).
  fold s in HM, HN, HF. split; [now rewrite HM|]. split; [|now rewrite HM].
  apply Forall_forall. intros p Hp.
  assert (Hin : In (id p) (map snd (timeouts s)))
    by (rewrite <- HM; now apply in_map).
  apply in_map_iff in Hin as (t & Ht & Hin).
  rewrite Forall_forall in HF. specialize (HF t Hin). lia.
Qed.

Lemma rotateX_lengthSq (th : R) (a : vec3) :
  Vector3.lengthSq (Vector3.rotateX th a) = Vector3.lengthSq a.
Proof.
  unfold Vector3.lengthSq, Vector3.rotateX. simpl.
  pose proof (sin2_cos2 th) as H. unfold Rsqr in H.
  transitivity (Vector3.x a * Vector3.x a
                + (Vector3.y a * Vector3.y a + Vector3.z a * Vector3.z a)
                  * (sin th * sin th + cos th * cos th)); [ring|].
  rewrite H. ring.
Qed.

Lemma rotateY_lengthSq (th : R) (a : vec3) :
  Vector3.lengthSq (Vector3.rotateY th a) = Vector3.lengthSq a.
Proof.
  unfold Vector3.lengthSq, Vector3.rotateY. simpl.
  pose proof (sin2_cos2 th) as H. unfold Rsqr in H.
  transitivity (Vector3.y a * Vector3.y a
                + (Vector3.x a * Vector3.x a + Vector3.z a * Vector3.z a)
                  * (sin th * sin th + cos th * cos th)); [ring|].
  rewrite H. ring.
Qed.

Lemma rotateZ_lengthSq (th : R) (a : vec3) :
  Vector3.lengthSq (Vector3.rotateZ th a) = Vector3.lengthSq a.
Proof.
  unfold Vector3.lengthSq, Vector3.rotateZ. simpl.
  pose proof (sin2_cos2 th) as H. unfold Rsqr in H.
  transitivity (Vector3.z a * Vector3.z a
                + (Vector3.x a * Vector3.x a + Vector3.y a * Vector3.y a)
                  * (sin th * sin th + cos th * cos th)); [ring|].
  rewrite H. ring.
Qed.

Lemma applyEuler_lengthSq (a : vec3) (e : Euler) :
  Vector3.lengthSq (Vector3.applyEuler a e) = Vector3.lengthSq a.
Proof.
  unfold Vector3.applyEuler.
  now rewrite rotateY_lengthSq, rotateX_lengthSq, rotateZ_lengthSq.
Qed.

Lemma normalize_unit (a : vec3) :
  Vector3.lengthSq a = 1 -> Vector3.normalize a = a.
Proof.
  intros H. rewrite normalize_positive by lra. rewrite H, sqrt_1.
  destruct a. apply vec3_eq; simpl; field.
Qed.

Lemma spawn_fliesAtSpeed (q : Euler) :
  let d := Vector3.normalize (Vector3.applyEuler (Vector3.mk 0 0 (-1)) q) in
  Vector3.length d = 1 /\
  Vector3.length (Vector3.multiplyScalar d PROJECTILE_SPEED) = 30.
Proof.
  intros d.
  assert (H1 : Vector3.lengthSq (Vector3.applyEuler (Vector3.mk 0 0 (-1)) q) = 1).
  { rewrite applyEuler_lengthSq. unfold Vector3.lengthSq. simpl. ring. }
  assert (Hd : Vector3.lengthSq d = 1)
    by (subst d; now rewrite normalize_unit).
  split.
  - unfold Vector3.length. rewrite Hd. apply sqrt_1.
  - unfold Vector3.length.
    replace (Vector3.lengthSq (Vector3.multiplyScalar d PROJECTILE_SPEED))
      with (30 * 30).
    + apply sqrt_square. lra.
    + transitivity (30 * 30 * Vector3.lengthSq d); [now rewrite Hd, Rmult_1_r|].
      unfold Vector3.lengthSq, Vector3.multiplyScalar, PROJECTILE_SPEED.
      simpl. ring.
Qed.

Lemma step_fliesAtSpeed (invertY : bool) (s : State) (e : Event) :
  Forall fliesAtSpeed (projectiles s) ->
  Forall fliesAtSpeed (projectiles (fst (step invertY s e))).
Proof.
  intros H. destruct (step_view invertY s e) as [HV|[HV|[dt HV]]].
  - apply projView_inv in HV as (_ & H2 & _). now rewrite H2.
  - apply projView_inv in HV as (_ & H2 & _). rewrite H2. simpl.
    apply Forall_app. split; [exact H|]. constructor; [|constructor].
    apply spawn_fliesAtSpeed.
  - rewrite HV. pose proof (elapse_view dt s) as HE.
    unfold projView in HE. injection HE as _ HP _ _. rewrite HP.
    apply Forall_forall. intros p Hp. apply filter_In in Hp as [Hp _].
    rewrite Forall_forall in H. now apply H.
Qed.

(** X9.  Every projectile in the collection, in every state reached from
    the initial one and whatever the camera orientation was when it was
    spawned, has a direction of length 1 and an initial velocity of
    length 30. *)
Theorem projectiles_fly_at_fixed_speed :
  forall (invertY : bool) (cam : Pose) (es : list Event),
    Forall fliesAtSpeed (projectiles (fst (run invertY (initial cam) es))).
Proof.
  intros invertY cam es.
  assert (H : forall s, Forall fliesAtSpeed (projectiles s) ->
                        Forall fliesAtSpeed
                          (projectiles (fst (run invertY s es)))).
  { induction es as [|e es IH]; intros s Hs; simpl; [exact Hs|].
    pose proof (step_fliesAtSpeed invertY s e Hs) as H1.
    destruct (step invertY s e) as [s1 c1]. specialize (IH s1 H1).
    destruct (run invertY s1 es) as [s2 c2]. exact IH. }
  apply H. constructor.
Qed.

Lemma state_eta (s : State) :
  mkState (keyState s) (pointerLocked s) (bodyRef s) (yaw s) (pitch s)
    (camera s) (contactCount s) (jumpRequested s) (gunRef s) (gunSway s)
    (fireIntervalRef s) (projectileIdRef s) (projectiles s) (clock s)
    (timeouts s) = s.
Proof. destruct s; reflexivity. Qed.

(** X10.  Expiring a projectile is safe to repeat and safe to run late: the
    second expiry of an id changes nothing, the expiry of an id that is not
    in the collection leaves the whole state as it is, an expiry removes the
    projectiles with that id and no others, and two expiries commute. *)
Theorem expire_tolerates_late_and_repeated :
  (forall (i : N) (s : State),
      handleProjectileExpire i (handleProjectileExpire i s) =
      handleProjectileExpire i s) /\
  (forall (i : N) (s : State),
      ~ In i (map id (projectiles s)) -> handleProjectileExpire i s = s) /\
  (forall (i : N) (s : State) (p : ProjectileInstance),
      In p (projectiles (handleProjectileExpire i s)) <->
      In p (projectiles s) /\ id p <> i) /\
  (forall (i j : N) (s : State),
      handleProjectileExpire i (handleProjectileExpire j s) =
      handleProjectileExpire j (handleProjectileExpire i s)).
Proof.
  split; [|split; [|split]].
  - intros i s. unfold handleProjectileExpire, with_projectiles. simpl.
    f_equal. rewrite filter_twice. apply filter_ext. intros p.
    now rewrite andb_diag.
  - intros i s H. unfold handleProjectileExpire, with_projectiles.
    rewrite filter_all; [apply state_eta|].
    intros p Hp. apply negb_true_iff, N.eqb_neq. intros E. apply H.
    rewrite <- E. now apply in_map.
  - intros i s p. simpl. rewrite filter_In, negb_true_iff, N.eqb_neq.
    reflexivity.
  - intros i j s. unfold handleProjectileExpire, with_projectiles. simpl.
    f_equal. rewrite !filter_twice. apply filter_ext. intros p.
    apply andb_comm.
Qed.

Lemma expire_tolerates_late_and_repeated_witness :
  let s := fire (initial (mkPose Vector3.zero (mkEuler 0 0 0))) in
  handleProjectileExpire 7 s = s.
Proof.
  intros s. destruct expire_tolerates_late_and_repeated as (_ & H & _).
  apply (H 7%N s). simpl. intros [E|[]]. discriminate E.
Defined.

(** X11.  The weapon is rigidly mounted on the camera: after a frame with
    the body and the gun node present the gun has the orientation of the
    camera and sits at the distance of the mount offset plus the current
    sway from it; without the gun node the frame leaves the sway and the
    missing node as they are. *)
Theorem gun_mounted_on_camera :
  (forall (delta : R) (s : State) (body : RigidBody) (gun : Pose),
      let s1 :=
        fst (useFrame delta
               (with_gunRef (Some gun) (with_bodyRef (Some body) s))) in
      exists g,
        gunRef s1 = Some g /\
        quaternion g = quaternion (camera s1) /\
        Vector3.length (Vector3.sub (position g) (position (camera s1))) =
        Vector3.length (Vector3.add GUN_POSITION_OFFSET (gunSway s1))) /\
  (forall (delta : R) (s : State) (body : RigidBody),
      let s1 :=
        fst (useFrame delta (with_gunRef None (with_bodyRef (Some body) s))) in
      gunRef s1 = None /\ gunSway s1 = gunSway s).
Proof.
  split.
  - intros delta s body gun s1. subst s1. unfold useFrame. simpl.
    eexists. split; [reflexivity|]. split; [reflexivity|]. simpl.
    unfold Vector3.length. f_equal.
    rewrite <- (applyEuler_lengthSq
                  (Vector3.add GUN_POSITION_OFFSET
                     (swayUpdate (linvel body) delta (gunSway s)))
                  (mkEuler (pitch s) (yaw s) 0)).
    unfold Vector3.lengthSq, Vector3.sub, Vector3.add. simpl. ring.
  - intros delta s body s1. split; reflexivity.
Qed.

(** * Further properties of the scenery placement *)

Lemma draw_range (seed : Z) (k : nat) : 0 <= Mulberry32.draw seed k < 1.
Proof. unfold Mulberry32.draw. apply random_range. Qed.

(** X12.  Every placement lies within the clamped radius of the center in
    the ground plane, and its rotation is a turn about the vertical axis
    alone by an angle in [0, 2 PI). *)
Theorem placements_inside_disk :
  forall (Object3D : Type) (isGround : Object3D -> bool)
         (intersectObjects : list Object3D -> vec3 -> vec3 -> R -> list vec3)
         (name : string) (center : SceneryCluster.Center) (count radius : R)
         (seed : Z) (scene : list Object3D),
    Forall (fun p => insideDisk center (Rmax 0 radius) p /\ yawOnly p)
      (SceneryCluster.placements Object3D isGround intersectObjects name
         center count radius seed scene).
Proof.
  intros. rewrite placements_closed_form. apply Forall_forall.
  intros p Hp. apply in_map_iff in Hp as (i & Hp & _). subst p.
  unfold insideDisk, yawOnly, SceneryCluster.placementAt.
  cbn [SceneryCluster.position SceneryCluster.rotation
       Vector3.x Vector3.y Vector3.z].
  pose proof (draw_range seed (3 * i + 1)) as [H1 H2].
  pose proof (draw_range seed (3 * i + 2)) as [H3 H4].
  set (a := Mulberry32.draw seed (3 * i) * SceneryCluster.TAU).
  set (r := Mulberry32.draw seed (3 * i + 1)) in *.
  set (Rd := SceneryCluster.clampedRadius radius).
  assert (HR : 0 <= Rd) by apply Rmax_l.
  split.
  - pose proof (sin2_cos2 a) as HS. unfold Rsqr in HS.
    pose proof (sqrt_sqrt r H1) as Hr.
    change (Rmax 0 radius) with Rd.
    match goal with
    | |- ?dx * ?dx + ?dz * ?dz <= _ =>
        assert (HD : dx * dx + dz * dz = r * (Rd * Rd))
    end.
    { transitivity ((sqrt r * sqrt r) * (Rd * Rd)
                    * (sin a * sin a + cos a * cos a)); [ring|].
      rewrite HS, Hr. ring. }
    rewrite HD. pose proof (Rle_0_sqr Rd) as HQ. unfold Rsqr in HQ. nra.
  - split; [reflexivity|]. split; [reflexivity|].
    unfold SceneryCluster.TAU. pose proof PI_RGT_0. nra.
Qed.

(** X13.  The height of every placement is the height of the first hit of
    the ray cast down from 200 above its final ground position onto the
    ground nodes of the scene, with a reach of 400; it is 0 when the scene
    has no ground node and 0 when the ray hits nothing. *)
Theorem placement_height_defaults_to_zero :
  forall (Object3D : Type) (isGround : Object3D -> bool)
         (intersectObjects : list Object3D -> vec3 -> vec3 -> R -> list vec3)
         (name : string) (center : SceneryCluster.Center) (count radius : R)
         (seed : Z) (scene : list Object3D),
    Forall
      (fun p =>
         let pos := SceneryCluster.position p in
         Vector3.y pos =
         match filter isGround scene with
         | [] => 0
         | ground =>
             match intersectObjects ground
                     (Vector3.mk (Vector3.x pos) 200 (Vector3.z pos))
                     (Vector3.mk 0 (-1) 0) 400
             with
             | hit :: _ => Vector3.y hit
             | [] => 0
             end
         end)
      (SceneryCluster.placements Object3D isGround intersectObjects name
         center count radius seed scene) /\
    Forall (fun p => Vector3.y (SceneryCluster.position p) = 0)
      (SceneryCluster.placements Object3D (fun _ => false) intersectObjects
         name center count radius seed scene) /\
    Forall (fun p => Vector3.y (SceneryCluster.position p) = 0)
      (SceneryCluster.placements Object3D isGround (fun _ _ _ _ => [])
         name center count radius seed scene).
Proof.
  intros. split; [|split]; rewrite placements_closed_form;
    apply Forall_forall; intros p Hp;
    apply in_map_iff in Hp as (i & Hp & _); subst p;
    unfold SceneryCluster.placementAt, SceneryCluster.groundHeight; simpl.
  - unfold SceneryCluster.maxRayHeight.
    replace (200 * 2) with 400 by lra.
    destruct (filter isGround scene); reflexivity.
  - assert (H : filter (fun _ : Object3D => false) scene = [])
      by (induction scene; simpl; auto).
    now rewrite H.
  - destruct (filter isGround scene); reflexivity.
Qed.

Lemma NoDup_map_injective {A B : Type} (f : A -> B) (l : list A) :
  (forall a b, f a = f b -> a = b) -> NoDup l -> NoDup (map f l).
Proof.
  intros Hf. induction l as [|a l IH]; intros H; simpl; [constructor|].
  inversion H as [|? ? Hnot H']; subst. constructor; [|now apply IH].
  intros Hin. apply in_map_iff in Hin as (b & Hb & Hin).
  apply Hf in Hb. now subst b.
Qed.

Lemma append_cancel_l (a b c : string) :
  (a ++ b)%string = (a ++ c)%string -> b = c.
Proof.
  induction a as [|ch a IH]; simpl; intros H; [exact H|].
  injection H as H. now apply IH.
Qed.

Lemma indexToString_injective (i j : nat) :
  SceneryCluster.indexToString i = SceneryCluster.indexToString j -> i = j.
Proof.
  unfold SceneryCluster.indexToString. intros H.
  apply (f_equal DecimalString.NilEmpty.uint_of_string) in H.
  rewrite !DecimalString.NilEmpty.usu in H.
  injection H as H. now apply DecimalNat.Unsigned.to_uint_inj.
Qed.

Lemma keyOf_injective (name : string) (i j : nat) :
  SceneryCluster.keyOf name i = SceneryCluster.keyOf name j -> i = j.
Proof.
  unfold SceneryCluster.keyOf. intros H.
  apply append_cancel_l in H. simpl in H. injection H as H.
  now apply indexToString_injective.
Qed.

Example keyOf_Tree :
  SceneryCluster.keyOf "Tree" 0 = "Tree-0"%string /\
  SceneryCluster.keyOf "Tree" 12 = "Tree-12"%string /\
  SceneryCluster.keyOf "Scenery" 307 = "Scenery-307"%string.
Proof. repeat split; reflexivity. Qed.

(** X14.  For a count whose floor is below 2^32, the largest length
    [Array.from] makes, the keys of the placements are the strings made of
    the component name, a dash and the decimal digits of the indices 0, 1,
    ... in order, and no two placements of a cluster share a key: the
    decimal string of an index determines the index. *)
Theorem placement_keys_distinct :
  forall (Object3D : Type) (isGround : Object3D -> bool)
         (intersectObjects : list Object3D -> vec3 -> vec3 -> R -> list vec3)
         (name : string) (center : SceneryCluster.Center) (count radius : R)
         (seed : Z) (scene : list Object3D),
    let placed :=
      SceneryCluster.placements Object3D isGround intersectObjects name
        center count radius seed scene in
    (Zfloor count < 4294967296)%Z ->
    map SceneryCluster.key placed =
      map (fun i => (name ++ "-" ++ SceneryCluster.indexToString i)%string)
        (seq 0 (Z.to_nat (Z.max 0 (Zfloor count)))) /\
    NoDup (map SceneryCluster.key placed) /\
    (forall i j p q,
        nth_error placed i = Some p -> nth_error placed j = Some q ->
        SceneryCluster.key p = SceneryCluster.key q -> i = j).
Proof.
  intros Object3D isGround intersectObjects name center count radius seed
    scene placed _.
  assert (HK : map SceneryCluster.key placed =
               map (SceneryCluster.keyOf name)
                 (seq 0 (Z.to_nat (Z.max 0 (Zfloor count))))).
  { subst placed. rewrite placements_closed_form, map_map.
    apply map_ext. reflexivity. }
  assert (HN : NoDup (map SceneryCluster.key placed)).
  { rewrite HK. apply NoDup_map_injective; [|apply seq_NoDup].
    apply keyOf_injective. }
  split; [exact HK|]. split; [exact HN|].
  intros i j p q Hp Hq Hpq.
  apply (proj1 (NoDup_nth_error (map SceneryCluster.key placed)) HN).
  - apply nth_error_Some. rewrite nth_error_map, Hp. discriminate.
  - rewrite !nth_error_map, Hp, Hq. simpl. now rewrite Hpq.
Qed.

Lemma placement_keys_distinct_witness :
  map SceneryCluster.key
    (SceneryCluster.placements unit (fun _ => true) (fun _ _ _ _ => [])
       "Tree" (SceneryCluster.Center2 3 4) (5 / 2) 5 1 [tt]) =
  ["Tree-0"; "Tree-1"]%string.
Proof.
  assert (H2 : Zfloor (5 / 2) = 2%Z) by (apply Zfloor_eq; simpl; lra).
  destruct (placement_keys_distinct unit (fun _ => true) (fun _ _ _ _ => [])
              "Tree" (SceneryCluster.Center2 3 4) (5 / 2) 5 1 [tt]) as (H & _).
  - rewrite H2. lia.
  - rewrite H, H2. reflexivity.
Defined.

Lemma ToInt32_mod (v : Z) :
  Int32.ToInt32 (v mod Int32.two32) = Int32.ToInt32 v.
Proof. unfold Int32.ToInt32. now rewrite Z.mod_mod by (unfold Int32.two32; lia). Qed.

Lemma ToUint32_mod (v : Z) :
  Int32.ToUint32 (v mod Int32.two32) = Int32.ToUint32 v.
Proof. unfold Int32.ToUint32. now rewrite Z.mod_mod by (unfold Int32.two32; lia). Qed.

Lemma next_output_mod (s : Z) :
  (0 <= s)%Z -> (s + Mulberry32.increment < 2 ^ 53)%Z ->
  snd (Mulberry32.next s) = snd (Mulberry32.next (Int32.ToUint32 s)).
Proof.
  intros H0 H53.
  assert (E1 : Mulberry32.addNumbers s Mulberry32.increment =
               (s + Mulberry32.increment)%Z).
  { apply roundDouble_exact. unfold Mulberry32.increment in *. lia. }
  assert (E2 : Mulberry32.addNumbers (Int32.ToUint32 s) Mulberry32.increment =
               (Int32.ToUint32 s + Mulberry32.increment)%Z).
  { apply roundDouble_exact. pose proof (ToUint32_range s).
    unfold Mulberry32.increment.
    change (2 ^ 53)%Z with 9007199254740992%Z. lia. }
  unfold Mulberry32.next. cbv zeta. cbn [snd]. rewrite E1, E2.
  assert (HI : Int32.ToInt32 (Int32.ToUint32 s + Mulberry32.increment) =
               Int32.ToInt32 (s + Mulberry32.increment)).
  { rewrite <- (ToInt32_mod (Int32.ToUint32 s + Mulberry32.increment)),
            <- (ToInt32_mod (s + Mulberry32.increment)).
    unfold Int32.ToUint32. f_equal.
    apply Z.add_mod_idemp_l. unfold Int32.two32. lia. }
  assert (HU : Int32.ToUint32 (Int32.ToUint32 s + Mulberry32.increment) =
               Int32.ToUint32 (s + Mulberry32.increment)).
  { unfold Int32.ToUint32.
    apply Z.add_mod_idemp_l. unfold Int32.two32. lia. }
  set (t := (s + Mulberry32.increment)%Z) in *.
  set (t' := (Int32.ToUint32 s + Mulberry32.increment)%Z) in *.
  assert (H1 : Int32.imul (Int32.xor t (Int32.ushr t 15)) (Int32.or t 1) =
               Int32.imul (Int32.xor t' (Int32.ushr t' 15)) (Int32.or t' 1)).
  { unfold Int32.xor, Int32.or, Int32.ushr. now rewrite HI, HU. }
  now rewrite H1.
Qed.

Lemma random_snd (state : Z) :
  snd (Mulberry32.random state) =
  IZR (snd (Mulberry32.next state)) / 4294967296.
Proof.
  unfold Mulberry32.random. destruct (Mulberry32.next state). reflexivity.
Qed.

Lemma wrappedState_spec (seed : Z) (k : nat) :
  wrappedState seed k =
  Int32.ToUint32
    (Mulberry32.mulberry32 seed + Z.of_nat k * Mulberry32.increment).
Proof.
  induction k as [|k IH].
  - simpl. unfold Mulberry32.mulberry32. rewrite Z.add_0_r.
    symmetry. apply ToUint32_mod.
  - cbn [wrappedState]. rewrite IH. unfold Int32.ToUint32.
    rewrite Z.add_mod_idemp_l by (unfold Int32.two32; lia).
    f_equal. lia.
Qed.

(** X15.  While the sum stays below 2^53 the numbers of the generator
    depend on its state modulo 2^32 only: a state that is not negative gives
    the same number as the state wrapped to 32 bits, and over the first four
    million calls the state that is never wrapped gives the same draws as a
    state wrapped to 32 bits after every addition.  Past 2^53 the sum on
    numbers rounds and this ends: for seed 1 the call of index 4917759
    stores 9007201092538880 where the sum is 9007201092538881, and gives
    3928256918 where the wrapped state gives 1156406167.  Two seeds that
    differ by a multiple of 2^32 give the same placements. *)
Theorem generator_state_may_wrap :
  (forall state : Z,
      (0 <= state)%Z -> (state + 0x6d2b79f5 < 2 ^ 53)%Z ->
      snd (Mulberry32.random state) =
      snd (Mulberry32.random (Int32.ToUint32 state))) /\
  (forall (seed : Z) (k : nat),
      (Z.of_nat k <= 4000000)%Z ->
      Mulberry32.draw seed k =
      snd (Mulberry32.random (wrappedState seed k))) /\
  (Mulberry32.stateAfter 1 3 = (1 + 3 * 0x6d2b79f5)%Z /\
   Mulberry32.next (1 + 4917759 * 0x6d2b79f5)
     = (9007201092538880, 3928256918)%Z /\
   (1 + 4917760 * 0x6d2b79f5 = 9007201092538881)%Z /\
   snd (Mulberry32.next (Int32.ToUint32 (1 + 4917759 * 0x6d2b79f5)))
     = 1156406167%Z) /\
  (forall (Object3D : Type) (isGround : Object3D -> bool)
          (intersectObjects : list Object3D -> vec3 -> vec3 -> R -> list vec3)
          (name : string) (center : SceneryCluster.Center) (count radius : R)
          (seed j : Z) (scene : list Object3D),
      SceneryCluster.placements Object3D isGround intersectObjects name
        center count radius (seed + j * 4294967296) scene =
      SceneryCluster.placements Object3D isGround intersectObjects name
        center count radius seed scene).
Proof.
  assert (HR : forall state,
             (0 <= state)%Z -> (state + Mulberry32.increment < 2 ^ 53)%Z ->
             snd (Mulberry32.random state) =
             snd (Mulberry32.random (Int32.ToUint32 state))).
  { intros state H0 H53. rewrite !random_snd.
    now rewrite (next_output_mod state H0 H53). }
  split; [exact HR|]. split; [|split].
  - intros seed k Hk. unfold Mulberry32.draw.
    destruct (state_exact seed k Hk) as [HS _]. rewrite HS.
    pose proof (ToUint32_range seed) as [H1 H2].
    rewrite HR.
    + now rewrite <- wrappedState_spec.
    + unfold Mulberry32.mulberry32, Mulberry32.increment. lia.
    + unfold Mulberry32.mulberry32, Mulberry32.increment.
      change (2 ^ 53)%Z with 9007199254740992%Z. lia.
  - repeat split; vm_compute; reflexivity.
  - intros. unfold SceneryCluster.placements, Mulberry32.mulberry32,
      Int32.ToUint32, Int32.two32.
    now rewrite Z_mod_plus_full.
Qed.

Lemma generator_state_may_wrap_witness :
  snd (Mulberry32.random (5 * 4294967296 + 7)) =
    snd (Mulberry32.random (Int32.ToUint32 (5 * 4294967296 + 7))) /\
  Mulberry32.draw (-5) 3 = snd (Mulberry32.random (wrappedState (-5) 3)).
Proof.
  destruct generator_state_may_wrap as (H1 & H2 & _).
  split.
  - apply (H1 (5 * 4294967296 + 7)%Z); [lia | reflexivity].
  - apply (H2 (-5)%Z 3%nat). simpl. lia.
Defined.

(** * Further properties: the collider of a scenery instance *)

Lemma union_grows (b : Box3.t) (lo hi : vec3) :
  exists lo' hi',
    Box3.union b (Some (lo, hi)) = Some (lo', hi') /\ vle lo' lo /\ vle hi hi'.
Proof.
  destruct b as [[lo1 hi1]|]; simpl.
  - eexists _, _. split; [reflexivity|].
    unfold vle, Box3.vmin, Box3.vmax. simpl.
    repeat split; first [apply Rmin_r | apply Rmax_r].
  - exists lo, hi. unfold vle. repeat split; lra.
Qed.

Lemma union_keeps (lo1 hi1 : vec3) (b : Box3.t) :
  exists lo' hi',
    Box3.union (Some (lo1, hi1)) b = Some (lo', hi') /\
    vle lo' lo1 /\ vle hi1 hi'.
Proof.
  destruct b as [[lo2 hi2]|]; simpl.
  - eexists _, _. split; [reflexivity|].
    unfold vle, Box3.vmin, Box3.vmax. simpl.
    repeat split; first [apply Rmin_l | apply Rmax_l].
  - exists lo1, hi1. unfold vle. repeat split; lra.
Qed.

Lemma vle_trans (a b c : vec3) : vle a b -> vle b c -> vle a c.
Proof. unfold vle. intros (?&?&?) (?&?&?). repeat split; lra. Qed.

Lemma visit_bounds_keep (cast receive : bool)
    (children : list SceneryInstance.Child)
    (seen : list SceneryInstance.Child) (lo hi : vec3) :
  exists lo' hi',
    snd (fold_left (SceneryInstance.visit cast receive) children
           (seen, Some (lo, hi))) = Some (lo', hi') /\
    vle lo' lo /\ vle hi hi'.
Proof.
  revert seen lo hi. induction children as [|c cs IH]; intros seen lo hi.
  - exists lo, hi. unfold vle. simpl. repeat split; lra.
  - cbn [fold_left]. unfold SceneryInstance.visit at 2.
    destruct (SceneryInstance.isMesh c); [|apply IH].
    destruct (SceneryInstance.rootBounds c) as [b|]; [|apply IH].
    destruct (union_keeps lo hi b) as (lo1 & hi1 & HU & H1 & H2).
    rewrite HU.
    destruct (IH (seen ++ [SceneryInstance.mkChild true cast receive (Some b)])
                lo1 hi1) as (lo2 & hi2 & HF & H3 & H4).
    exists lo2, hi2. split; [exact HF|].
    split; eapply vle_trans; eauto.
Qed.

Lemma visit_bounds_enclose (cast receive : bool)
    (children : list SceneryInstance.Child)
    (seen : list SceneryInstance.Child) (bounds : Box3.t)
    (child : SceneryInstance.Child) (lo hi : vec3) :
  In child children -> SceneryInstance.isMesh child = true ->
  SceneryInstance.rootBounds child = Some (Some (lo, hi)) ->
  exists lo' hi',
    snd (fold_left (SceneryInstance.visit cast receive) children
           (seen, bounds)) = Some (lo', hi') /\
    vle lo' lo /\ vle hi hi'.
Proof.
  revert seen bounds.
  induction children as [|c cs IH]; intros seen bounds Hin HM HB; [easy|].
  cbn [fold_left]. destruct Hin as [->|Hin].
  - unfold SceneryInstance.visit at 2. rewrite HM, HB.
    destruct (union_grows bounds lo hi) as (lo1 & hi1 & HU & H1 & H2).
    rewrite HU.
    destruct (visit_bounds_keep cast receive cs
                (seen ++ [SceneryInstance.mkChild true cast receive
                            (Some (Some (lo, hi)))]) lo1 hi1)
      as (lo2 & hi2 & HF & H3 & H4).
    exists lo2, hi2. split; [exact HF|].
    split; eapply vle_trans; eauto.
  - unfold SceneryInstance.visit at 2.
    destruct (SceneryInstance.isMesh c); [|now apply IH].
    destruct (SceneryInstance.rootBounds c); now apply IH.
Qed.

Lemma visit_bounds_none (cast receive : bool)
    (children : list SceneryInstance.Child)
    (seen : list SceneryInstance.Child) :
  forallb (fun c => negb (hasBounds c)) children = true ->
  snd (fold_left (SceneryInstance.visit cast receive) children (seen, None))
    = None.
Proof.
  revert seen. induction children as [|c cs IH]; intros seen H; [reflexivity|].
  simpl in H. apply andb_true_iff in H as [H1 H2].
  cbn [fold_left]. unfold SceneryInstance.visit at 2.
  unfold hasBounds in H1.
  destruct (SceneryInstance.isMesh c); [|now apply IH].
  destruct (SceneryInstance.rootBounds c) as [[b|]|]; simpl in H1;
    try discriminate H1; now apply IH.
Qed.

(** X16.  When the traversal of a scenery instance sets a collider, the
    cuboid (center plus and minus the half extents) contains the bounding
    box of every mesh under the root, and no half extent is negative; when
    no mesh under the root has a bounding box, or there is no root, the
    collider state is left as it was. *)
Theorem collider_encloses_meshes :
  (forall (cast receive : bool) (children : list SceneryInstance.Child)
          (c : SceneryInstance.Collider),
      snd (SceneryInstance.handleGroupRef cast receive (Some children) None)
        = Some c ->
      vle Vector3.zero (SceneryInstance.halfExtents c) /\
      forall (child : SceneryInstance.Child) (lo hi : vec3),
        In child children -> SceneryInstance.isMesh child = true ->
        SceneryInstance.rootBounds child = Some (Some (lo, hi)) ->
        encloses c lo hi) /\
  (forall (cast receive : bool) (children : list SceneryInstance.Child)
          (old : option SceneryInstance.Collider),
      forallb (fun ch => negb (hasBounds ch)) children = true ->
      snd (SceneryInstance.handleGroupRef cast receive (Some children) old)
        = old) /\
  (forall (cast receive : bool) (old : option SceneryInstance.Collider),
      SceneryInstance.handleGroupRef cast receive None old = (None, old)).
Proof.
  split; [|split].
  - intros cast receive children c. unfold SceneryInstance.handleGroupRef.
    destruct (fold_left (SceneryInstance.visit cast receive) children
                ([], None)) as [seen bounds] eqn:EF.
    destruct (Box3.isEmpty bounds) eqn:EE; simpl; [discriminate|].
    intros HC. injection HC as HC. subst c.
    destruct bounds as [[lo0 hi0]|]; [|discriminate EE].
    unfold Box3.getSize, Box3.getCenter. rewrite EE.
    simpl in EE. apply orb_false_iff in EE as [EE E3].
    apply orb_false_iff in EE as [E1 E2].
    apply Rlt_b_false in E1, E2, E3.
    split.
    + unfold vle. simpl. repeat split; lra.
    + intros child lo hi Hin HM HB.
      destruct (visit_bounds_enclose cast receive children [] None
                  child lo hi Hin HM HB) as (lo' & hi' & HF & H1 & H2).
      unfold Box3.t in *. rewrite EF in HF. simpl in HF.
      injection HF as <- <-.
      unfold encloses, vle in *. simpl.
      destruct H1 as (?&?&?), H2 as (?&?&?). repeat split; lra.
  - intros cast receive children old H.
    unfold SceneryInstance.handleGroupRef.
    pose proof (visit_bounds_none cast receive children [] H) as HN.
    destruct (fold_left (SceneryInstance.visit cast receive) children
                ([], None)) as [seen bounds].
    simpl in HN. subst bounds. reflexivity.
  - reflexivity.
Qed.

Lemma collider_encloses_meshes_witness :
  let mesh :=
    SceneryInstance.mkChild true false false
      (Some (Some (Vector3.mk 0 0 0, Vector3.mk 2 4 6))) in
  encloses
    (SceneryInstance.mkCollider (Vector3.mk (2 / 2) (4 / 2) (6 / 2))
       (Vector3.mk ((0 + 2) * 0.5) ((0 + 4) * 0.5) ((0 + 6) * 0.5)))
    (Vector3.mk 0 0 0) (Vector3.mk 2 4 6) /\
  snd (SceneryInstance.handleGroupRef true true
         (Some [SceneryInstance.mkChild false false false None]) None) = None.
Proof.
  intros mesh. destruct collider_encloses_meshes as (H1 & H2 & _). split.
  - apply (H1 true true [mesh]) with (child := mesh).
    + unfold SceneryInstance.handleGroupRef. simpl.
      assert (HE : Rlt_b 2 0 || Rlt_b 4 0 || Rlt_b 6 0 = false).
      { rewrite !(proj2 (Rlt_b_false _ _)) by lra. reflexivity. }
      rewrite HE. simpl. f_equal. f_equal; apply vec3_eq; simpl; lra.
    + now left.
    + reflexivity.
    + reflexivity.
  - apply H2. reflexivity.
Defined.

Lemma visit_seen (cast receive : bool)
    (children seen : list SceneryInstance.Child) (bounds : Box3.t) :
  fst (fold_left (SceneryInstance.visit cast receive) children (seen, bounds))
  = seen ++ map (withShadows cast receive) children.
Proof.
  revert seen bounds. induction children as [|c cs IH]; intros seen bounds.
  - simpl. now rewrite app_nil_r.
  - cbn [fold_left map].
    assert (HV : exists b',
               SceneryInstance.visit cast receive (seen, bounds) c =
               (seen ++ [withShadows cast receive c], b')).
    { unfold SceneryInstance.visit, withShadows.
      destruct (SceneryInstance.isMesh c);
        [destruct (SceneryInstance.rootBounds c)|]; eexists; reflexivity. }
    destruct HV as [b' HV]. rewrite HV, IH, <- app_assoc. reflexivity.
Qed.

(** X25.  The traversal gives the two shadow flags to every mesh under the
    root and to nothing else: the nodes come back in the same order, each
    mesh with the flags of the cluster, every other node as it was, whether
    or not a collider is set. *)
Theorem shadows_reach_every_mesh :
  forall (cast receive : bool) (children : list SceneryInstance.Child)
         (old : option SceneryInstance.Collider),
    fst (SceneryInstance.handleGroupRef cast receive (Some children) old) =
    Some (map (withShadows cast receive) children).
Proof.
  intros cast receive children old. unfold SceneryInstance.handleGroupRef.
  destruct (fold_left (SceneryInstance.visit cast receive) children
              ([], None)) as [seen bounds] eqn:EF.
  pose proof (visit_seen cast receive children [] None) as H.
  unfold Box3.t in *. rewrite EF in H. simpl in H. subst seen.
  now destruct (Box3.isEmpty bounds).
Qed.

(** * Further properties: the names of the generated assets *)

Example toKebabCase_examples :
  TransformNature.toKebabCase (list_ascii_of_string "Pine Tree_01")
    = list_ascii_of_string "pine-tree-01" /\
  TransformNature.toKebabCase (list_ascii_of_string "--Big  ROCK!!")
    = list_ascii_of_string "big-rock" /\
  TransformNature.toKebabCase (list_ascii_of_string "-") = [] /\
  TransformNature.toPascalCase (list_ascii_of_string "pine tree_01")
    = list_ascii_of_string "PineTree01" /\
  TransformNature.toPascalCase (list_ascii_of_string "  big--rock ")
    = list_ascii_of_string "BigRock" /\
  TransformNature.toPascalCase (list_ascii_of_string "___") = [].
Proof. repeat split; vm_compute; reflexivity. Qed.

Ltac by_cases_on_char c :=
  destruct c as [[] [] [] [] [] [] [] []]; vm_compute; try reflexivity;
  try discriminate; auto.

Lemma alnum_not_dash (c : ascii) :
  TransformNature.isAlnum c = true -> TransformNature.isDash c = false.
Proof. by_cases_on_char c. Qed.

Lemma alnum_not_white (c : ascii) :
  TransformNature.isAlnum c = true -> TransformNature.isWhite c = false.
Proof. by_cases_on_char c. Qed.

Lemma toLower_alnum (c : ascii) :
  TransformNature.isAlnum (TransformNature.toLower c) = TransformNature.isAlnum c.
Proof. by_cases_on_char c. Qed.

Lemma toLower_dash (c : ascii) :
  TransformNature.isDash (TransformNature.toLower c) = TransformNature.isDash c.
Proof. by_cases_on_char c. Qed.

Lemma toLower_toUpper (c : ascii) :
  TransformNature.toLower (TransformNature.toUpper c) = TransformNature.toLower c.
Proof. by_cases_on_char c. Qed.

Lemma toUpper_not_lower (c : ascii) :
  TransformNature.isLower (TransformNature.toUpper c) = false.
Proof. by_cases_on_char c. Qed.

Lemma toUpper_id (c : ascii) :
  TransformNature.isLower c = false -> TransformNature.toUpper c = c.
Proof. unfold TransformNature.toUpper. now intros ->. Qed.

Lemma toLower_class (c : ascii) :
  TransformNature.isAlnum c || TransformNature.isDash c = true ->
  TransformNature.isLower (TransformNature.toLower c)
  || TransformNature.isDigit (TransformNature.toLower c)
  || TransformNature.isDash (TransformNature.toLower c) = true.
Proof. by_cases_on_char c. Qed.

Lemma toLower_id (c : ascii) :
  TransformNature.isLower c || TransformNature.isDigit c
  || TransformNature.isDash c = true ->
  TransformNature.toLower c = c.
Proof. by_cases_on_char c. Qed.

Lemma kebab_char_class (c : ascii) :
  TransformNature.isLower c || TransformNature.isDigit c
  || TransformNature.isDash c = true ->
  TransformNature.isAlnum c = negb (TransformNature.isDash c).
Proof. by_cases_on_char c. Qed.

Lemma space_white_not_alnum :
  TransformNature.isWhite TransformNature.space = true /\
  TransformNature.isAlnum TransformNature.space = false /\
  TransformNature.isAlnum TransformNature.dash = false /\
  TransformNature.isDash TransformNature.dash = true.
Proof. repeat split. Qed.

(** *** toKebabCase *)

Lemma replace_dash_shape (b : bool) (s : list ascii) :
  forallb (fun c => TransformNature.isAlnum c || TransformNature.isDash c)
    (TransformNature.replaceNonAlnum TransformNature.dash b s) = true /\
  noDashRun b (TransformNature.replaceNonAlnum TransformNature.dash b s) = true.
Proof.
  revert b. induction s as [|c s IH]; intros b; [now split|].
  cbn [TransformNature.replaceNonAlnum].
  destruct (TransformNature.isAlnum c) eqn:EA.
  - destruct (IH false) as [H1 H2]. cbn [forallb noDashRun].
    rewrite EA, (alnum_not_dash c EA), H1, H2. now split.
  - destruct b; [apply IH|].
    destruct (IH true) as [H1 H2]. cbn [forallb noDashRun].
    change (TransformNature.isDash TransformNature.dash) with true.
    rewrite H1, H2, orb_true_r. now split.
Qed.

Lemma collapse_noDashRun (b : bool) (l : list ascii) :
  noDashRun b l = true -> TransformNature.collapseDashes b l = l.
Proof.
  revert b. induction l as [|c l IH]; intros b H; [reflexivity|].
  cbn [noDashRun TransformNature.collapseDashes] in *.
  destruct (TransformNature.isDash c).
  - apply andb_true_iff in H as [Hb H]. apply negb_true_iff in Hb. subst b.
    now rewrite IH.
  - now rewrite IH.
Qed.

Lemma noDashRun_weaken (l : list ascii) :
  noDashRun true l = true -> noDashRun false l = true.
Proof.
  destruct l as [|c l]; [reflexivity|]. cbn [noDashRun].
  destruct (TransformNature.isDash c); [discriminate|auto].
Qed.

Lemma stripLeading_shape (l : list ascii) :
  noDashRun false l = true ->
  noDashRun true (TransformNature.stripLeadingDash l) = true.
Proof.
  destruct l as [|c l]; [reflexivity|].
  cbn [noDashRun TransformNature.stripLeadingDash].
  destruct (TransformNature.isDash c) eqn:E; [easy|].
  intros H. cbn [noDashRun]. now rewrite E.
Qed.

Lemma stripTrailing_shape (b : bool) (l : list ascii) :
  noDashRun b l = true ->
  noDashRun b (TransformNature.stripTrailingDash l) = true /\
  endsWithDash (TransformNature.stripTrailingDash l) = false.
Proof.
  revert b. induction l as [|c l IH]; intros b H; [now split|].
  destruct l as [|d l].
  - cbn [TransformNature.stripTrailingDash].
    destruct (TransformNature.isDash c) eqn:E; [now split|].
    cbn [noDashRun endsWithDash]. rewrite E. now split.
  - change (TransformNature.stripTrailingDash (c :: d :: l))
      with (c :: TransformNature.stripTrailingDash (d :: l)).
    cbn [noDashRun] in H.
    destruct (TransformNature.isDash c) eqn:E.
    + apply andb_true_iff in H as [Hb H].
      destruct (IH true H) as [H1 H2].
      assert (HN : TransformNature.stripTrailingDash (d :: l) <> []).
      { destruct l as [|e l].
        - cbn [noDashRun] in H.
          destruct (TransformNature.isDash d) eqn:ED; [discriminate H|].
          cbn [TransformNature.stripTrailingDash]. now rewrite ED.
        - change (TransformNature.stripTrailingDash (d :: e :: l))
            with (d :: TransformNature.stripTrailingDash (e :: l)).
          discriminate. }
      split.
      * cbn [noDashRun]. now rewrite E, Hb, H1.
      * destruct (TransformNature.stripTrailingDash (d :: l)) eqn:ES;
          [now destruct HN | exact H2].
    + destruct (IH false H) as [H1 H2]. split.
      * cbn [noDashRun]. now rewrite E.
      * destruct (TransformNature.stripTrailingDash (d :: l)) eqn:ES;
          [|exact H2].
        cbn [endsWithDash]. exact E.
Qed.

Lemma stripTrailing_incl (l : list ascii) (c : ascii) :
  In c (TransformNature.stripTrailingDash l) -> In c l.
Proof.
  induction l as [|a l IH]; [easy|]. destruct l as [|d l].
  - cbn [TransformNature.stripTrailingDash].
    destruct (TransformNature.isDash a); [easy | auto].
  - change (TransformNature.stripTrailingDash (a :: d :: l))
      with (a :: TransformNature.stripTrailingDash (d :: l)).
    intros [H|H]; [now left | right; now apply IH].
Qed.

Lemma stripEnds_incl (l : list ascii) (c : ascii) :
  In c (TransformNature.stripEnds l) -> In c l.
Proof.
  unfold TransformNature.stripEnds. intros H.
  apply stripTrailing_incl in H. destruct l as [|a l]; [easy|].
  cbn [TransformNature.stripLeadingDash] in H.
  destruct (TransformNature.isDash a); [now right | exact H].
Qed.

Lemma noDashRun_map_lower (b : bool) (l : list ascii) :
  noDashRun b (map TransformNature.toLower l) = noDashRun b l.
Proof.
  revert b. induction l as [|c l IH]; intros b; [reflexivity|].
  cbn [map noDashRun]. rewrite toLower_dash, !IH. reflexivity.
Qed.

Lemma endsWithDash_map_lower (l : list ascii) :
  endsWithDash (map TransformNature.toLower l) = endsWithDash l.
Proof.
  induction l as [|c l IH]; [reflexivity|]. destruct l as [|d l].
  - cbn [map endsWithDash]. apply toLower_dash.
  - exact IH.
Qed.

Lemma toKebabCase_shape (s : list ascii) :
  isKebab (TransformNature.toKebabCase s) = true.
Proof.
  unfold TransformNature.toKebabCase, TransformNature.toLowerCase.
  destruct (replace_dash_shape false s) as [H1 H2].
  rewrite (collapse_noDashRun false _ H2).
  set (r := TransformNature.replaceNonAlnum TransformNature.dash false s) in *.
  pose proof (stripLeading_shape r H2) as H3.
  destruct (stripTrailing_shape true _ H3) as [H4 H5].
  fold (TransformNature.stripEnds r) in H4, H5.
  unfold isKebab. rewrite noDashRun_map_lower, endsWithDash_map_lower, H4, H5.
  rewrite andb_true_r. simpl. rewrite andb_true_r.
  apply forallb_forall. intros c Hc.
  apply in_map_iff in Hc as (c0 & <- & Hc0).
  apply toLower_class. apply stripEnds_incl in Hc0.
  rewrite forallb_forall in H1. now apply H1.
Qed.

Lemma replace_dash_id (b : bool) (l : list ascii) :
  forallb (fun c => TransformNature.isLower c || TransformNature.isDigit c
                    || TransformNature.isDash c) l = true ->
  noDashRun b l = true ->
  TransformNature.replaceNonAlnum TransformNature.dash b l = l.
Proof.
  revert b. induction l as [|c l IH]; intros b HC HN; [reflexivity|].
  cbn [forallb] in HC. apply andb_true_iff in HC as [HC1 HC2].
  cbn [TransformNature.replaceNonAlnum noDashRun] in *.
  rewrite (kebab_char_class c HC1).
  destruct (TransformNature.isDash c) eqn:E; simpl.
  - apply andb_true_iff in HN as [Hb HN]. apply negb_true_iff in Hb. subst b.
    rewrite IH by assumption.
    f_equal. symmetry. now apply Ascii.eqb_eq.
  - now rewrite IH.
Qed.

Lemma stripTrailing_id (l : list ascii) :
  endsWithDash l = false -> TransformNature.stripTrailingDash l = l.
Proof.
  induction l as [|c l IH]; [reflexivity|]. destruct l as [|d l].
  - cbn [endsWithDash TransformNature.stripTrailingDash]. now intros ->.
  - intros H.
    change (TransformNature.stripTrailingDash (c :: d :: l))
      with (c :: TransformNature.stripTrailingDash (d :: l)).
    f_equal. now apply IH.
Qed.

Lemma toKebabCase_fixes_kebab (l : list ascii) :
  isKebab l = true -> TransformNature.toKebabCase l = l.
Proof.
  unfold isKebab. intros H.
  apply andb_true_iff in H as [H H3]. apply andb_true_iff in H as [H1 H2].
  apply negb_true_iff in H3.
  unfold TransformNature.toKebabCase, TransformNature.toLowerCase.
  rewrite (replace_dash_id false l H1 (noDashRun_weaken l H2)).
  rewrite (collapse_noDashRun false l (noDashRun_weaken l H2)).
  unfold TransformNature.stripEnds.
  assert (HL : TransformNature.stripLeadingDash l = l).
  { destruct l as [|c l]; [reflexivity|].
    cbn [noDashRun TransformNature.stripLeadingDash] in *.
    destruct (TransformNature.isDash c); [discriminate H2 | reflexivity]. }
  rewrite HL, (stripTrailing_id l H3).
  rewrite <- (map_id l) at 2. apply map_ext_in. intros c Hc.
  apply toLower_id. rewrite forallb_forall in H1. now apply H1.
Qed.

(** X17.  A slug has the kebab shape: only lower-case letters, digits and
    dashes, no dash first or last, no two dashes in a row; a value of that
    shape is its own slug, so the slugs are exactly the values of that
    shape and making a slug twice is the same as making it once. *)
Theorem toKebabCase_shape_and_idempotent :
  (forall value : list ascii,
      isKebab (TransformNature.toKebabCase value) = true) /\
  (forall value : list ascii,
      isKebab value = true <-> TransformNature.toKebabCase value = value) /\
  (forall value : list ascii,
      TransformNature.toKebabCase (TransformNature.toKebabCase value) =
      TransformNature.toKebabCase value).
Proof.
  split; [exact toKebabCase_shape|]. split.
  - intros value. split; [apply toKebabCase_fixes_kebab|].
    intros H. rewrite <- H. apply toKebabCase_shape.
  - intros value. apply toKebabCase_fixes_kebab, toKebabCase_shape.
Qed.

Lemma toKebabCase_shape_and_idempotent_witness :
  TransformNature.toKebabCase (list_ascii_of_string "oak-tree-2")
    = list_ascii_of_string "oak-tree-2".
Proof.
  destruct toKebabCase_shape_and_idempotent as (_ & H & _).
  apply H. vm_compute. reflexivity.
Defined.

(** X18.  The pattern [-{2,}] never finds anything to replace in
    [toKebabCase]: after the first replacement the value has no two dashes
    in a row, so the second replacement returns it as it is. *)
Theorem toKebabCase_second_replace_is_idle :
  forall value : list ascii,
    let replaced :=
      TransformNature.replaceNonAlnum TransformNature.dash false value in
    TransformNature.collapseDashes false replaced = replaced.
Proof.
  intros value replaced. apply collapse_noDashRun.
  apply (replace_dash_shape false value).
Qed.

(** *** toPascalCase and what the two names share *)

Lemma filter_alnum_replace (sep : ascii) (b : bool) (s : list ascii) :
  TransformNature.isAlnum sep = false ->
  filter TransformNature.isAlnum (TransformNature.replaceNonAlnum sep b s) =
  filter TransformNature.isAlnum s.
Proof.
  intros HS. revert b. induction s as [|c s IH]; intros b; [reflexivity|].
  cbn [TransformNature.replaceNonAlnum filter].
  destruct (TransformNature.isAlnum c) eqn:E.
  - cbn [filter]. now rewrite E, IH.
  - destruct b; cbn [filter]; rewrite ?HS; apply IH.
Qed.

Lemma filter_alnum_collapse (b : bool) (l : list ascii) :
  filter TransformNature.isAlnum (TransformNature.collapseDashes b l) =
  filter TransformNature.isAlnum l.
Proof.
  revert b. induction l as [|c l IH]; intros b; [reflexivity|].
  cbn [TransformNature.collapseDashes filter].
  destruct (TransformNature.isDash c) eqn:E.
  - assert (HA : TransformNature.isAlnum c = false).
    { destruct (TransformNature.isAlnum c) eqn:EA; [|reflexivity].
      apply alnum_not_dash in EA. congruence. }
    rewrite HA. destruct b; cbn [filter]; rewrite ?HA; apply IH.
  - cbn [filter]. now rewrite IH.
Qed.

Lemma dash_not_alnum (c : ascii) :
  TransformNature.isDash c = true -> TransformNature.isAlnum c = false.
Proof.
  intros H. destruct (TransformNature.isAlnum c) eqn:EA; [|reflexivity].
  apply alnum_not_dash in EA. congruence.
Qed.

Lemma filter_alnum_stripTrailing (l : list ascii) :
  filter TransformNature.isAlnum (TransformNature.stripTrailingDash l) =
  filter TransformNature.isAlnum l.
Proof.
  induction l as [|c l IH]; [reflexivity|]. destruct l as [|d l].
  - cbn [TransformNature.stripTrailingDash].
    destruct (TransformNature.isDash c) eqn:E; [|reflexivity].
    cbn [filter]. now rewrite (dash_not_alnum c E).
  - change (TransformNature.stripTrailingDash (c :: d :: l))
      with (c :: TransformNature.stripTrailingDash (d :: l)).
    cbn [filter] in *. now rewrite IH.
Qed.

Lemma filter_alnum_stripEnds (l : list ascii) :
  filter TransformNature.isAlnum (TransformNature.stripEnds l) =
  filter TransformNature.isAlnum l.
Proof.
  unfold TransformNature.stripEnds. rewrite filter_alnum_stripTrailing.
  destruct l as [|c l]; [reflexivity|].
  cbn [TransformNature.stripLeadingDash].
  destruct (TransformNature.isDash c) eqn:E; [|reflexivity].
  cbn [filter]. now rewrite (dash_not_alnum c E).
Qed.

Lemma filter_alnum_map_lower (l : list ascii) :
  filter TransformNature.isAlnum (map TransformNature.toLower l) =
  map TransformNature.toLower (filter TransformNature.isAlnum l).
Proof.
  induction l as [|c l IH]; [reflexivity|].
  cbn [map filter]. rewrite toLower_alnum.
  destruct (TransformNature.isAlnum c); cbn [map]; now rewrite IH.
Qed.

Lemma kebab_content (s : list ascii) :
  filter TransformNature.isAlnum (TransformNature.toKebabCase s) =
  map TransformNature.toLower (filter TransformNature.isAlnum s).
Proof.
  unfold TransformNature.toKebabCase, TransformNature.toLowerCase.
  rewrite filter_alnum_map_lower, filter_alnum_stripEnds,
    filter_alnum_collapse, filter_alnum_replace by reflexivity.
  reflexivity.
Qed.

Lemma filter_notWhite_trimStart (l : list ascii) :
  filter notWhite (TransformNature.trimStart l) = filter notWhite l.
Proof.
  induction l as [|c l IH]; [reflexivity|].
  cbn [TransformNature.trimStart].
  destruct (TransformNature.isWhite c) eqn:E; [|reflexivity].
  rewrite IH. cbn [filter]. unfold notWhite at 2. now rewrite E.
Qed.

Lemma filter_rev_comm {A : Type} (f : A -> bool) (l : list A) :
  filter f (rev l) = rev (filter f l).
Proof.
  induction l as [|a l IH]; [reflexivity|].
  cbn [rev filter]. rewrite filter_app, IH. cbn [filter].
  destruct (f a); cbn [rev]; [reflexivity | now rewrite app_nil_r].
Qed.

Lemma filter_notWhite_trim (l : list ascii) :
  filter notWhite (TransformNature.trim l) = filter notWhite l.
Proof.
  unfold TransformNature.trim, TransformNature.trimEnd.
  rewrite filter_rev_comm, filter_notWhite_trimStart, filter_rev_comm,
    rev_involutive.
  apply filter_notWhite_trimStart.
Qed.

Lemma concat_splitWhite (l : list ascii) :
  (forall cur,
      List.concat (TransformNature.splitWhite cur false l) =
      rev cur ++ filter notWhite l) /\
  List.concat (TransformNature.splitWhite [] true l) = filter notWhite l.
Proof.
  induction l as [|c l [IH1 IH2]].
  - split; [intros cur; simpl; now rewrite !app_nil_r | reflexivity].
  - cbn [TransformNature.splitWhite filter].
    assert (HW : notWhite c = negb (TransformNature.isWhite c)) by reflexivity.
    rewrite HW.
    destruct (TransformNature.isWhite c); cbn [negb]; split.
    + intros cur. cbn [List.concat]. now rewrite IH2.
    + exact IH2.
    + intros cur. rewrite IH1. cbn [rev]. now rewrite <- app_assoc.
    + now rewrite IH1.
Qed.

Lemma replace_space_chars (b : bool) (s : list ascii) (c : ascii) :
  In c (TransformNature.replaceNonAlnum TransformNature.space b s) ->
  TransformNature.isAlnum c = true \/ c = TransformNature.space.
Proof.
  revert b. induction s as [|a s IH]; intros b; [easy|].
  cbn [TransformNature.replaceNonAlnum].
  destruct (TransformNature.isAlnum a) eqn:E.
  - intros [<-|H]; [now left | now apply (IH false)].
  - destruct b; [apply IH|].
    intros [<-|H]; [now right | now apply (IH true)].
Qed.

Lemma trimStart_incl (l : list ascii) (c : ascii) :
  In c (TransformNature.trimStart l) -> In c l.
Proof.
  induction l as [|a l IH]; [easy|]. cbn [TransformNature.trimStart].
  destruct (TransformNature.isWhite a); [right; now apply IH | easy].
Qed.

Lemma trim_incl (l : list ascii) (c : ascii) :
  In c (TransformNature.trim l) -> In c l.
Proof.
  unfold TransformNature.trim, TransformNature.trimEnd. intros H.
  apply in_rev, trimStart_incl, in_rev in H. now apply trimStart_incl.
Qed.

Lemma lower_concat_capitalize (segs : list (list ascii)) :
  map TransformNature.toLower
    (List.concat
       (map TransformNature.capitalize
          (filter TransformNature.nonEmpty segs))) =
  map TransformNature.toLower (List.concat segs).
Proof.
  induction segs as [|seg segs IH]; [reflexivity|].
  destruct seg as [|c r]; cbn [filter TransformNature.nonEmpty]; [exact IH|].
  cbn [map TransformNature.capitalize List.concat app].
  rewrite !map_app, IH. cbn [map]. now rewrite toLower_toUpper.
Qed.

Lemma pascal_content (s : list ascii) :
  map TransformNature.toLower (TransformNature.toPascalCase s) =
  map TransformNature.toLower (filter TransformNature.isAlnum s).
Proof.
  unfold TransformNature.toPascalCase, TransformNature.split.
  rewrite lower_concat_capitalize.
  rewrite (proj1 (concat_splitWhite _) []). cbn [rev app].
  rewrite filter_notWhite_trim.
  rewrite <- (filter_alnum_replace TransformNature.space false s)
    by reflexivity.
  f_equal. apply filter_ext_in. intros c Hc.
  apply replace_space_chars in Hc as [H| ->]; [|reflexivity].
  unfold notWhite. now rewrite H, (alnum_not_white c H).
Qed.

Lemma head_capitalized (segs : list (list ascii)) :
  match
    List.concat
      (map TransformNature.capitalize (filter TransformNature.nonEmpty segs))
  with
  | c :: _ => negb (TransformNature.isLower c)
  | [] => true
  end = true.
Proof.
  induction segs as [|seg segs IH]; [reflexivity|].
  destruct seg as [|c r]; cbn [filter TransformNature.nonEmpty]; [exact IH|].
  cbn [map TransformNature.capitalize List.concat app].
  now rewrite toUpper_not_lower.
Qed.

Lemma forallb_alnum_lower (l : list ascii) :
  forallb TransformNature.isAlnum (map TransformNature.toLower l) =
  forallb TransformNature.isAlnum l.
Proof.
  induction l as [|c l IH]; [reflexivity|].
  cbn [map forallb]. now rewrite toLower_alnum, IH.
Qed.

Lemma toPascalCase_shape (s : list ascii) :
  isPascal (TransformNature.toPascalCase s) = true.
Proof.
  unfold isPascal. apply andb_true_iff. split.
  - rewrite <- forallb_alnum_lower, pascal_content, forallb_alnum_lower.
    apply forallb_forall. intros c Hc. now apply filter_In in Hc.
  - apply head_capitalized.
Qed.

Lemma replace_alnum_id (sep : ascii) (b : bool) (l : list ascii) :
  forallb TransformNature.isAlnum l = true ->
  TransformNature.replaceNonAlnum sep b l = l.
Proof.
  revert b. induction l as [|c l IH]; intros b H; [reflexivity|].
  cbn [forallb] in H. apply andb_true_iff in H as [H1 H2].
  cbn [TransformNature.replaceNonAlnum]. now rewrite H1, IH.
Qed.

Lemma trimStart_alnum_id (l : list ascii) :
  forallb TransformNature.isAlnum l = true -> TransformNature.trimStart l = l.
Proof.
  destruct l as [|c l]; [reflexivity|]. cbn [forallb].
  intros H. apply andb_true_iff in H as [H1 _].
  cbn [TransformNature.trimStart]. now rewrite (alnum_not_white c H1).
Qed.

Lemma trim_alnum_id (l : list ascii) :
  forallb TransformNature.isAlnum l = true -> TransformNature.trim l = l.
Proof.
  intros H. unfold TransformNature.trim, TransformNature.trimEnd.
  rewrite (trimStart_alnum_id l H), trimStart_alnum_id.
  - apply rev_involutive.
  - apply forallb_forall. intros c Hc. apply in_rev in Hc.
    rewrite forallb_forall in H. now apply H.
Qed.

Lemma splitWhite_alnum (cur : list ascii) (b : bool) (l : list ascii) :
  forallb TransformNature.isAlnum l = true ->
  TransformNature.splitWhite cur b l = [rev cur ++ l].
Proof.
  revert cur b. induction l as [|c l IH]; intros cur b H.
  - simpl. now rewrite app_nil_r.
  - cbn [forallb] in H. apply andb_true_iff in H as [H1 H2].
    cbn [TransformNature.splitWhite]. rewrite (alnum_not_white c H1).
    rewrite IH by assumption. cbn [rev]. now rewrite <- app_assoc.
Qed.

Lemma toPascalCase_fixes_pascal (l : list ascii) :
  isPascal l = true -> TransformNature.toPascalCase l = l.
Proof.
  unfold isPascal. intros H. apply andb_true_iff in H as [H1 H2].
  unfold TransformNature.toPascalCase, TransformNature.split.
  rewrite (replace_alnum_id _ _ l H1), (trim_alnum_id l H1),
    (splitWhite_alnum [] false l H1).
  cbn [rev app]. destruct l as [|c r]; [reflexivity|].
  cbn [filter TransformNature.nonEmpty map TransformNature.capitalize
       List.concat].
  rewrite app_nil_r. f_equal. apply toUpper_id.
  now apply negb_true_iff.
Qed.

(** X19.  A component name has only letters and digits and does not start
    with a lower-case letter; a value of that shape is its own component
    name, so making the name twice is the same as making it once. *)
Theorem toPascalCase_shape_and_idempotent :
  (forall value : list ascii,
      isPascal (TransformNature.toPascalCase value) = true) /\
  (forall value : list ascii,
      isPascal value = true <-> TransformNature.toPascalCase value = value) /\
  (forall value : list ascii,
      TransformNature.toPascalCase (TransformNature.toPascalCase value) =
      TransformNature.toPascalCase value).
Proof.
  split; [exact toPascalCase_shape|]. split.
  - intros value. split; [apply toPascalCase_fixes_pascal|].
    intros H. rewrite <- H. apply toPascalCase_shape.
  - intros value. apply toPascalCase_fixes_pascal, toPascalCase_shape.
Qed.

Lemma toPascalCase_shape_and_idempotent_witness :
  TransformNature.toPascalCase (list_ascii_of_string "OakTree2")
    = list_ascii_of_string "OakTree2".
Proof.
  destruct toPascalCase_shape_and_idempotent as (_ & H & _).
  apply H. vm_compute. reflexivity.
Defined.

Lemma map_nil_inv {A B : Type} (f : A -> B) (l : list A) :
  map f l = [] -> l = [].
Proof. destruct l; [reflexivity | discriminate]. Qed.

Lemma kebab_without_alnum (l : list ascii) :
  isKebab l = true -> filter TransformNature.isAlnum l = [] -> l = [].
Proof.
  unfold isKebab. intros H HF.
  apply andb_true_iff in H as [H _]. apply andb_true_iff in H as [H1 H2].
  destruct l as [|c l]; [reflexivity|]. exfalso.
  cbn [forallb noDashRun filter] in *.
  apply andb_true_iff in H1 as [H1 _].
  rewrite (kebab_char_class c H1) in HF.
  destruct (TransformNature.isDash c); [discriminate H2 | discriminate HF].
Qed.

(** X20.  The slug and the component name of one source name carry the same
    letters and digits in the same order, up to case: the slug without its
    dashes is the component name in lower case, and both are the letters
    and digits of the source name in lower case.  The slug is empty exactly
    when the source name has no letter or digit, and so is the component
    name. *)
Theorem slug_and_component_name_agree :
  (forall value : list ascii,
      filter TransformNature.isAlnum (TransformNature.toKebabCase value) =
      map TransformNature.toLower (TransformNature.toPascalCase value) /\
      map TransformNature.toLower (TransformNature.toPascalCase value) =
      map TransformNature.toLower (filter TransformNature.isAlnum value)) /\
  (forall value : list ascii,
      TransformNature.toKebabCase value = [] <->
      filter TransformNature.isAlnum value = []) /\
  (forall value : list ascii,
      TransformNature.toPascalCase value = [] <->
      filter TransformNature.isAlnum value = []).
Proof.
  split; [|split].
  - intros value. split; [|apply pascal_content].
    now rewrite kebab_content, pascal_content.
  - intros value. split; intros H.
    + pose proof (kebab_content value) as HC. rewrite H in HC.
      symmetry in HC. now apply map_nil_inv in HC.
    + apply kebab_without_alnum; [apply toKebabCase_shape|].
      now rewrite kebab_content, H.
  - intros value. split; intros H.
    + pose proof (pascal_content value) as HC. rewrite H in HC.
      symmetry in HC. now apply map_nil_inv in HC.
    + pose proof (pascal_content value) as HC. rewrite H in HC.
      now apply map_nil_inv in HC.
Qed.

Lemma slug_and_component_name_agree_witness :
  TransformNature.toKebabCase (list_ascii_of_string "_ _") = [] /\
  TransformNature.toPascalCase (list_ascii_of_string "_ _") = [].
Proof.
  destruct slug_and_component_name_agree as (_ & H1 & H2). split.
  - apply H1. reflexivity.
  - apply H2. reflexivity.
Defined.

(** * Further properties: the run of the transform script *)

Section HostFacts.

Variable World : Type.
Variable HostError : Type.
Variable mkdir : TransformScript.str -> World -> World + HostError.
Variable readdir :
  TransformScript.str -> World -> list TransformScript.Dirent + HostError.
Variable access : TransformScript.str -> World -> bool.
Variable rename :
  TransformScript.str -> TransformScript.str -> World -> World + HostError.
Variable spawn :
  TransformScript.str -> list TransformScript.str -> World ->
  World * TransformScript.ChildOutcome HostError.
Variable extname : TransformScript.str -> TransformScript.str.
Variable basename :
  TransformScript.str -> TransformScript.str -> TransformScript.str.
Variable dirname : TransformScript.str -> TransformScript.str.
Variable join :
  TransformScript.str -> TransformScript.str -> TransformScript.str.
Variable resolve :
  TransformScript.str -> TransformScript.str -> TransformScript.str.
Variable sortBySourceName :
  list TransformScript.TransformTarget -> list TransformScript.TransformTarget.

Let transformAll :=
  TransformScript.transformAll World HostError access rename spawn dirname
    join.
Let runGltfjsx := TransformScript.runGltfjsx World HostError spawn.
Let renameTransformedGlb :=
  TransformScript.renameTransformedGlb World HostError access rename dirname
    join.

Lemma transformAll_dry (o : TransformScript.CliOptions)
    (targets : list TransformScript.TransformTarget) (w : World)
    (out : list TransformScript.Line) :
  TransformScript.dryRun o = true ->
  exists lines,
    transformAll o targets w out =
      TransformScript.mkRun World HostError w (out ++ lines) None /\
    forallb idleLine lines = true /\
    List.length lines = List.length targets.
Proof.
  intros HD. revert out. induction targets as [|t ts IH]; intros out.
  - exists []. simpl. now rewrite app_nil_r.
  - unfold transformAll in *. cbn [TransformScript.transformAll].
    rewrite HD.
    destruct (negb (TransformScript.force o)
              && TransformScript.pathExists World access
                   (TransformScript.outputTsxPath t) w).
    + destruct (IH (out ++ [TransformScript.LogSkipping
                              (TransformScript.sourceName t)]))
        as (lines & HE & HI & HL).
      exists (TransformScript.LogSkipping (TransformScript.sourceName t)
              :: lines).
      rewrite HE, <- app_assoc. simpl. now rewrite HI, HL.
    + destruct (IH (out ++ [TransformScript.InfoCommand true t]))
        as (lines & HE & HI & HL).
      exists (TransformScript.InfoCommand true t :: lines).
      rewrite HE, <- app_assoc. simpl. now rewrite HI, HL.
Qed.

Lemma runGltfjsx_rejection (t : TransformScript.TransformTarget) (w w1 : World)
    (r : TransformScript.Rejection HostError) :
  runGltfjsx t w = (w1, Some r) ->
  rejectionPath r = None \/
  rejectionPath r = Some (TransformScript.inputPath t).
Proof.
  unfold runGltfjsx, TransformScript.runGltfjsx.
  destruct (spawn _ _ w) as [w' outcome].
  destruct outcome as [e|exitCode signal].
  - intros H. injection H as _ <-. now left.
  - destruct exitCode as [[|p|p]|], signal as [sg|]; intros H;
      try discriminate H; injection H as _ <-; now right.
Qed.

Lemma renameTransformedGlb_rejection (t : TransformScript.TransformTarget)
    (w w1 : World) (r : TransformScript.Rejection HostError) :
  renameTransformedGlb t w = (w1, Some r) -> rejectionPath r = None.
Proof.
  unfold renameTransformedGlb, TransformScript.renameTransformedGlb.
  destruct (_ || _); [discriminate|].
  destruct (rename _ _ w); [discriminate|].
  intros H. injection H as _ <-. reflexivity.
Qed.

Lemma lastCommand_snoc (out : list TransformScript.Line) (dry : bool)
    (t : TransformScript.TransformTarget) :
  lastCommand (out ++ [TransformScript.InfoCommand dry t]) = Some t.
Proof. unfold lastCommand. now rewrite rev_app_distr. Qed.

Lemma transformAll_rejection (o : TransformScript.CliOptions)
    (targets : list TransformScript.TransformTarget) (w : World)
    (out : list TransformScript.Line)
    (r : TransformScript.Rejection HostError) :
  TransformScript.rejected World HostError (transformAll o targets w out)
    = Some r ->
  exists t,
    In t targets /\
    lastCommand
      (TransformScript.console World HostError (transformAll o targets w out))
      = Some t /\
    (rejectionPath r = None \/
     rejectionPath r = Some (TransformScript.inputPath t)).
Proof.
  revert w out. induction targets as [|t ts IH]; intros w out; [discriminate|].
  unfold transformAll in *. cbn [TransformScript.transformAll].
  destruct (negb (TransformScript.force o)
            && TransformScript.pathExists World access
                 (TransformScript.outputTsxPath t) w).
  { intros H. destruct (IH _ _ H) as (t' & Hin & HL & HP).
    exists t'. split; [now right | now split]. }
  destruct (TransformScript.dryRun o).
  { intros H. destruct (IH _ _ H) as (t' & Hin & HL & HP).
    exists t'. split; [now right | now split]. }
  destruct (TransformScript.runGltfjsx World HostError spawn t w)
    as [w1 [r1|]] eqn:ER.
  { simpl. intros H. injection H as <-. exists t.
    split; [now left|]. split; [apply lastCommand_snoc|].
    now apply (runGltfjsx_rejection t w w1). }
  destruct (TransformScript.renameTransformedGlb World HostError access rename
              dirname join t w1) as [w2 [r2|]] eqn:EN.
  { simpl. intros H. injection H as <-. exists t.
    split; [now left|]. split; [apply lastCommand_snoc|].
    left. now apply (renameTransformedGlb_rejection t w1 w2). }
  intros H. destruct (IH _ _ H) as (t' & Hin & HL & HP).
  exists t'. split; [now right | now split].
Qed.

End HostFacts.

(** X21.  A dry run changes nothing but the output directory: when the
    directory can be made, the world after [main] is the world right after
    [mkdir], the console shows only skips, commands marked as dry and the
    warning about a directory without models, and the run rejects only if
    reading the input directory fails. *)
Theorem dry_run_only_makes_output_dir :
  forall (World HostError : Type)
         (mkdir : TransformScript.str -> World -> World + HostError)
         (readdir : TransformScript.str -> World ->
                    list TransformScript.Dirent + HostError)
         (access : TransformScript.str -> World -> bool)
         (rename : TransformScript.str -> TransformScript.str -> World ->
                   World + HostError)
         (spawn : TransformScript.str -> list TransformScript.str -> World ->
                  World * TransformScript.ChildOutcome HostError)
         (extname : TransformScript.str -> TransformScript.str)
         (basename join : TransformScript.str -> TransformScript.str ->
                          TransformScript.str)
         (dirname : TransformScript.str -> TransformScript.str)
         (resolve : TransformScript.str -> TransformScript.str ->
                    TransformScript.str)
         (sortBySourceName : list TransformScript.TransformTarget ->
                             list TransformScript.TransformTarget)
         (o : TransformScript.CliOptions) (w w1 : World),
    TransformScript.dryRun o = true ->
    mkdir (TransformScript.outputDir o) w = inl w1 ->
    let r :=
      TransformScript.main World HostError mkdir readdir access rename spawn
        extname basename dirname join resolve sortBySourceName o w in
    TransformScript.world World HostError r = w1 /\
    forallb idleOrWarning (TransformScript.console World HostError r) = true /\
    TransformScript.rejected World HostError r =
      match readdir (TransformScript.inputDir o) w1 with
      | inl _ => None
      | inr e => Some (TransformScript.Host e)
      end.
Proof.
  intros World HostError mkdir readdir access rename spawn extname basename
    join dirname resolve sortBySourceName o w w1 HD HM r.
  subst r. unfold TransformScript.main. rewrite HM.
  unfold TransformScript.collectTargets.
  destruct (readdir (TransformScript.inputDir o) w1) as [entries|e];
    [|now repeat split].
  destruct (sortBySourceName _) as [|t ts]; [now repeat split|].
  destruct (transformAll_dry World HostError access rename spawn dirname join
              o (t :: ts) w1 [] HD) as (lines & HE & HI & _).
  rewrite HE. simpl. repeat split.
  apply forallb_forall. intros l Hl.
  rewrite forallb_forall in HI. specialize (HI l Hl).
  destruct l; simpl in *; auto.
Qed.

Lemma dry_run_only_makes_output_dir_witness :
  TransformScript.world unit unit (DemoHost.main true) = tt /\
  forallb idleOrWarning (TransformScript.console unit unit (DemoHost.main true))
    = true /\
  TransformScript.rejected unit unit (DemoHost.main true) = None.
Proof.
  apply (dry_run_only_makes_output_dir unit unit DemoHost.mkdir
           DemoHost.readdir DemoHost.access DemoHost.rename DemoHost.spawn
           DemoHost.extname DemoHost.basename DemoHost.join DemoHost.dirname
           DemoHost.resolve DemoHost.sortBySourceName (DemoHost.options true)
           tt tt); reflexivity.
Defined.

Lemma str_eqb_refl (a : TransformScript.str) :
  TransformScript.str_eqb a a = true.
Proof.
  unfold TransformScript.str_eqb.
  destruct (list_eq_dec ascii_dec a a); [reflexivity | easy].
Qed.

(** X22.  A run that rejects points at its model: [runGltfjsx] resolves
    exactly when the child exits with code 0, and when [main] rejects with
    an exit of gltfjsx, the path in the rejection is the input path of the
    target whose command is the last line on the console. *)
Theorem rejection_names_last_command :
  forall (World HostError : Type)
         (mkdir : TransformScript.str -> World -> World + HostError)
         (readdir : TransformScript.str -> World ->
                    list TransformScript.Dirent + HostError)
         (access : TransformScript.str -> World -> bool)
         (rename : TransformScript.str -> TransformScript.str -> World ->
                   World + HostError)
         (spawn : TransformScript.str -> list TransformScript.str -> World ->
                  World * TransformScript.ChildOutcome HostError)
         (extname : TransformScript.str -> TransformScript.str)
         (basename join : TransformScript.str -> TransformScript.str ->
                          TransformScript.str)
         (dirname : TransformScript.str -> TransformScript.str)
         (resolve : TransformScript.str -> TransformScript.str ->
                    TransformScript.str)
         (sortBySourceName : list TransformScript.TransformTarget ->
                             list TransformScript.TransformTarget),
    (forall (t : TransformScript.TransformTarget) (w : World),
        snd (TransformScript.runGltfjsx World HostError spawn t w) = None <->
        exists signal,
          snd (spawn (list_ascii_of_string "npx")
                 (TransformScript.gltfjsxArgs t) w)
          = TransformScript.ChildExit (Some 0%Z) signal) /\
    (forall (o : TransformScript.CliOptions) (w : World)
            (r : TransformScript.Rejection HostError)
            (path : TransformScript.str),
        let run :=
          TransformScript.main World HostError mkdir readdir access rename
            spawn extname basename dirname join resolve sortBySourceName o w in
        TransformScript.rejected World HostError run = Some r ->
        rejectionPath r = Some path ->
        exists t,
          lastCommand (TransformScript.console World HostError run) = Some t /\
          TransformScript.inputPath t = path).
Proof.
  intros. split.
  - intros t w. unfold TransformScript.runGltfjsx.
    destruct (spawn _ _ w) as [w1 outcome]. simpl.
    destruct outcome as [e|exitCode signal]; simpl.
    + split; [discriminate | intros [sg H]; discriminate H].
    + destruct exitCode as [[|p|p]|], signal as [sg|]; simpl; split;
        try discriminate; try (intros [sg' H]; discriminate H);
        intros _; eexists; reflexivity.
  - intros o w r path run HR HP. subst run.
    unfold TransformScript.main in *.
    destruct (mkdir (TransformScript.outputDir o) w) as [w1|e].
    2:{ simpl in HR. injection HR as <-. discriminate HP. }
    destruct (TransformScript.collectTargets World HostError readdir extname
                basename join resolve sortBySourceName
                (TransformScript.inputDir o) (TransformScript.outputDir o) w1)
      as [[|t ts]|e].
    + discriminate HR.
    + destruct (transformAll_rejection World HostError access rename spawn
                  dirname join o (t :: ts) w1 [] r HR)
        as (t' & _ & HL & [HN|HS]).
      * rewrite HN in HP. discriminate HP.
      * exists t'. split; [exact HL|]. congruence.
    + simpl in HR. injection HR as <-. discriminate HP.
Qed.

Lemma rejection_names_last_command_witness :
  exists t,
    lastCommand (TransformScript.console unit unit (DemoHost.main false))
      = Some t /\
    TransformScript.inputPath t = list_ascii_of_string "in/oak-tree.glb".
Proof.
  destruct (rejection_names_last_command unit unit DemoHost.mkdir
              DemoHost.readdir DemoHost.access DemoHost.rename DemoHost.spawn
              DemoHost.extname DemoHost.basename DemoHost.join
              DemoHost.dirname DemoHost.resolve DemoHost.sortBySourceName)
    as (_ & H).
  apply (H (DemoHost.options false) tt
           (TransformScript.ExitedWithCode (Some 1%Z)
              (list_ascii_of_string "in/oak-tree.glb"))); reflexivity.
Defined.

(** X23.  A model whose name is already a slug is never renamed, and neither
    is one whose transformed file does not exist: in both cases
    [renameTransformedGlb] leaves the world as it is and resolves. *)
Theorem clean_name_is_not_renamed :
  forall (World HostError : Type)
         (access : TransformScript.str -> World -> bool)
         (rename : TransformScript.str -> TransformScript.str -> World ->
                   World + HostError)
         (extname : TransformScript.str -> TransformScript.str)
         (basename join resolve : TransformScript.str -> TransformScript.str ->
                                  TransformScript.str)
         (dirname : TransformScript.str -> TransformScript.str),
    (forall (inDir outDir : TransformScript.str)
            (entry : TransformScript.Dirent) (w : World),
        isKebab (basename (TransformScript.name entry)
                   (extname (TransformScript.name entry))) = true ->
        TransformScript.renameTransformedGlb World HostError access rename
          dirname join
          (TransformScript.makeTarget extname basename join resolve
             inDir outDir entry) w = (w, None)) /\
    (forall (t : TransformScript.TransformTarget) (w : World),
        access
          (join (dirname (TransformScript.outputBase t))
             (TransformScript.transformedName (TransformScript.sourceName t)))
          w = false ->
        TransformScript.renameTransformedGlb World HostError access rename
          dirname join t w = (w, None)).
Proof.
  intros. split.
  - intros inDir outDir entry w HK.
    unfold TransformScript.renameTransformedGlb, TransformScript.makeTarget.
    cbn [TransformScript.sourceName TransformScript.slug
         TransformScript.outputBase].
    rewrite (toKebabCase_fixes_kebab _ HK).
    now rewrite str_eqb_refl.
  - intros t w HA. unfold TransformScript.renameTransformedGlb,
      TransformScript.pathExists.
    rewrite HA. now rewrite orb_true_r.
Qed.

Lemma clean_name_is_not_renamed_witness :
  TransformScript.renameTransformedGlb unit unit DemoHost.access
    DemoHost.rename DemoHost.dirname DemoHost.join
    (TransformScript.makeTarget DemoHost.extname DemoHost.basename
       DemoHost.join DemoHost.resolve (list_ascii_of_string "in")
       (list_ascii_of_string "out") DemoHost.entry) tt = (tt, None) /\
  TransformScript.renameTransformedGlb unit unit DemoHost.access
    DemoHost.rename DemoHost.dirname DemoHost.join
    (TransformScript.mkTarget [] (list_ascii_of_string "Oak Tree") [] [] [] [])
    tt = (tt, None).
Proof.
  destruct (clean_name_is_not_renamed unit unit DemoHost.access
              DemoHost.rename DemoHost.extname DemoHost.basename
              DemoHost.join DemoHost.resolve DemoHost.dirname) as (H1 & H2).
  split.
  - apply H1. vm_compute. reflexivity.
  - apply H2. reflexivity.
Defined.

(** X24.  When sorting only reorders, every target that [collectTargets]
    returns has the kebab-case slug and the Pascal-case component name of
    its source name, an output base that is the output directory joined
    with the slug, and the TSX path that is the output base followed by
    ".tsx". *)
Theorem collected_targets_are_named :
  forall (World HostError : Type)
         (readdir : TransformScript.str -> World ->
                    list TransformScript.Dirent + HostError)
         (extname : TransformScript.str -> TransformScript.str)
         (basename join resolve : TransformScript.str -> TransformScript.str ->
                                  TransformScript.str)
         (sortBySourceName : list TransformScript.TransformTarget ->
                             list TransformScript.TransformTarget)
         (inDir outDir : TransformScript.str) (w : World)
         (targets : list TransformScript.TransformTarget),
    (forall l t, In t (sortBySourceName l) -> In t l) ->
    TransformScript.collectTargets World HostError readdir extname basename
      join resolve sortBySourceName inDir outDir w = inl targets ->
    Forall (targetNamed join outDir) targets.
Proof.
  intros World HostError readdir extname basename join resolve
    sortBySourceName inDir outDir w targets HS HC.
  unfold TransformScript.collectTargets in HC.
  destruct (readdir inDir w) as [entries|e]; [|discriminate HC].
  injection HC as <-. apply Forall_forall. intros t Ht.
  apply HS in Ht. apply in_map_iff in Ht as (entry & <- & _).
  unfold targetNamed, TransformScript.makeTarget. simpl.
  repeat split; first [apply toKebabCase_shape | apply toPascalCase_shape].
Qed.

Lemma collected_targets_are_named_witness :
  Forall (targetNamed DemoHost.join (list_ascii_of_string "out"))
    [TransformScript.makeTarget DemoHost.extname DemoHost.basename
       DemoHost.join DemoHost.resolve (list_ascii_of_string "in")
       (list_ascii_of_string "out") DemoHost.entry].
Proof.
  apply (collected_targets_are_named unit unit DemoHost.readdir
           DemoHost.extname DemoHost.basename DemoHost.join DemoHost.resolve
           DemoHost.sortBySourceName (list_ascii_of_string "in")
           (list_ascii_of_string "out") tt).
  - intros l t H. exact H.
  - reflexivity.
Defined.
